(** * gopdeps: import extraction and canonicalisation (x/gopdeps/godeps.go)

    A shallow embedding of [ParseGoImport], [importGo], [canonicalGo] and
    [goToString], together with the functions of Go's standard library
    they call ([strings.HasPrefix], [path.Join], [path.Clean],
    [strconv.Unquote] and the parts of [unicode/utf8] behind it).

    Go strings are byte sequences: a string is a Rocq [string] where the
    code passes it around and a [list ascii] where the code indexes it. *)

From Stdlib Require Import ZArith Ascii String List Lia Permutation.
From stdpp Require Import gmap strings list fin_maps.

Local Open Scope nat_scope.

(** ** Outcomes of a Go call

    A call returns, panics, or (in the model only) exhausts the bound put
    on a loop.  Every loop below is given a bound that is proved
    sufficient, so [OutOfFuel] is never the outcome of a top-level call. *)

Inductive outcome (A : Type) : Type :=
| Returned (a : A)
| Panicked (v : string)
| OutOfFuel.

Arguments Returned {A} a.
Arguments Panicked {A} v.
Arguments OutOfFuel {A}.

Definition obind {A B} (o : outcome A) (k : A -> outcome B) : outcome B :=
  match o with
  | Returned a => k a
  | Panicked v => Panicked v
  | OutOfFuel => OutOfFuel
  end.

Notation "'let*' x := o 'in' k" := (obind o (fun x => k))
  (at level 10, x pattern, o at level 100, k at level 200, only parsing).

Definition index_out_of_range : string := "runtime error: index out of range".
Definition slice_out_of_range : string := "runtime error: slice bounds out of range".

(** [s[i]] on a byte sequence: a run-time panic outside [0 <= i < len(s)]. *)
Definition at_index (s : list ascii) (i : nat) : outcome ascii :=
  match s !! i with
  | Some c => Returned c
  | None => Panicked index_out_of_range
  end.

(** [s[:i]]: a run-time panic when [i > len(s)]. *)
Definition slice_to (s : list ascii) (i : nat) : outcome (list ascii) :=
  if decide (i <= length s) then Returned (take i s)
  else Panicked slice_out_of_range.

Definition bytes (s : string) : list ascii := list_ascii_of_string s.
Definition gostring (l : list ascii) : string := string_of_list_ascii l.

Definition slash : ascii := "/"%char.
Definition dot : ascii := "."%char.

(** ** package strings *)

Module strings.

(** [HasPrefix(s, prefix)] is
    [len(s) >= len(prefix) && s[:len(prefix)] == prefix]. *)
Definition HasPrefix (s prefix : string) : bool :=
  (String.length prefix <=? String.length s)
  && bool_decide (take (String.length prefix) (bytes s) = bytes prefix).

End strings.

(** ** package path *)

Module path.

(** The lazily allocated output buffer of [Clean]: [s] is the string being
    cleaned, [buf] stays [nil] for as long as the output is a prefix of
    [s], and [w] is the length of the output. *)
Record lazybuf : Type := Lazybuf {
  s : list ascii;
  buf : option (list ascii);
  w : nat
}.

Definition index (b : lazybuf) (i : nat) : outcome ascii :=
  match buf b with
  | Some bf => at_index bf i
  | None => at_index (s b) i
  end.

Definition store (b : lazybuf) (bf : list ascii) (c : ascii) : outcome lazybuf :=
  if decide (w b < length bf)
  then Returned {| s := s b; buf := Some (<[w b := c]> bf); w := S (w b) |}
  else Panicked index_out_of_range.

Definition append (b : lazybuf) (c : ascii) : outcome lazybuf :=
  match buf b with
  | None =>
      if bool_decide (w b < length (s b)) && bool_decide (s b !! w b = Some c)
      then Returned {| s := s b; buf := None; w := S (w b) |}
      else
        let* pre := slice_to (s b) (w b) in
        store b (pre ++ replicate (length (s b) - w b) zero) c
  | Some bf => store b bf c
  end.

Definition to_string (b : lazybuf) : outcome (list ascii) :=
  match buf b with
  | None => slice_to (s b) (w b)
  | Some bf => slice_to bf (w b)
  end.

Definition set_w (b : lazybuf) (w' : nat) : lazybuf :=
  {| s := s b; buf := buf b; w := w' |}.

(** [for out.w > dotdot && out.index(out.w) != '/' { out.w-- }] *)
Fixpoint backtrack (b : lazybuf) (dotdot : nat) (w0 : nat) : outcome lazybuf :=
  if decide (dotdot < w0) then
    let* c := index b w0 in
    if Ascii.eqb c slash then Returned (set_w b w0)
    else match w0 with
         | 0 => Returned (set_w b w0)
         | S w1 => backtrack b dotdot w1
         end
  else Returned (set_w b w0).

(** [for ; r < n && path[r] != '/'; r++ { out.append(path[r]) }], with
    [rest] the bytes of [path] from index [r] on. *)
Fixpoint copy_element (rest : list ascii) (out : lazybuf) (r : nat)
  : outcome (lazybuf * nat) :=
  match rest with
  | [] => Returned (out, r)
  | c :: rest' =>
      if Ascii.eqb c slash then Returned (out, r)
      else let* out' := append out c in copy_element rest' out' (S r)
  end.

(** Is [path[i]] the end of a path element: [i == n || path[i] == '/']. *)
Definition at_element_end (p : list ascii) (n i : nat) : outcome bool :=
  if decide (i = n) then Returned true
  else let* c := at_index p i in Returned (Ascii.eqb c slash).

Record cursor : Type := Cursor { out : lazybuf; r : nat; dotdot : nat }.

(** The [..] case of [Clean]'s switch. *)
Definition dotdot_element (rooted : bool) (st : cursor) : outcome cursor :=
  let o := out st in
  if decide (dotdot st < w o) then
    let* o' := backtrack o (dotdot st) (pred (w o)) in
    Returned {| out := o'; r := r st + 2; dotdot := dotdot st |}
  else if negb rooted then
    let* o1 := (if decide (0 < w o) then append o slash else Returned o) in
    let* o2 := append o1 dot in
    let* o3 := append o2 dot in
    Returned {| out := o3; r := r st + 2; dotdot := w o3 |}
  else Returned {| out := o; r := r st + 2; dotdot := dotdot st |}.

(** The [default] case of [Clean]'s switch: a real path element. *)
Definition real_element (p : list ascii) (rooted : bool) (st : cursor)
  : outcome cursor :=
  let o := out st in
  let* o1 :=
    (if (rooted && negb (w o =? 1)) || (negb rooted && negb (w o =? 0))
     then append o slash else Returned o) in
  let* copied := copy_element (drop (r st) p) o1 (r st) in
  Returned {| out := fst copied; r := snd copied; dotdot := dotdot st |}.

(** One iteration of [for r < n { switch { ... } }]. *)
Definition Clean_step (p : list ascii) (rooted : bool) (n : nat) (st : cursor)
  : outcome cursor :=
  let* c := at_index p (r st) in
  if Ascii.eqb c slash then
    Returned {| out := out st; r := S (r st); dotdot := dotdot st |}
  else
    let* is_dot :=
      (if Ascii.eqb c dot then at_element_end p n (r st + 1)
       else Returned false) in
    if is_dot then
      Returned {| out := out st; r := S (r st); dotdot := dotdot st |}
    else
      let* is_dotdot :=
        (if Ascii.eqb c dot then
           let* c1 := at_index p (r st + 1) in
           if Ascii.eqb c1 dot then at_element_end p n (r st + 2)
           else Returned false
         else Returned false) in
      if is_dotdot then dotdot_element rooted st
      else real_element p rooted st.

Fixpoint Clean_loop (fuel : nat) (p : list ascii) (rooted : bool) (n : nat)
    (st : cursor) : outcome cursor :=
  if decide (r st < n) then
    match fuel with
    | 0 => OutOfFuel
    | S fuel' =>
        let* st' := Clean_step p rooted n st in
        Clean_loop fuel' p rooted n st'
    end
  else Returned st.

Definition Clean (p : list ascii) : outcome (list ascii) :=
  match p with
  | [] => Returned [dot]
  | c0 :: _ =>
      let rooted := Ascii.eqb c0 slash in
      let n := length p in
      let o := {| s := p; buf := None; w := 0 |} in
      let* st0 :=
        (if rooted then
           let* o' := append o slash in
           Returned {| out := o'; r := 1; dotdot := 1 |}
         else Returned {| out := o; r := 0; dotdot := 0 |}) in
      let* st := Clean_loop n p rooted n st0 in
      if decide (w (out st) = 0) then Returned [dot]
      else to_string (out st)
  end.

(** The loop of [Join] that copies the elements into [buf], separated by
    slashes and skipping leading empty elements. *)
Fixpoint Join_buf (buf : list ascii) (elem : list string) : list ascii :=
  match elem with
  | [] => buf
  | e :: elem' =>
      if negb (length buf =? 0) || negb (String.eqb e "")
      then Join_buf ((if negb (length buf =? 0) then buf ++ [slash] else buf)
                       ++ bytes e) elem'
      else Join_buf buf elem'
  end.

Definition Join (elem : list string) : outcome string :=
  let size := sum_list (String.length <$> elem) in
  if size =? 0 then Returned ""
  else let* c := Clean (Join_buf [] elem) in Returned (gostring c).

End path.


(** ** Bytes and runes as numbers *)

Definition byteZ (c : ascii) : Z := Z.of_N (N_of_ascii c).

(** [byte(x)]: conversion to a byte keeps the low eight bits. *)
Definition to_byte (x : Z) : ascii := ascii_of_N (Z.to_N (x mod 256)).

(** [int32] and [uint32] wrap-around. *)
Definition wrap32 (x : Z) : Z := (x + 2 ^ 31) mod 2 ^ 32 - 2 ^ 31.
Definition u32 (x : Z) : Z := x mod 2 ^ 32.

(** ** package unicode/utf8 *)

Module utf8.

Local Open Scope Z_scope.

Definition RuneError : Z := 0xFFFD.
Definition RuneSelf : Z := 0x80.
Definition MaxRune : Z := 0x10FFFF.
Definition surrogateMin : Z := 0xD800.
Definition surrogateMax : Z := 0xDFFF.

Definition tx : Z := 0x80.
Definition t2 : Z := 0xC0.
Definition t3 : Z := 0xE0.
Definition t4 : Z := 0xF0.
Definition maskx : Z := 0x3F.
Definition mask2 : Z := 0x1F.
Definition mask3 : Z := 0x0F.
Definition mask4 : Z := 0x07.
Definition rune1Max : Z := 0x7F.
Definition rune2Max : Z := 0x7FF.
Definition rune3Max : Z := 0xFFFF.
Definition locb : Z := 0x80.
Definition hicb : Z := 0xBF.

Definition xx : Z := 0xF1.
Definition as_ : Z := 0xF0.
Definition s1 : Z := 0x02.
Definition s2 : Z := 0x13.
Definition s3 : Z := 0x03.
Definition s4 : Z := 0x23.
Definition s5 : Z := 0x34.
Definition s6 : Z := 0x04.
Definition s7 : Z := 0x44.

(** The table [first]: information about the first byte of an encoding. *)
Definition first (b : Z) : Z :=
  if b <=? 0x7F then as_
  else if b <=? 0xC1 then xx
  else if b <=? 0xDF then s1
  else if b =? 0xE0 then s2
  else if b <=? 0xEC then s3
  else if b =? 0xED then s4
  else if b <=? 0xEF then s3
  else if b =? 0xF0 then s5
  else if b <=? 0xF3 then s6
  else if b =? 0xF4 then s7
  else xx.

(** The table [acceptRanges]: the range allowed for the second byte. *)
Definition acceptRanges (i : Z) : Z * Z :=
  if i =? 0 then (locb, hicb)
  else if i =? 1 then (0xA0, hicb)
  else if i =? 2 then (locb, 0x9F)
  else if i =? 3 then (0x90, hicb)
  else if i =? 4 then (locb, 0x8F)
  else (0, 0).

Definition ValidRune (r : Z) : bool :=
  ((0 <=? r) && (r <? surrogateMin)) || ((surrogateMax <? r) && (r <=? MaxRune)).

(** [DecodeRuneInString(s)]: the first rune of [s] and its width. *)
Definition DecodeRuneInString (s : list ascii) : Z * nat :=
  match s with
  | [] => (RuneError, 0%nat)
  | c0 :: rest =>
      let b0 := byteZ c0 in
      let x := first b0 in
      if as_ <=? x then
        let mask := Z.shiftr (wrap32 (Z.shiftl x 31)) 31 in
        (Z.lor (Z.land b0 (Z.lnot mask)) (Z.land RuneError mask), 1%nat)
      else
        let sz := Z.to_nat (Z.land x 7) in
        let accept := acceptRanges (Z.shiftr x 4) in
        if (length s <? sz)%nat then (RuneError, 1%nat)
        else
          match rest with
          | [] => (RuneError, 1%nat)
          | c1 :: rest1 =>
              let b1 := byteZ c1 in
              if (b1 <? fst accept) || (snd accept <? b1) then (RuneError, 1%nat)
              else if (sz <=? 2)%nat then
                (Z.lor (Z.shiftl (Z.land b0 mask2) 6) (Z.land b1 maskx), 2%nat)
              else
                match rest1 with
                | [] => (RuneError, 1%nat)
                | c2 :: rest2 =>
                    let b2 := byteZ c2 in
                    if (b2 <? locb) || (hicb <? b2) then (RuneError, 1%nat)
                    else if (sz <=? 3)%nat then
                      (Z.lor (Z.lor (Z.shiftl (Z.land b0 mask3) 12)
                                    (Z.shiftl (Z.land b1 maskx) 6))
                             (Z.land b2 maskx), 3%nat)
                    else
                      match rest2 with
                      | [] => (RuneError, 1%nat)
                      | c3 :: _ =>
                          let b3 := byteZ c3 in
                          if (b3 <? locb) || (hicb <? b3) then (RuneError, 1%nat)
                          else
                            (Z.lor (Z.lor (Z.lor (Z.shiftl (Z.land b0 mask4) 18)
                                                 (Z.shiftl (Z.land b1 maskx) 12))
                                          (Z.shiftl (Z.land b2 maskx) 6))
                                   (Z.land b3 maskx), 4%nat)
                      end
                end
          end
  end.

(** [AppendRune(p, r)] appends the encoding of [r]; [EncodeRune r] is the
    appended part. *)
Definition EncodeRune (r : Z) : list ascii :=
  let i := u32 r in
  if i <=? rune1Max then [to_byte r]
  else if i <=? rune2Max then
    [to_byte (Z.lor t2 (byteZ (to_byte (Z.shiftr r 6))));
     to_byte (Z.lor tx (Z.land (byteZ (to_byte r)) maskx))]
  else
    let three (r : Z) :=
      [to_byte (Z.lor t3 (byteZ (to_byte (Z.shiftr r 12))));
       to_byte (Z.lor tx (Z.land (byteZ (to_byte (Z.shiftr r 6))) maskx));
       to_byte (Z.lor tx (Z.land (byteZ (to_byte r)) maskx))] in
    if (MaxRune <? i) || ((surrogateMin <=? i) && (i <=? surrogateMax))
    then three RuneError
    else if i <=? rune3Max then three r
    else
      [to_byte (Z.lor t4 (byteZ (to_byte (Z.shiftr r 18))));
       to_byte (Z.lor tx (Z.land (byteZ (to_byte (Z.shiftr r 12))) maskx));
       to_byte (Z.lor tx (Z.land (byteZ (to_byte (Z.shiftr r 6))) maskx));
       to_byte (Z.lor tx (Z.land (byteZ (to_byte r)) maskx))].

Definition AppendRune (p : list ascii) (r : Z) : list ascii := p ++ EncodeRune r.

(** The loop of [ValidString]; [fuel] bounds the number of runes.  (Later
    releases first skip stretches of eight ASCII bytes at a time, which
    changes no result.) *)
Fixpoint ValidString_loop (fuel : nat) (s : list ascii) : outcome bool :=
  match s with
  | [] => Returned true
  | c0 :: rest =>
      match fuel with
      | O => OutOfFuel
      | S fuel' =>
          let si := byteZ c0 in
          if si <? RuneSelf then ValidString_loop fuel' rest
          else
            let x := first si in
            if x =? xx then Returned false
            else
              let size := Z.to_nat (Z.land x 7) in
              if (length s <? size)%nat then Returned false
              else
                let accept := acceptRanges (Z.shiftr x 4) in
                let in_cont (o : option ascii) :=
                  match o with
                  | Some c => negb ((byteZ c <? locb) || (hicb <? byteZ c))
                  | None => false
                  end in
                let in_accept (o : option ascii) :=
                  match o with
                  | Some c =>
                      negb ((byteZ c <? fst accept) || (snd accept <? byteZ c))
                  | None => false
                  end in
                if negb (in_accept (s !! 1%nat)) then Returned false
                else if (size =? 2)%nat then ValidString_loop fuel' (drop size s)
                else if negb (in_cont (s !! 2%nat)) then Returned false
                else if (size =? 3)%nat then ValidString_loop fuel' (drop size s)
                else if negb (in_cont (s !! 3%nat)) then Returned false
                else ValidString_loop fuel' (drop size s)
      end
  end.

Definition ValidString (s : list ascii) : outcome bool :=
  ValidString_loop (length s) s.

End utf8.

(** The bytes of the UTF-8 encoding of a code point, as numbers. *)
Definition utf8_bytes (v : Z) : list Z :=
  (if v <=? 0x7F then [v]
   else if v <=? 0x7FF then [192 + v / 64; 128 + v mod 64]
   else if v <=? 0xFFFF then
     [224 + v / 4096; 128 + (v / 64) mod 64; 128 + v mod 64]
   else [240 + v / 262144; 128 + (v / 4096) mod 64; 128 + (v / 64) mod 64;
         128 + v mod 64])%Z.

(** ** package strconv *)

Definition dquote : ascii := "034"%char.
Definition squote : ascii := "'"%char.
Definition bquote : ascii := "`"%char.
Definition backslash : ascii := "\"%char.
Definition newline : ascii := "010"%char.
Definition creturn : ascii := "013"%char.

Module strconv.

Inductive error : Type := ErrSyntax | ErrRange.

(** [index(s, c)]: the position of the first [c] in [s]; [None] stands for
    the result [-1]. *)
Fixpoint index (s : list ascii) (c : ascii) : option nat :=
  match s with
  | [] => None
  | x :: s' => if Ascii.eqb x c then Some 0 else S <$> index s' c
  end.

Definition contains (s : list ascii) (c : ascii) : bool :=
  match index s c with Some _ => true | None => false end.

Local Open Scope Z_scope.

Definition unhex (b : ascii) : Z * bool :=
  let c := byteZ b in
  if (byteZ "0" <=? c) && (c <=? byteZ "9") then (c - byteZ "0", true)
  else if (byteZ "a" <=? c) && (c <=? byteZ "f") then (c - byteZ "a" + 10, true)
  else if (byteZ "A" <=? c) && (c <=? byteZ "F") then (c - byteZ "A" + 10, true)
  else (0, false).

(** [for j := 0; j < n; j++ { x, ok := unhex(s[j]); ...; v = v<<4 | x }]
    over the first [n] bytes [ds] of [s]. *)
Fixpoint hex_digits (ds : list ascii) (v : Z) : option Z :=
  match ds with
  | [] => Some v
  | d :: ds' =>
      let (x, ok) := unhex d in
      if ok then hex_digits ds' (wrap32 (Z.lor (Z.shiftl v 4) x)) else None
  end.

(** [for j := 0; j < 2; j++ { x := rune(s[j]) - '0'; ...; v = (v << 3) | x }] *)
Fixpoint octal_digits (ds : list ascii) (v : Z) : option Z :=
  match ds with
  | [] => Some v
  | d :: ds' =>
      let x := byteZ d - byteZ "0" in
      if (x <? 0) || (7 <? x) then None
      else octal_digits ds' (Z.lor (Z.shiftl v 3) x)
  end.

(** [UnquoteChar(s, quote)]: [(value, multibyte, tail)] or an error. *)
Definition UnquoteChar (s : list ascii) (quote : ascii)
  : (Z * bool * list ascii) + error :=
  match s with
  | [] => inr ErrSyntax
  | c :: s1 =>
      if Ascii.eqb c quote && (Ascii.eqb quote squote || Ascii.eqb quote dquote)
      then inr ErrSyntax
      else if utf8.RuneSelf <=? byteZ c then
        let (r, size) := utf8.DecodeRuneInString s in
        inl (r, true, drop size s)
      else if negb (Ascii.eqb c backslash) then inl (byteZ c, false, s1)
      else
        match s1 with
        | [] => inr ErrSyntax
        | c :: s =>
            if Ascii.eqb c "a" then inl (7, false, s)
            else if Ascii.eqb c "b" then inl (8, false, s)
            else if Ascii.eqb c "f" then inl (12, false, s)
            else if Ascii.eqb c "n" then inl (10, false, s)
            else if Ascii.eqb c "r" then inl (13, false, s)
            else if Ascii.eqb c "t" then inl (9, false, s)
            else if Ascii.eqb c "v" then inl (11, false, s)
            else if Ascii.eqb c "x" || Ascii.eqb c "u" || Ascii.eqb c "U" then
              let n := if Ascii.eqb c "x" then 2%nat
                       else if Ascii.eqb c "u" then 4%nat else 8%nat in
              if (length s <? n)%nat then inr ErrSyntax
              else
                match hex_digits (take n s) 0 with
                | None => inr ErrSyntax
                | Some v =>
                    let s := drop n s in
                    if Ascii.eqb c "x" then inl (v, false, s)
                    else if negb (utf8.ValidRune v) then inr ErrSyntax
                    else inl (v, true, s)
                end
            else if (byteZ "0" <=? byteZ c) && (byteZ c <=? byteZ "7") then
              let v := byteZ c - byteZ "0" in
              if (length s <? 2)%nat then inr ErrSyntax
              else
                match octal_digits (take 2 s) v with
                | None => inr ErrSyntax
                | Some v =>
                    if 255 <? v then inr ErrSyntax
                    else inl (v, false, drop 2 s)
                end
            else if Ascii.eqb c backslash then inl (byteZ backslash, false, s)
            else if Ascii.eqb c squote || Ascii.eqb c dquote then
              if negb (Ascii.eqb c quote) then inr ErrSyntax
              else inl (byteZ c, false, s)
            else inr ErrSyntax
        end
  end.

(** The loop of [unquote] over a quoted string with escape sequences:
    [for len(in) > 0 && in[0] != quote { ... }].  The result is [None]
    when the loop body returns [ErrSyntax], and otherwise the buffer and
    the rest of the input when the loop is left. *)
Fixpoint unquote_loop (fuel : nat) (in_ : list ascii) (quote : ascii)
    (unescape : bool) (buf : list ascii)
  : outcome (option (list ascii * list ascii)) :=
  match in_ with
  | [] => Returned (Some (buf, in_))
  | c :: _ =>
      if Ascii.eqb c quote then Returned (Some (buf, in_))
      else
        match fuel with
        | O => OutOfFuel
        | S fuel' =>
            match UnquoteChar in_ quote with
            | inr _ => Returned None
            | inl (r, multibyte, rem) =>
                if Ascii.eqb c newline then Returned None
                else
                  let buf' :=
                    if unescape then
                      if (r <? utf8.RuneSelf) || negb multibyte
                      then buf ++ [to_byte r]
                      else utf8.AppendRune buf r
                    else buf in
                  if Ascii.eqb quote squote then Returned (Some (buf', rem))
                  else unquote_loop fuel' rem quote unescape buf'
            end
        end
  end.

(** [in[i:j]] for indices in range. *)
Definition sub (s : list ascii) (i j : nat) : list ascii := drop i (take j s).

(** [unquote(in, unescape)]: [(out, rem, err)]. *)
Definition unquote (in_ : list ascii) (unescape : bool)
  : outcome (list ascii * list ascii * option error) :=
  match in_ with
  | [] | [_] => Returned ([], in_, Some ErrSyntax)
  | quote :: in1 =>
      match index in1 quote with
      | None => Returned ([], in_, Some ErrSyntax)
      | Some e =>
          let end_ := (e + 2)%nat in
          if Ascii.eqb quote bquote then
            let out :=
              if negb unescape then take end_ in_
              else if negb (contains (take end_ in_) creturn)
                   then sub in_ 1 (end_ - 1)
                   else filter (fun c => c <> creturn) (sub in_ 1 (end_ - 1)) in
            Returned (out, drop end_ in_, None)
          else if Ascii.eqb quote dquote || Ascii.eqb quote squote then
            let* simple :=
              (if negb (contains (take end_ in_) backslash)
                  && negb (contains (take end_ in_) newline)
               then
                 if Ascii.eqb quote dquote
                 then utf8.ValidString (sub in_ 1 (end_ - 1))
                 else
                   let (r, n) := utf8.DecodeRuneInString (sub in_ 1 (end_ - 1)) in
                   Returned ((1 + n + 1 =? end_)%nat
                             && (negb (r =? utf8.RuneError) || negb (n =? 1)%nat))
               else Returned false) in
            if simple then
              let out := take end_ in_ in
              Returned (if unescape then sub out 1 (end_ - 1) else out,
                        drop end_ in_, None)
            else
              let in0 := in_ in
              let* looped :=
                unquote_loop (length in1) in1 quote unescape [] in
              match looped with
              | None => Returned ([], in0, Some ErrSyntax)
              | Some (buf, []) => Returned ([], in0, Some ErrSyntax)
              | Some (buf, c :: rest) =>
                  if Ascii.eqb c quote then
                    if unescape then Returned (buf, rest, None)
                    else Returned (take (length in0 - length rest) in0, rest, None)
                  else Returned ([], in0, Some ErrSyntax)
              end
          else Returned ([], in_, Some ErrSyntax)
      end
  end.

(** [Unquote(s)]: the string that the quoted literal [s] denotes. *)
Definition Unquote (s : string) : outcome (string * option error) :=
  let* res := unquote (bytes s) true in
  match res with
  | (out, rem, err) =>
      if (0 <? length rem)%nat then Returned (""%string, Some ErrSyntax)
      else Returned (gostring out, err)
  end.

End strconv.

(** An interpreted string literal: [body] between double quotes. *)
Definition quoted (body : string) : string :=
  String dquote (body +:+ String dquote "").


(** ** package go/token and go/ast *)

Module token.

(** The special tokens and the literal kinds; [ast.BasicLit.Kind] holds
    one of [INT], [FLOAT], [IMAG], [CHAR] and [STRING]. *)
Inductive Token : Type :=
| ILLEGAL | EOF | COMMENT | IDENT | INT | FLOAT | IMAG | CHAR | STRING.

#[global] Instance Token_eq_dec : EqDecision Token.
Proof. solve_decision. Defined.

End token.

Module ast.

Record BasicLit : Type := {
  ValuePos : Z;
  Kind : token.Token;
  Value : string
}.

Record ImportSpec : Type := {
  Name : option string;
  Path : BasicLit;
  EndPos : Z
}.

Record File : Type := {
  Package : Z;
  Imports : list ImportSpec
}.

End ast.

(** ** The module of the scanned package *)

Module gopmod.

(** Modelled from the spec: the module that owns the scanned file, which
    is declared outside godeps.go.  Its one attribute read here is its
    canonical root import path, a slash-separated string, returned by the
    accessor [p.mod.Path()]. *)
Record Module : Type := { Path : string }.

End gopmod.

(** ** package gopdeps *)

Definition toString_failed : string :=
  "TODO: toString - convert ast.BasicLit to string failed".
Definition nil_dereference : string :=
  "runtime error: invalid memory address or nil pointer dereference".

Definition goToString (l : ast.BasicLit) : outcome string :=
  if decide (ast.Kind l = token.STRING) then
    let* unq := strconv.Unquote (ast.Value l) in
    match unq with
    | (s, None) => Returned s
    | (_, Some _) => Panicked toString_failed
    end
  else Panicked toString_failed.

Section ImportsParser.

(** [token.FileSet] and Go's [error] values are kept abstract, and so is
    [parser.ParseFile(fset, filename, nil, parser.ImportsOnly)]: it adds
    the file to [fset] and returns the pair [(f, err)], either of which
    may be [nil]. *)
Variable FileSet : Type.
Variable error : Type.
Variable ParseFile :
  FileSet -> string -> FileSet * (option ast.File * option error).

(** Modelled from the spec: the struct [ImportsParser], which is declared
    outside godeps.go.  It owns a token/position context ([fset]), the
    module of the package being scanned ([mod]) and the accumulated
    dependency set ([imports], the Go map [map[string]struct{}] from
    canonical import path to a presence marker); these are the three
    fields godeps.go uses. *)
Record ImportsParser : Type := {
  fset : FileSet;
  mod_ : gopmod.Module;
  imports : gmap string ()
}.

Definition canonicalGo (p : ImportsParser) (pkgPath : string) : outcome string :=
  if strings.HasPrefix pkgPath "."
  then path.Join [gopmod.Path (mod_ p); pkgPath]
  else Returned pkgPath.

(** Methods on [*ImportsParser] thread the parser through a call; what a
    call did to the parser before it panicked stays done. *)
Definition M (A : Type) : Type := ImportsParser -> outcome A * ImportsParser.

Definition ret {A} (a : A) : M A := fun p => (Returned a, p).

Definition lift {A} (o : outcome A) : M A := fun p => (o, p).

Definition bind {A B} (m : M A) (k : A -> M B) : M B := fun p =>
  match m p with
  | (Returned a, p') => k a p'
  | (Panicked v, p') => (Panicked v, p')
  | (OutOfFuel, p') => (OutOfFuel, p')
  end.

Notation "'let!' x := m 'in' k" := (bind m (fun x => k))
  (at level 10, x pattern, m at level 100, k at level 200, only parsing).

(** [p.imports[pkgPath] = struct{}{}] *)
Definition set_import (pkgPath : string) : M unit := fun p =>
  (Returned tt,
   {| fset := fset p; mod_ := mod_ p; imports := <[pkgPath := tt]> (imports p) |}).

Definition importGo (spec : ast.ImportSpec) : M unit :=
  let! pkgPath :=
    (fun p => (let* s := goToString (ast.Path spec) in canonicalGo p s, p)) in
  set_import pkgPath.

(** [for _, imp := range f.Imports { p.importGo(imp) }] *)
Fixpoint range_imports (imps : list ast.ImportSpec) : M unit :=
  match imps with
  | [] => ret tt
  | imp :: rest => let! _ := importGo imp in range_imports rest
  end.

(** [f, err := parser.ParseFile(p.fset, gopfile, nil, parser.ImportsOnly)] *)
Definition parse_file (gopfile : string)
  : M (option ast.File * option error) := fun p =>
  let (fset', res) := ParseFile (fset p) gopfile in
  (Returned res, {| fset := fset'; mod_ := mod_ p; imports := imports p |}).

Definition ParseGoImport (gopfile : string) : M (option error) :=
  let! res := parse_file gopfile in
  match res with
  | (_, Some err) => ret (Some err)
  | (Some f, None) =>
      let! _ := range_imports (ast.Imports f) in ret None
  | (None, None) => lift (Panicked nil_dereference)
  end.

(** The dependency set: the keys of [p.imports]. *)
Definition deps (p : ImportsParser) : gset string := dom (imports p).

(** *** Auxiliary definitions for the proofs *)

Definition with_imports (p : ImportsParser) (m : gmap string ()) : ImportsParser :=
  {| fset := fset p; mod_ := mod_ p; imports := m |}.

Definition with_fset (p : ImportsParser) (fs : FileSet) : ImportsParser :=
  {| fset := fs; mod_ := mod_ p; imports := imports p |}.

(** The canonical path that [importGo] computes for an import. *)
Definition import_path (p : ImportsParser) (spec : ast.ImportSpec) : outcome string :=
  let* s := goToString (ast.Path spec) in canonicalGo p s.

(** Insert the paths in turn, up to the first one that is not returned. *)
Fixpoint insert_paths (os : list (outcome string)) (m : gmap string ())
  : outcome unit * gmap string () :=
  match os with
  | [] => (Returned tt, m)
  | Returned k :: os' => insert_paths os' (<[k := tt]> m)
  | Panicked v :: _ => (Panicked v, m)
  | OutOfFuel :: _ => (OutOfFuel, m)
  end.

(** The keys of the paths, when all of them are returned. *)
Fixpoint returned_paths (os : list (outcome string)) : option (list string) :=
  match os with
  | [] => Some []
  | Returned k :: os' => cons k <$> returned_paths os'
  | _ :: _ => None
  end.

(** What godeps.go reads of an import: the kind and the text of its path
    literal. *)
Definition literal_of (spec : ast.ImportSpec) : token.Token * string :=
  (ast.Kind (ast.Path spec), ast.Value (ast.Path spec)).

(** What godeps.go reads of a result of [ParseFile]: the path literals of
    the file, and whether there is an error. *)
Definition outline (res : option ast.File * option error)
  : option (list (token.Token * string)) * bool :=
  ((fun f => literal_of <$> ast.Imports f) <$> fst res,
   match snd res with Some _ => true | None => false end).

(** The file system does not change while the parser is used: parsing a
    file again, whatever was added to the file set since, gives the same
    imports (at other positions). *)
Definition stable_files : Prop :=
  forall fs1 fs2 name,
    outline (snd (ParseFile fs1 name)) = outline (snd (ParseFile fs2 name)).

(** The parser after calls to [ParseGoImport], whatever their outcomes. *)
Fixpoint after_calls (files : list string) (p : ImportsParser) : ImportsParser :=
  match files with
  | [] => p
  | f :: fs => after_calls fs (snd (ParseGoImport f p))
  end.

(** A sequence of calls that all return (an error or [nil]). *)
Inductive parses : ImportsParser -> list string -> ImportsParser -> Prop :=
| parses_nil p : parses p [] p
| parses_cons p f e p' fs p'' :
    ParseGoImport f p = (Returned e, p') ->
    parses p' fs p'' ->
    parses p (f :: fs) p''.

(** The canonicalised import set of a file: what a call that returns for
    it adds to the dependency set. *)
Definition file_set (p : ImportsParser) (name : string) : gset string :=
  match snd (ParseFile (fset p) name) with
  | (Some f, None) =>
      match returned_paths (import_path p <$> ast.Imports f) with
      | Some ks => list_to_set ks
      | None => ∅
      end
  | _ => ∅
  end.

End ImportsParser.

Arguments fset {FileSet} _.
Arguments mod_ {FileSet} _.
Arguments imports {FileSet} _.
Arguments canonicalGo {FileSet} p pkgPath.
Arguments deps {FileSet} p.
Arguments importGo {FileSet} spec _.
Arguments range_imports {FileSet} imps _.
Arguments set_import {FileSet} pkgPath _.
Arguments ParseGoImport {FileSet error} ParseFile gopfile _.
Arguments with_imports {FileSet} p m.
Arguments with_fset {FileSet} p fs.
Arguments import_path {FileSet} p spec.
Arguments outline {error} res.
Arguments stable_files {FileSet error} ParseFile.
Arguments after_calls {FileSet error} ParseFile files p.
Arguments parses {FileSet error} ParseFile _ _ _.
Arguments file_set {FileSet error} ParseFile p name.

(** ** String literals and what they denote

    The string literals of the language, after its specification: a raw
    string literal is the text between back quotes with carriage returns
    dropped; an interpreted string literal is a sequence of characters
    other than newline and double quote, written as such or escaped, and
    of escaped bytes.  [escape_spec.interpreted body s] says that the
    text [body] between the double quotes denotes the bytes [s]. *)

Module escape_spec.

Local Open Scope Z_scope.

Definition position (d : ascii) (digits : string) : option Z :=
  Z.of_nat <$> strconv.index (bytes digits) d.

(** The value of a hexadecimal digit. *)
Definition hex_value (d : ascii) : option Z :=
  match position d "0123456789abcdef" with
  | Some v => Some v
  | None => (fun v => v + 10) <$> position d "ABCDEF"
  end.

(** The value of an octal digit. *)
Definition octal_value (d : ascii) : option Z := position d "01234567".

(** The number written by digits of values [vs] in base [base]. *)
Definition number (base : Z) (vs : list Z) : Z :=
  foldl (fun acc v => acc * base + v) 0 vs.

(** The single-character escapes of a string literal and their bytes. *)
Definition escaped_chars : list (ascii * Z) :=
  [("a"%char, 7); ("b"%char, 8); ("f"%char, 12); ("n"%char, 10);
   ("r"%char, 13); ("t"%char, 9); ("v"%char, 11);
   (backslash, 92); (dquote, 34)].

Inductive interpreted : list ascii -> list ascii -> Prop :=
| interpreted_nil : interpreted [] []
| interpreted_ascii c body s :
    byteZ c < 0x80 -> c <> newline -> c <> dquote -> c <> backslash ->
    interpreted body s ->
    interpreted (c :: body) (c :: s)
| interpreted_rune v body s :
    utf8.ValidRune v = true -> 0x80 <= v ->
    interpreted body s ->
    interpreted (utf8.EncodeRune v ++ body) (utf8.EncodeRune v ++ s)
| interpreted_escaped e b body s :
    (e, b) ∈ escaped_chars ->
    interpreted body s ->
    interpreted (backslash :: e :: body) (to_byte b :: s)
| interpreted_hex h1 h2 x1 x2 body s :
    hex_value <$> [h1; h2] = Some <$> [x1; x2] ->
    interpreted body s ->
    interpreted (backslash :: "x"%char :: h1 :: h2 :: body)
                (to_byte (number 16 [x1; x2]) :: s)
| interpreted_octal o1 o2 o3 x1 x2 x3 body s :
    octal_value <$> [o1; o2; o3] = Some <$> [x1; x2; x3] ->
    number 8 [x1; x2; x3] <= 255 ->
    interpreted body s ->
    interpreted (backslash :: o1 :: o2 :: o3 :: body)
                (to_byte (number 8 [x1; x2; x3]) :: s)
| interpreted_little_u hs xs body s :
    length hs = 4%nat ->
    hex_value <$> hs = Some <$> xs ->
    utf8.ValidRune (number 16 xs) = true ->
    interpreted body s ->
    interpreted (backslash :: "u"%char :: hs ++ body)
                (utf8.EncodeRune (number 16 xs) ++ s)
| interpreted_big_u hs xs body s :
    length hs = 8%nat ->
    hex_value <$> hs = Some <$> xs ->
    utf8.ValidRune (number 16 xs) = true ->
    interpreted body s ->
    interpreted (backslash :: "U"%char :: hs ++ body)
                (utf8.EncodeRune (number 16 xs) ++ s).

(** [denotes lit s]: the string literal [lit] denotes the bytes [s]. *)
Inductive denotes : list ascii -> list ascii -> Prop :=
| denotes_interpreted body s :
    interpreted body s ->
    denotes (dquote :: body ++ [dquote]) s
| denotes_raw body :
    bquote ∉ body ->
    denotes (bquote :: body ++ [bquote]) (filter (fun c => c <> creturn) body).

End escape_spec.

(** A quoting of any byte sequence: every byte written as [\xhh]. *)
Definition hex_digit (v : Z) : ascii :=
  nth (Z.to_nat v) (bytes "0123456789abcdef") "0"%char.

Definition hex_escape (b : ascii) : list ascii :=
  [backslash; "x"%char; hex_digit (byteZ b / 16); hex_digit (byteZ b mod 16)].

Definition hex_quote (s : list ascii) : list ascii :=
  dquote :: flat_map hex_escape s ++ [dquote].

(** The token of a string literal with text [lit]. *)
Definition string_token (pos : Z) (lit : list ascii) : ast.BasicLit :=
  {| ast.ValuePos := pos; ast.Kind := token.STRING; ast.Value := gostring lit |}.

(** ** Path normalisation, stated on path elements

    The normal form of a slash-separated path, as the specification words
    it: the path is cut into its elements at the slashes; empty elements
    and [.] are dropped; [..] removes the name before it, is dropped at
    the root, and is kept in front of a path that is not rooted when
    there is no name left to remove. *)

Module path_spec.

(** The elements of a path: the stretches between its slashes. *)
Fixpoint elements (p : list ascii) : list (list ascii) :=
  match p with
  | [] => [[]]
  | c :: p' =>
      if Ascii.eqb c slash then [] :: elements p'
      else match elements p' with
           | e :: es => (c :: e) :: es
           | [] => [[c]]
           end
  end.

(** [resolve rooted ups names els]: [ups] counts the [..] kept in front,
    [names] holds the names kept so far, last first. *)
Fixpoint resolve (rooted : bool) (ups : nat) (names : list (list ascii))
    (els : list (list ascii)) : list (list ascii) :=
  match els with
  | [] => replicate ups [dot; dot] ++ rev names
  | e :: els' =>
      if bool_decide (e = []) || bool_decide (e = [dot])
      then resolve rooted ups names els'
      else if bool_decide (e = [dot; dot]) then
        match names with
        | _ :: names' => resolve rooted ups names' els'
        | [] => resolve rooted (if rooted then ups else S ups) [] els'
        end
      else resolve rooted ups (e :: names) els'
  end.

(** The elements put together again, with slashes between them. *)
Definition join_slash (els : list (list ascii)) : list ascii :=
  match els with
  | [] => []
  | e :: es => e ++ flat_map (fun x => slash :: x) es
  end.

Definition is_rooted (p : list ascii) : bool :=
  bool_decide (head p = Some slash).

Definition normalize (p : list ascii) : list ascii :=
  let els := resolve (is_rooted p) 0 [] (elements p) in
  if is_rooted p then slash :: join_slash els
  else if bool_decide (els = []) then [dot]
  else join_slash els.

(** The slash-join of a root and a path, normalised; an empty root adds
    nothing to the path. *)
Definition normalized_join (root p : string) : string :=
  gostring (normalize (if String.eqb root "" then bytes p
                       else bytes root ++ slash :: bytes p)).

End path_spec.

(** *** The output buffer of [Clean] as a byte sequence *)

(** The bytes written to a buffer so far. *)
Definition content (b : path.lazybuf) : list ascii :=
  take (path.w b) (match path.buf b with
                   | None => path.s b
                   | Some bf => bf
                   end).

(** A buffer for a path of [n] bytes. *)
Definition buffer_for (n : nat) (b : path.lazybuf) : Prop :=
  length (path.s b) = n /\ path.w b <= n
  /\ match path.buf b with
     | None => True
     | Some bf => length bf = n
     end.

(** What the buffer holds for the elements [els] kept so far. *)
Definition render (rooted : bool) (els : list (list ascii)) : list ascii :=
  (if rooted then [slash] else []) ++ path_spec.join_slash els.

(** What follows a path element: nothing, or a slash. *)
Definition element_end (l : list ascii) : Prop :=
  l = [] \/ exists rest, l = slash :: rest.

Definition tail_elements (l : list ascii) : list (list ascii) :=
  match l with
  | [] => []
  | _ :: rest => path_spec.elements rest
  end.

(** The four cases of [Clean]'s switch, told from what is left to read. *)
Inductive shape : list ascii -> Prop :=
| shape_slash l : shape (slash :: l)
| shape_dot l : element_end l -> shape (dot :: l)
| shape_dotdot l : element_end l -> shape (dot :: dot :: l)
| shape_name e l :
    e <> [] -> slash ∉ e -> e <> [dot] -> e <> [dot; dot] -> element_end l ->
    shape (e ++ l).

Definition separator (els : list (list ascii)) : list ascii :=
  if bool_decide (els = []) then [] else [slash].

(** The state of [Clean]'s loop on path [p], when [ups] times [..] and
    the names [names] (last first) are kept of what was read. *)
Record cleaning (p : list ascii) (rooted : bool) (st : path.cursor)
    (ups : nat) (names : list (list ascii)) : Prop := {
  cl_r : path.r st <= length p;
  cl_buf : buffer_for (length p) (path.out st);
  cl_content :
    content (path.out st) = render rooted (replicate ups [dot; dot] ++ rev names);
  cl_dotdot :
    path.dotdot st = length (render rooted (replicate ups [dot; dot]));
  cl_rooted : rooted = true -> ups = 0;
  cl_names : Forall (fun e => e <> [] /\ slash ∉ e) names;
  cl_w : path.w (path.out st) <= path.r st;
  cl_room :
    forall c, p !! path.r st = Some c -> c <> slash ->
              path.w (path.out st) < path.r st \/ (names = [] /\ ups = 0)
}.

(** A raw import path begins with a relative-path marker when its first
    element is [.] or [..]. *)
Definition relative_marker (p : string) : bool :=
  String.eqb p "." || String.eqb p ".."
  || strings.HasPrefix p "./" || strings.HasPrefix p "../".

(** ** A small package to run the parser on

    Module [example.com/app] with two files that parse, one with a syntax
    error after its first import, and any other file missing.  Positions
    depend on what the file set already holds. *)

Module fixture.

Definition import_at (base : Z) (off : Z) (lit : string) : ast.ImportSpec :=
  {| ast.Name := None;
     ast.Path := {| ast.ValuePos := base + off;
                    ast.Kind := token.STRING;
                    ast.Value := lit |};
     ast.EndPos := 0 |}.

Definition ParseFile (fs : list string) (name : string)
  : list string * (option ast.File * option string) :=
  let base := Z.of_nat (100 * length fs) in
  (name :: fs,
   if String.eqb name "a.gop" then
     (Some {| ast.Package := base;
              ast.Imports := [import_at base 20 (quoted "fmt");
                              import_at base 27 (quoted "./util")] |}, None)
   else if String.eqb name "b.gop" then
     (Some {| ast.Package := base;
              ast.Imports := [import_at base 20 (quoted "os");
                              import_at base 26 (quoted "fmt")] |}, None)
   else if String.eqb name "bad.gop" then
     (Some {| ast.Package := base;
              ast.Imports := [import_at base 20 (quoted "strings")] |},
      Some "bad.gop:4:2: expected 'STRING', found newline"%string)
   else (None, Some ("open " +:+ name +:+ ": no such file or directory"))).

Definition parser_of (root : string) : ImportsParser (list string) :=
  {| fset := []; mod_ := {| gopmod.Path := root |}; imports := ∅ |}.

Definition parser0 : ImportsParser (list string) := parser_of "example.com/app".

End fixture.


(** * Further definitions *)

(** ** Names in a path *)

(** A name: a path element that is neither empty, nor [.], nor [..]. *)
Definition is_name (e : list ascii) : Prop :=
  e <> [] /\ slash ∉ e /\ e <> [dot] /\ e <> [dot; dot].

(** [names_of s ns]: the string [s] is the names [ns], one at least,
    with slashes between them. *)
Definition names_of (s : string) (ns : list (list ascii)) : Prop :=
  ns <> [] /\ Forall is_name ns /\ bytes s = path_spec.join_slash ns.

(** A root path is neutral when it is not rooted and its normal form holds
    as many [..] elements as names: the empty path, [.], [a/..], [../a].
    Joined in front of a path that climbs at least as far as the root
    path descends, it leaves that path as it is. *)
Definition neutral (root : string) : bool :=
  let r := bytes root in
  let els := path_spec.resolve (path_spec.is_rooted r) 0 [] (path_spec.elements r) in
  negb (path_spec.is_rooted r)
  && (length (filter (fun e => e = [dot; dot]) els)
      =? length (filter (fun e => e <> [dot; dot]) els)).

(** The import declaration of a path literal. *)
Definition import_of (lit : list ascii) : ast.ImportSpec :=
  {| ast.Name := None; ast.Path := string_token 0 lit; ast.EndPos := 0 |}.

(** * qfmt: the formatting command (cmd/qfmt/qfmt.go)

    A shallow embedding of [isGopFile], [report], [visitFile],
    [backupFile], [processFile] and [qfmtMain].  The functions of the
    command act on the file system and on the standard streams: a function
    is embedded as the program of the calls it makes, each call answered
    by the operating system; the package variables [write] and [exitCode]
    are threaded through. *)

Module os.

(** What the command reads of an [os.FileInfo]. *)
Record FileInfo : Type := { Name : string; IsDir : bool; Mode : Z }.

(** [FileMode.Perm]: [m & ModePerm], where [ModePerm] is [0777]. *)
Definition Perm (m : Z) : Z := Z.land m 511.

End os.

Module qfmt.

(** [strings.HasSuffix(s, suffix)] is
    [len(s) >= len(suffix) && s[len(s)-len(suffix):] == suffix]. *)
Definition HasSuffix (s suffix : string) : bool :=
  (String.length suffix <=? String.length s)
  && bool_decide (drop (String.length s - String.length suffix) (bytes s)
                  = bytes suffix).

Definition isGopFile (f : os.FileInfo) : bool :=
  let name := os.Name f in
  negb (os.IsDir f) && negb (strings.HasPrefix name ".")
  && HasSuffix name ".gop".

(** The package variables: the flag [-w] and the exit code. *)
Record globals : Type := { write : bool; exitCode : Z }.

Definition set_exitCode (code : Z) (g : globals) : globals :=
  {| write := write g; exitCode := code |}.

(** Open files ([*os.File]), readers, writers and Go's [error] values are
    kept abstract, and with them [f.Name()], the reader that an open file
    is, [os.Stdin] and [os.Stdout], the functions [format.Source],
    [filepath.Dir], [filepath.Base] and [os.IsNotExist], and the constant
    [chmodSupported] ([runtime.GOOS != "windows"]). *)
Class Platform : Type := {
  File : Type;
  Reader : Type;
  Writer : Type;
  error : Type;
  FileName : File -> string;
  file_reader : File -> Reader;
  Stdin : Reader;
  Stdout : Writer;
  Source : list ascii -> list ascii + error;
  Dir : string -> string;
  Base : string -> string;
  IsNotExist : error -> bool;
  chmodSupported : bool
}.

Section Commands.

Context {platform : Platform}.

(** The calls to the operating system, each with the type of its result:
    for a Go result [(v, err)] of which the code reads [v] only when
    [err] is [nil], the value or the error; for a result [err], the error
    if there is one. *)
Inductive call : Type -> Type :=
| Open (name : string) : call (File + error)
| FileStat (f : File) : call (os.FileInfo + error)
| FileClose (f : File) : call (option error)
| FileChmod (f : File) (perm : Z) : call (option error)
| FileWrite (f : File) (data : list ascii) : call (option error)
| ReadAll (r : Reader) : call (list ascii + error)
| TempFile (dir pattern : string) : call (File + error)
| WriteFile (name : string) (data : list ascii) (perm : Z) : call (option error)
| Rename (oldpath newpath : string) : call (option error)
| Remove (name : string) : call (option error)
| Stat (name : string) : call (os.FileInfo + error)
| WriterWrite (w : Writer) (data : list ascii) : call (option error)
| PrintError (err : error) : call unit
| Fprintln (msg : string) : call unit.

(** A function of the command: it returns, panics, or makes a call and
    goes on with the answer. *)
Inductive prog (A : Type) : Type :=
| Ret (a : A)
| Panic (v : string)
| Do (X : Type) (c : call X) (k : X -> prog A).

Arguments Ret {A} a.
Arguments Panic {A} v.
Arguments Do {A X} c k.

Fixpoint bind {A B} (p : prog A) (k : A -> prog B) : prog B :=
  match p with
  | Ret a => k a
  | Panic v => Panic v
  | Do c h => Do c (fun x => bind (h x) k)
  end.

Definition perform {X} (c : call X) : prog X := Do c Ret.

Notation "'let!' x := m 'in' k" := (bind m (fun x => k))
  (at level 10, x pattern, m at level 100, k at level 200, only parsing).

Definition report (err : error) (g : globals) : prog globals :=
  let! _ := perform (PrintError err) in
  Ret (set_exitCode 2 g).

Definition backupFile (filename : string) (data : list ascii) (perm : Z)
  : prog (string * option error) :=
  let! created := perform (TempFile (Dir filename) (Base filename)) in
  match created with
  | inr err => Ret (EmptyString, Some err)
  | inl f =>
      let backupName := FileName f in
      let after_chmod (k : prog (string * option error)) :=
        if chmodSupported then
          let! err := perform (FileChmod f perm) in
          match err with
          | Some e =>
              let! _ := perform (FileClose f) in
              let! _ := perform (Remove backupName) in
              Ret (backupName, Some e)
          | None => k
          end
        else k in
      after_chmod (
        let! err := perform (FileWrite f data) in
        let! err1 := perform (FileClose f) in
        Ret (backupName, match err with None => err1 | Some _ => err end))
  end.

(** [processFile] from [src, err := ioutil.ReadAll(in)] on, with the
    reader and the permissions that the lines before have set. *)
Definition format_from (filename : string) (in_ : Reader) (perm : Z)
    (out : Writer) (g : globals) : prog (option error * globals) :=
  let! read := perform (ReadAll in_) in
  match read with
  | inr err => Ret (Some err, g)
  | inl src =>
      match Source src with
      | inr err => Ret (Some err, g)
      | inl res =>
          let print (g : globals) : prog (option error * globals) :=
            if negb (write g) then
              let! err := perform (WriterWrite out res) in Ret (err, g)
            else Ret (None, g) in
          if write g && negb (bool_decide (src = res)) then
            let g := set_exitCode 1 g in
            let! backup := backupFile (filename +:+ ".") src perm in
            match snd backup with
            | Some err => Ret (Some err, g)
            | None =>
                let backupName := fst backup in
                let! err := perform (WriteFile filename res perm) in
                match err with
                | Some e =>
                    let! _ := perform (Rename backupName filename) in
                    Ret (Some e, g)
                | None =>
                    let! err := perform (Remove backupName) in
                    match err with
                    | Some e => Ret (Some e, g)
                    | None => print g
                    end
                end
            end
          else print g
      end
  end.

(** [in] is [None] for a [nil] reader; the deferred [f.Close()] runs
    after the rest of the function, whatever it returns. *)
Definition processFile (filename : string) (in_ : option Reader) (out : Writer)
    (stdin : bool) (g : globals) : prog (option error * globals) :=
  match in_ with
  | None =>
      let! opened := perform (Open filename) in
      match opened with
      | inr err => Ret (Some err, g)
      | inl f =>
          let! result :=
            (let! info := perform (FileStat f) in
             match info with
             | inr err => Ret (Some err, g)
             | inl fi =>
                 format_from filename (file_reader f) (os.Perm (os.Mode fi)) out g
             end) in
          let! _ := perform (FileClose f) in
          Ret result
      end
  | Some r => format_from filename r 420 out g
  end.

(** [f] is [None] for a [nil] [os.FileInfo], on which [f.Name()]
    panics. *)
Definition visitFile (path : string) (f : option os.FileInfo)
    (err : option error) (g : globals) : prog (option error * globals) :=
  let! processed :=
    match err with
    | None =>
        match f with
        | None => Panic nil_dereference
        | Some fi =>
            if isGopFile fi then processFile path None Stdout false g
            else Ret (None, g)
        end
    | Some e => Ret (Some e, g)
    end in
  let! g :=
    match fst processed with
    | Some e =>
        if negb (IsNotExist e) then report e (snd processed)
        else Ret (snd processed)
    | None => Ret (snd processed)
    end in
  Ret (None, g).

(** [walkDir(path)] is [filepath.Walk(path, visitFile)]; the walk is kept
    abstract. *)
Variable walkDir : string -> globals -> prog globals.

(** [processFile] followed by [if err != nil { report(err) }]. *)
Definition process_and_report (filename : string) (in_ : option Reader)
    (stdin : bool) (g : globals) : prog globals :=
  let! processed := processFile filename in_ Stdout stdin g in
  match fst processed with
  | Some e => report e (snd processed)
  | None => Ret (snd processed)
  end.

(** [for i := 0; i < narg; i++ { path := flag.Arg(i); ... }] *)
Fixpoint range_args (args : list string) (g : globals) : prog globals :=
  match args with
  | [] => Ret g
  | path :: rest =>
      let! stat := perform (Stat path) in
      let! g :=
        match stat with
        | inr err => report err g
        | inl dir =>
            if os.IsDir dir then walkDir path g
            else process_and_report path None false g
        end in
      range_args rest g
  end.

(** [args] are the arguments that [flag.Parse] leaves, [write g] the
    value it gives the flag [-w]. *)
Definition qfmtMain (args : list string) (g : globals) : prog globals :=
  match args with
  | [] =>
      if write g then
        let! _ := perform (Fprintln "error: cannot use -w with standard input") in
        Ret (set_exitCode 2 g)
      else process_and_report "<standard input>" (Some Stdin) true g
  | _ :: _ => range_args args g
  end.

(** ** Runs

    A call and its answer. *)
Inductive event : Type :=
| Event (X : Type) (c : call X) (x : X).

Arguments Event {X} c x.

(** [exec p tr r]: the program [p] can make the calls of [tr], get the
    answers recorded there, and end with [r]. *)
Fixpoint exec {A} (p : prog A) (tr : list event) (r : outcome A) : Prop :=
  match p with
  | Ret a => tr = [] /\ r = Returned a
  | Panic v => tr = [] /\ r = Panicked v
  | Do c k => exists x tr', tr = Event c x :: tr' /\ exec (k x) tr' r
  end.

(** The answers of the operating system as a function of the calls made
    so far, and the run of a program against it. *)
Definition system : Type := forall X, list event -> call X -> X.

Fixpoint run {A} (sys : system) (past : list event) (p : prog A)
  : outcome A * list event :=
  match p with
  | Ret a => (Returned a, [])
  | Panic v => (Panicked v, [])
  | Do c k =>
      let x := sys _ past c in
      let (r, tr) := run sys (past ++ [Event c x]) (k x) in
      (r, Event c x :: tr)
  end.

(** Calls that change the file system. *)
Definition changes_files (e : event) : bool :=
  match e with
  | Event (TempFile _ _) _ | Event (FileChmod _ _) _ | Event (FileWrite _ _) _
  | Event (WriteFile _ _ _) _ | Event (Rename _ _) _ | Event (Remove _) _ => true
  | _ => false
  end.

(** The files that the calls of a run have opened, and those they have
    closed. *)
Definition opened_by (e : event) : list File :=
  match e with
  | Event c x =>
      match c in call X return X -> list File with
      | Open _ | TempFile _ _ =>
          fun x => match x with inl f => [f] | inr _ => [] end
      | _ => fun _ => []
      end x
  end.

Definition closed_by (e : event) : list File :=
  match e with
  | Event (FileClose f) _ => [f]
  | _ => []
  end.

Definition opened (tr : list event) : list File := flat_map opened_by tr.
Definition closed (tr : list event) : list File := flat_map closed_by tr.

(** What a run has written to writers. *)
Definition written_by (e : event) : list (Writer * list ascii) :=
  match e with
  | Event (WriterWrite w data) _ => [(w, data)]
  | _ => []
  end.

Definition written (tr : list event) : list (Writer * list ascii) :=
  flat_map written_by tr.

(** What a run has read from readers without error, the errors it has
    printed, and the paths it has examined with [os.Stat]. *)
Definition read_by (e : event) : list (list ascii) :=
  match e with
  | Event c x =>
      match c in call X return X -> list (list ascii) with
      | ReadAll _ => fun x => match x with inl src => [src] | inr _ => [] end
      | _ => fun _ => []
      end x
  end.

Definition reported_by (e : event) : list error :=
  match e with
  | Event (PrintError err) _ => [err]
  | _ => []
  end.

Definition examined_by (e : event) : list string :=
  match e with
  | Event (Stat name) _ => [name]
  | _ => []
  end.

Definition read (tr : list event) : list (list ascii) := flat_map read_by tr.
Definition reported (tr : list event) : list error := flat_map reported_by tr.
Definition examined (tr : list event) : list string := flat_map examined_by tr.

(** The call [ioutil.WriteFile(name, data, perm)] with its answer. *)
Definition overwrite_of (e : event)
  : option (string * list ascii * Z * option error) :=
  match e with
  | Event c x =>
      match c in call X return X -> option (string * list ascii * Z * option error)
      with
      | WriteFile name data perm => fun x => Some (name, data, perm, x)
      | _ => fun _ => None
      end x
  end.

End Commands.

Arguments Ret {platform A} a.
Arguments Panic {platform A} v.
Arguments Do {platform A X} c k.
Arguments Event {platform X} c x.

End qfmt.

(** A platform and an operating system for examples: every call succeeds,
    except that [ioutil.WriteFile] fails when [disk_full] is set; the file
    read holds a line that ends in a carriage return, which formatting
    removes. *)
Module qfmt_fixture.

#[export] Instance platform : qfmt.Platform := {|
  qfmt.File := nat;
  qfmt.Reader := nat;
  qfmt.Writer := nat;
  qfmt.error := string;
  qfmt.FileName := fun f => "/src/a.gop.123";
  qfmt.file_reader := fun f => f;
  qfmt.Stdin := 0;
  qfmt.Stdout := 1;
  qfmt.Source := fun src => inl (filter (fun c => c <> creturn) src);
  qfmt.Dir := fun _ => "/src";
  qfmt.Base := fun _ => "a.gop.";
  qfmt.IsNotExist := fun _ => false;
  qfmt.chmodSupported := true
|}.

Definition info : os.FileInfo :=
  {| os.Name := "a.gop"; os.IsDir := false; os.Mode := 420 |}.

Definition content : list ascii := bytes "package main" ++ [creturn; newline].

Definition system (disk_full : bool) : qfmt.system :=
  fun X past c =>
    match c in qfmt.call X return X with
    | qfmt.Open _ => inl 3
    | qfmt.FileStat _ => inl info
    | qfmt.FileClose _ => None
    | qfmt.FileChmod _ _ => None
    | qfmt.FileWrite _ _ => None
    | qfmt.ReadAll _ => inl content
    | qfmt.TempFile _ _ => inl 4
    | qfmt.WriteFile _ _ _ => if disk_full then Some "no space left on device" else None
    | qfmt.Rename _ _ => None
    | qfmt.Remove _ => None
    | qfmt.Stat _ => inl info
    | qfmt.WriterWrite _ _ => None
    | qfmt.PrintError _ => tt
    | qfmt.Fprintln _ => tt
    end%string.

Definition walkDir (path : string) (g : qfmt.globals) : qfmt.prog qfmt.globals :=
  qfmt.Ret g.

Definition with_w : qfmt.globals := {| qfmt.write := true; qfmt.exitCode := 0 |}.
Definition without_w : qfmt.globals := {| qfmt.write := false; qfmt.exitCode := 0 |}.

(** The run of [processFile] on [/src/a.gop] under the flags [g]. *)
Definition process (disk_full : bool) (g : qfmt.globals)
  : outcome (option string * qfmt.globals) * list qfmt.event :=
  qfmt.run (system disk_full) [] (qfmt.processFile "/src/a.gop" None 1 false g).

(** The overwrite of [/src/a.gop] in that run. *)
Definition overwrite (disk_full : bool) : qfmt.event :=
  qfmt.Event (qfmt.WriteFile "/src/a.gop" (bytes "package main" ++ [newline]) 420)
    (if disk_full then Some "no space left on device"%string else None).

End qfmt_fixture.

(** * Properties *)

(** ** The library functions on concrete inputs *)

Example Clean_ex1 : path.Clean (bytes "a//b/./c/../d/") = Returned (bytes "a/b/d").
Proof. vm_compute. reflexivity. Qed.

Example Clean_ex2 : path.Clean (bytes "../../a/../../b") = Returned (bytes "../../../b").
Proof. vm_compute. reflexivity. Qed.

Example Clean_ex3 : path.Clean (bytes "/../a/b/../..") = Returned (bytes "/").
Proof. vm_compute. reflexivity. Qed.

Example Clean_ex4 : path.Clean (bytes "abc/def/../../..") = Returned (bytes "..").
Proof. vm_compute. reflexivity. Qed.

Example Clean_ex5 : path.Clean (bytes "a/..") = Returned (bytes ".").
Proof. vm_compute. reflexivity. Qed.

Example normalize_ex1 :
  path_spec.normalize (bytes "a//b/./c/../d/") = bytes "a/b/d".
Proof. vm_compute. reflexivity. Qed.

Example normalize_ex2 :
  path_spec.normalize (bytes "/../a/b/../..") = bytes "/".
Proof. vm_compute. reflexivity. Qed.

Example normalized_join_ex :
  path_spec.normalized_join "example.com/proj/pkg" "../sibling"
  = "example.com/proj/sibling".
Proof. vm_compute. reflexivity. Qed.

Example Unquote_plain :
  strconv.Unquote (quoted "fmt") = Returned ("fmt", None).
Proof. vm_compute. reflexivity. Qed.

Example Unquote_escapes :
  strconv.Unquote (quoted ("a\" +:+ String dquote "b\n\x41\101é\U0001F600"))
  = Returned (gostring (bytes "a" ++ [dquote] ++ bytes "b" ++ [newline]
                        ++ bytes "AA" ++ ["195"; "169"; "240"; "159"; "152"; "128"]%char),
              None).
Proof. vm_compute. reflexivity. Qed.

Example Unquote_raw :
  strconv.Unquote "`a\n`" = Returned ("a\n", None).
Proof. vm_compute. reflexivity. Qed.

Example Unquote_bad_escape :
  strconv.Unquote (quoted "a\q") = Returned ("", Some strconv.ErrSyntax).
Proof. vm_compute. reflexivity. Qed.

Example Unquote_surrogate :
  strconv.Unquote (quoted "\ud800") = Returned ("", Some strconv.ErrSyntax).
Proof. vm_compute. reflexivity. Qed.

Example Unquote_unterminated :
  strconv.Unquote (String dquote "abc") = Returned ("", Some strconv.ErrSyntax).
Proof. vm_compute. reflexivity. Qed.

Example Unquote_char :
  strconv.Unquote "'a'" = Returned ("a", None).
Proof. vm_compute. reflexivity. Qed.

Example Unquote_two_chars :
  strconv.Unquote "'ab'" = Returned ("", Some strconv.ErrSyntax).
Proof. vm_compute. reflexivity. Qed.


Lemma eqb_false_of_ne c1 c2 : c1 <> c2 -> Ascii.eqb c1 c2 = false.
Proof. intros H. now apply Ascii.eqb_neq. Qed.

(** ** The output buffer *)

Section Lazybuf.

Variable n : nat.

Lemma content_length b : buffer_for n b -> length (content b) = path.w b.
Proof.
  intros (Hs & Hw & Hb). unfold content. rewrite length_take.
  destruct (path.buf b); lia.
Qed.

Lemma append_content b c :
  buffer_for n b -> path.w b < n ->
  exists b', path.append b c = Returned b'
             /\ buffer_for n b'
             /\ content b' = content b ++ [c]
             /\ path.w b' = S (path.w b).
Proof.
  intros (Hs & Hw & Hb) Hlt. unfold path.append, content.
  destruct (path.buf b) as [bf|] eqn:Ebuf.
  - unfold path.store. destruct (decide (path.w b < length bf)) as [_|Hn]; [|lia].
    eexists. split; [reflexivity|]. cbn [path.s path.buf path.w].
    split; [|split; [|reflexivity]].
    + unfold buffer_for. cbn [path.s path.buf path.w].
      rewrite length_insert. lia.
    + rewrite (take_S_r _ _ c) by (apply list_lookup_insert_eq; lia).
      now rewrite take_insert_ge by lia.
  - destruct (bool_decide (path.w b < length (path.s b))
              && bool_decide (path.s b !! path.w b = Some c)) eqn:Esame.
    + apply andb_true_iff in Esame as [_ Hc]. apply bool_decide_eq_true in Hc.
      eexists. split; [reflexivity|]. cbn [path.s path.buf path.w].
      split; [|split; [|reflexivity]].
      * unfold buffer_for. cbn [path.s path.buf path.w]. lia.
      * now rewrite (take_S_r _ _ c) by exact Hc.
    + unfold slice_to. destruct (decide (path.w b <= length (path.s b))); [|lia].
      cbn [obind]. unfold path.store.
      assert (Hlen : length (take (path.w b) (path.s b)
                             ++ replicate (length (path.s b) - path.w b) zero) = n).
      { rewrite length_app, length_take, length_replicate. lia. }
      destruct (decide (path.w b < _)) as [_|Hn]; [|lia].
      eexists. split; [reflexivity|]. cbn [path.s path.buf path.w].
      split; [|split; [|reflexivity]].
      * unfold buffer_for. cbn [path.s path.buf path.w].
        rewrite length_insert. lia.
      * rewrite (take_S_r _ _ c) by (apply list_lookup_insert_eq; lia).
        rewrite take_insert_ge by lia.
        rewrite take_app_le by (rewrite length_take; lia).
        now rewrite take_take, Nat.min_id.
Qed.

Lemma index_content b i :
  buffer_for n b -> i < path.w b ->
  exists c, path.index b i = Returned c /\ content b !! i = Some c.
Proof.
  intros (Hs & Hw & Hb) Hlt. unfold path.index, content, at_index.
  destruct (path.buf b) as [bf|].
  - destruct (lookup_lt_is_Some_2 bf i) as [c Hc]; [lia|].
    exists c. rewrite Hc. split; [reflexivity|]. now rewrite lookup_take_lt by lia.
  - destruct (lookup_lt_is_Some_2 (path.s b) i) as [c Hc]; [lia|].
    exists c. rewrite Hc. split; [reflexivity|]. now rewrite lookup_take_lt by lia.
Qed.

Lemma to_string_content b :
  buffer_for n b -> path.to_string b = Returned (content b).
Proof.
  intros (Hs & Hw & Hb). unfold path.to_string, content, slice_to.
  destruct (path.buf b) as [bf|].
  - destruct (decide (path.w b <= length bf)); [reflexivity|lia].
  - destruct (decide (path.w b <= length (path.s b))); [reflexivity|lia].
Qed.

Lemma set_w_content b m :
  buffer_for n b -> m <= path.w b ->
  buffer_for n (path.set_w b m)
  /\ content (path.set_w b m) = take m (content b)
  /\ path.w (path.set_w b m) = m.
Proof.
  intros (Hs & Hw & Hb) Hm. unfold path.set_w, content, buffer_for.
  cbn [path.s path.buf path.w].
  repeat split; try lia; try exact Hb.
  rewrite take_take. f_equal. lia.
Qed.

Lemma backtrack_down b dotdot m :
  buffer_for n b -> dotdot <= m ->
  (dotdot < m -> content b !! m = Some slash) ->
  forall w0,
    m <= w0 < path.w b ->
    (forall i, m < i <= w0 -> exists c, content b !! i = Some c /\ c <> slash) ->
    path.backtrack b dotdot w0 = Returned (path.set_w b m).
Proof.
  intros Hwf Hdd Hslash. induction w0 as [|w1 IH]; intros Hw0 Hnames.
  - assert (m = 0) as -> by lia. assert (dotdot = 0) as -> by lia.
    reflexivity.
  - cbn [path.backtrack].
    destruct (decide (dotdot < S w1)) as [Hlt|Hge].
    + destruct (index_content b (S w1) Hwf ltac:(lia)) as (c & -> & Hc).
      cbn [obind].
      destruct (decide (m = S w1)) as [->|Hne].
      * rewrite (Hslash Hlt) in Hc. injection Hc as <-.
        now rewrite Ascii.eqb_refl.
      * destruct (Hnames (S w1) ltac:(lia)) as (c' & Hc' & Hns).
        rewrite Hc in Hc'. injection Hc' as <-.
        rewrite (eqb_false_of_ne c slash Hns).
        apply IH; [lia|]. intros i Hi. apply Hnames. lia.
    + assert (m = S w1) as -> by lia. reflexivity.
Qed.

End Lazybuf.

(** ** Path elements *)

Lemma elements_slash l :
  path_spec.elements (slash :: l) = [] :: path_spec.elements l.
Proof. reflexivity. Qed.

Lemma elements_element e l :
  slash ∉ e -> element_end l ->
  path_spec.elements (e ++ l) = e :: tail_elements l.
Proof.
  intros He Hl. induction e as [|c e IH].
  - destruct Hl as [->|[rest ->]]; reflexivity.
  - apply not_elem_of_cons in He as [Hc He]. cbn [app path_spec.elements].
    rewrite (eqb_false_of_ne c slash) by congruence.
    now rewrite (IH He).
Qed.

Lemma resolve_element_end rooted ups names l :
  element_end l ->
  path_spec.resolve rooted ups names (path_spec.elements l)
  = path_spec.resolve rooted ups names (tail_elements l).
Proof. intros [->|[rest ->]]; reflexivity. Qed.

Lemma split_element l :
  exists e l', l = e ++ l' /\ (slash ∉ e) /\ element_end l'.
Proof.
  induction l as [|c l (e & l' & -> & He & Hl)].
  - exists [], []. repeat split; [apply not_elem_of_nil|now left].
  - destruct (decide (c = slash)) as [->|Hc].
    + exists [], (slash :: e ++ l').
      repeat split; [apply not_elem_of_nil|right; eauto].
    + exists (c :: e), l'. repeat split; [|exact Hl].
      apply not_elem_of_cons. split; [congruence|exact He].
Qed.

Lemma classify l : l <> [] -> shape l.
Proof.
  intros Hne. destruct (split_element l) as (e & l' & -> & He & Hl).
  destruct e as [|c e].
  - destruct Hl as [->|[rest ->]]; [now simpl in Hne|]. apply shape_slash.
  - destruct (decide (c :: e = [dot])) as [[= -> ->]|Hd1]; [now apply shape_dot|].
    destruct (decide (c :: e = [dot; dot])) as [[= -> ->]|Hd2];
      [now apply shape_dotdot|].
    now apply shape_name.
Qed.

(** ** Joining elements *)

Lemma join_slash_snoc els e :
  path_spec.join_slash (els ++ [e])
  = path_spec.join_slash els ++ separator els ++ e.
Proof.
  destruct els as [|e0 els]; [simpl; now rewrite app_nil_r|].
  unfold separator. rewrite bool_decide_eq_false_2 by discriminate.
  cbn [app path_spec.join_slash]. rewrite flat_map_app. simpl.
  now rewrite app_nil_r, <- app_assoc.
Qed.

Lemma render_snoc rooted els e :
  render rooted (els ++ [e]) = render rooted els ++ separator els ++ e.
Proof. unfold render. now rewrite join_slash_snoc, <- app_assoc. Qed.

Lemma join_slash_nil els :
  Forall (fun e => e <> []) els ->
  path_spec.join_slash els = [] -> els = [].
Proof.
  intros Hall. destruct els as [|e els]; [reflexivity|].
  inversion_clear Hall as [|? ? He _]. simpl. intros H.
  apply app_eq_nil in H as [H _]. contradiction.
Qed.

Lemma render_length rooted els :
  length (render rooted els)
  = (if rooted then 1 else 0) + length (path_spec.join_slash els).
Proof. unfold render. rewrite length_app. now destruct rooted. Qed.

Lemma render_app_length rooted els1 els2 :
  length (render rooted els1) <= length (render rooted (els1 ++ els2)).
Proof.
  induction els2 as [|e els2 IH] using rev_ind.
  - now rewrite app_nil_r.
  - rewrite app_assoc, render_snoc, !length_app. lia.
Qed.

Lemma render_app_longer rooted els1 els2 :
  Forall (fun e => e <> []) els2 -> els2 <> [] ->
  length (render rooted els1) < length (render rooted (els1 ++ els2)).
Proof.
  intros Hall Hne. destruct els2 as [|e els2 _] using rev_ind; [congruence|].
  apply Forall_app in Hall as [_ He]. inversion_clear He as [|? ? He' _].
  rewrite app_assoc, render_snoc, !length_app.
  pose proof (render_app_length rooted els1 els2).
  destruct e; [congruence|]. simpl. lia.
Qed.

(** ** One iteration of [Clean]'s loop *)

Lemma lookup_head_drop (p : list ascii) k : p !! k = head (drop k p).
Proof.
  rewrite <- (Nat.add_0_r k) at 1. rewrite <- lookup_drop.
  now destruct (drop k p).
Qed.

Lemma at_index_drop (p : list ascii) k c l :
  drop k p = c :: l -> at_index p k = Returned c.
Proof. intros H. unfold at_index. now rewrite lookup_head_drop, H. Qed.

Lemma drop_lt_length (p : list ascii) k c l : drop k p = c :: l -> k < length p.
Proof.
  intros H. destruct (Nat.lt_ge_cases k (length p)) as [Hlt|Hge]; [exact Hlt|].
  rewrite drop_ge in H by exact Hge. discriminate.
Qed.

Lemma at_element_end_true (p : list ascii) k :
  k <= length p -> element_end (drop k p) ->
  path.at_element_end p (length p) k = Returned true.
Proof.
  intros Hk Hend. unfold path.at_element_end.
  destruct (decide (k = length p)) as [_|Hne]; [reflexivity|].
  destruct Hend as [Hnil|[rest Hrest]].
  - apply (f_equal length) in Hnil. rewrite length_drop in Hnil. simpl in Hnil. lia.
  - rewrite (at_index_drop _ _ _ _ Hrest). reflexivity.
Qed.

Lemma at_element_end_false (p : list ascii) k c l :
  drop k p = c :: l -> c <> slash ->
  path.at_element_end p (length p) k = Returned false.
Proof.
  intros Hd Hc. unfold path.at_element_end.
  pose proof (drop_lt_length _ _ _ _ Hd).
  destruct (decide (k = length p)) as [?|_]; [lia|].
  rewrite (at_index_drop _ _ _ _ Hd). cbn [obind].
  now rewrite (eqb_false_of_ne c slash Hc).
Qed.

Lemma drop_S_cons (p : list ascii) k c l :
  drop k p = c :: l -> drop (S k) p = l.
Proof.
  intros H. replace (S k) with (k + 1) by lia.
  rewrite <- drop_drop, H. reflexivity.
Qed.

Lemma element_end_no_room (p : list ascii) k :
  element_end (drop k p) ->
  forall c, p !! k = Some c -> c <> slash -> False.
Proof.
  intros Hend c Hc Hns. rewrite lookup_head_drop in Hc.
  destruct Hend as [Hnil|[rest Hrest]].
  - now rewrite Hnil in Hc.
  - rewrite Hrest in Hc. injection Hc as <-. now apply Hns.
Qed.

Section Step.

Variables (p : list ascii) (rooted : bool).

Lemma step_slash st ups names l :
  cleaning p rooted st ups names ->
  drop (path.r st) p = slash :: l ->
  exists st',
    path.Clean_step p rooted (length p) st = Returned st'
    /\ cleaning p rooted st' ups names
    /\ drop (path.r st') p = l
    /\ path.r st < path.r st'.
Proof.
  intros [] Hd. unfold path.Clean_step.
  rewrite (at_index_drop _ _ _ _ Hd). cbn [obind].
  change (Ascii.eqb slash slash) with true. cbv iota.
  eexists. split; [reflexivity|]. cbn [path.r].
  pose proof (drop_lt_length _ _ _ _ Hd).
  split; [|split; [now apply (drop_S_cons _ _ slash)|lia]].
  constructor; cbn [path.out path.r path.dotdot]; auto; try lia.
Qed.

Lemma step_dot st ups names l :
  cleaning p rooted st ups names ->
  drop (path.r st) p = dot :: l -> element_end l ->
  exists st',
    path.Clean_step p rooted (length p) st = Returned st'
    /\ cleaning p rooted st' ups names
    /\ drop (path.r st') p = l
    /\ path.r st < path.r st'.
Proof.
  intros [] Hd Hend. unfold path.Clean_step.
  rewrite (at_index_drop _ _ _ _ Hd). cbn [obind].
  change (Ascii.eqb dot slash) with false. change (Ascii.eqb dot dot) with true.
  cbv iota.
  pose proof (drop_lt_length _ _ _ _ Hd) as Hlt.
  pose proof (drop_S_cons _ _ _ _ Hd) as Hd1.
  replace (path.r st + 1) with (S (path.r st)) by lia.
  rewrite at_element_end_true by (rewrite ?Hd1; auto; lia). cbn [obind].
  eexists. split; [reflexivity|]. cbn [path.r].
  split; [|split; [exact Hd1|lia]].
  constructor; cbn [path.out path.r path.dotdot]; auto; try lia.
Qed.

End Step.

Lemma copy_element_content n e l o r :
  slash ∉ e -> element_end l ->
  buffer_for n o -> path.w o + length e <= n ->
  exists o',
    path.copy_element (e ++ l) o r = Returned (o', r + length e)
    /\ buffer_for n o'
    /\ content o' = content o ++ e
    /\ path.w o' = path.w o + length e.
Proof.
  intros He Hl. revert o r. induction e as [|c e IH]; intros o r Hbuf Hroom.
  - exists o. cbn [length app]. rewrite !Nat.add_0_r, app_nil_r.
    split; [destruct Hl as [->|[rest ->]]; reflexivity|].
    split; [exact Hbuf|]. split; reflexivity.
  - apply not_elem_of_cons in He as [Hc He]. simpl in Hroom.
    cbn [app path.copy_element].
    rewrite (eqb_false_of_ne c slash) by congruence.
    destruct (append_content n o c Hbuf ltac:(lia)) as (o1 & -> & Hbuf1 & Hc1 & Hw1).
    cbn [obind].
    destruct (IH He o1 (S r) Hbuf1 ltac:(lia)) as (o' & -> & Hbuf' & Hc' & Hw').
    exists o'. cbn [length]. replace (r + S (length e)) with (S r + length e) by lia.
    split; [reflexivity|]. split; [exact Hbuf'|]. split; [|lia].
    rewrite Hc', Hc1, <- app_assoc. reflexivity.
Qed.

Lemma names_elements ups (names : list (list ascii)) :
  Forall (fun e => e <> [] /\ slash ∉ e) names ->
  Forall (fun e => e <> []) (replicate ups [dot; dot] ++ rev names).
Proof.
  intros Hn. apply Forall_app. split.
  - apply Forall_replicate. discriminate.
  - apply Forall_rev. eapply Forall_impl; [exact Hn|]. now intros e [].
Qed.

Lemma render_nil_length rooted els :
  Forall (fun e => e <> []) els ->
  length (render rooted els) = (if rooted then 1 else 0) -> els = [].
Proof.
  intros Hall. rewrite render_length. intros H.
  apply (join_slash_nil els Hall). apply length_zero_iff_nil. lia.
Qed.

Section StepMore.

Variables (p : list ascii) (rooted : bool).

Lemma step_dotdot st ups names l :
  cleaning p rooted st ups names ->
  drop (path.r st) p = dot :: dot :: l -> element_end l ->
  exists st',
    path.Clean_step p rooted (length p) st = Returned st'
    /\ cleaning p rooted st'
         (match names with
          | _ :: _ => ups
          | [] => if rooted then ups else S ups
          end) (tail names)
    /\ drop (path.r st') p = l
    /\ path.r st < path.r st'.
Proof.
  intros [Hr Hbuf Hcont Hdd Hroot Hnames Hw Hroom] Hd Hend.
  pose proof (drop_lt_length _ _ _ _ Hd) as Hlt.
  pose proof (drop_S_cons _ _ _ _ Hd) as Hd1.
  pose proof (drop_lt_length _ _ _ _ Hd1) as Hlt1.
  pose proof (drop_S_cons _ _ _ _ Hd1) as Hd2.
  unfold path.Clean_step.
  rewrite (at_index_drop _ _ _ _ Hd). cbn [obind].
  change (Ascii.eqb dot slash) with false. change (Ascii.eqb dot dot) with true.
  cbv iota.
  replace (path.r st + 1) with (S (path.r st)) by lia.
  replace (path.r st + 2) with (S (S (path.r st))) by lia.
  rewrite (at_element_end_false _ _ _ _ Hd1) by discriminate. cbn [obind].
  rewrite (at_index_drop _ _ _ _ Hd1). cbn [obind].
  change (Ascii.eqb dot dot) with true. cbv iota.
  rewrite at_element_end_true by (rewrite ?Hd2; auto; lia). cbn [obind].
  unfold path.dotdot_element.
  replace (path.r st + 2) with (S (S (path.r st))) by lia.
  pose proof (content_length _ _ Hbuf) as Hlen.
  destruct names as [|top names'].
  - (* no name to remove *)
    cbn [rev] in Hcont. rewrite app_nil_r in Hcont.
    assert (Hweq : path.w (path.out st) = path.dotdot st)
      by (rewrite <- Hlen, Hcont, Hdd; reflexivity).
    destruct (decide (path.dotdot st < path.w (path.out st))) as [?|_]; [lia|].
    destruct rooted eqn:Erooted; cbn [negb].
    + eexists. split; [reflexivity|]. cbn [path.r tail].
      split; [|split; [exact Hd2|lia]].
      constructor; cbn [path.out path.r path.dotdot rev]; auto; try lia.
      now rewrite app_nil_r.
    + assert (Hsep : exists o1,
                 (if decide (0 < path.w (path.out st))
                  then path.append (path.out st) slash
                  else Returned (path.out st)) = Returned o1
                 /\ buffer_for (length p) o1
                 /\ content o1 = content (path.out st)
                                 ++ separator (replicate ups [dot; dot])
                 /\ path.w o1 + 2 <= S (S (path.r st))).
      { destruct (decide (0 < path.w (path.out st))) as [Hpos|Hzero].
        - destruct (append_content _ (path.out st) slash Hbuf ltac:(lia))
            as (o1 & -> & Hb1 & Hc1 & Hw1).
          exists o1. split; [reflexivity|]. split; [exact Hb1|]. split.
          + rewrite Hc1. f_equal. unfold separator.
            rewrite bool_decide_eq_false_2; [reflexivity|].
            intros Hnil. rewrite Hnil in Hdd. simpl in Hdd. lia.
          + destruct (Hroom dot) as [?|[_ ->]];
              [now rewrite lookup_head_drop, Hd|discriminate|lia|].
            simpl in Hdd. lia.
        - exists (path.out st). split; [reflexivity|]. split; [exact Hbuf|].
          split; [|lia].
          assert (Hnil : replicate ups [dot; dot] = [] :> list (list ascii)).
          { apply (render_nil_length false); [apply Forall_replicate; discriminate|].
            lia. }
          rewrite Hnil. unfold separator. rewrite bool_decide_eq_true_2 by reflexivity.
          now rewrite app_nil_r. }
      destruct Hsep as (o1 & -> & Hb1 & Hc1 & Hw1). cbn [obind].
      destruct (append_content _ o1 dot Hb1 ltac:(lia)) as (o2 & -> & Hb2 & Hc2 & Hw2).
      cbn [obind].
      destruct (append_content _ o2 dot Hb2 ltac:(lia)) as (o3 & -> & Hb3 & Hc3 & Hw3).
      cbn [obind].
      assert (Hc' : content o3 = render false (replicate (S ups) [dot; dot])).
      { rewrite Hc3, Hc2, Hc1, Hcont, replicate_S_end, render_snoc.
        now rewrite <- !app_assoc. }
      eexists. split; [reflexivity|]. cbn [path.r tail].
      split; [|split; [exact Hd2|lia]].
      constructor; cbn [path.out path.r path.dotdot rev]; auto; try lia.
      * now rewrite app_nil_r.
      * rewrite <- Hc'. symmetry. now apply (content_length (length p)).
      * intros c Hc Hns. exfalso.
        apply (element_end_no_room p (S (S (path.r st)))) with c;
          [now rewrite Hd2|exact Hc|exact Hns].
  - (* remove the last name *)
    cbn [rev] in Hcont. rewrite app_assoc in Hcont.
    set (els := replicate ups [dot; dot] ++ rev names') in *.
    inversion_clear Hnames as [|? ? [Htop Hns] Hnames'].
    rewrite render_snoc in Hcont.
    set (m := length (render rooted els)).
    assert (Hdm : path.dotdot st <= m).
    { rewrite Hdd. apply render_app_length. }
    assert (Hwm : path.w (path.out st)
                  = m + length (separator els) + length top).
    { rewrite <- Hlen, Hcont, !length_app. unfold m. lia. }
    assert (Htoplen : 0 < length top) by (destruct top; [congruence|simpl; lia]).
    destruct (decide (path.dotdot st < path.w (path.out st))) as [_|?]; [|lia].
    rewrite (backtrack_down (length p) (path.out st) (path.dotdot st) m Hbuf Hdm).
    + cbn [obind].
      destruct (set_w_content (length p) (path.out st) m Hbuf ltac:(lia))
        as (Hb' & Hc' & Hw').
      eexists. split; [reflexivity|]. cbn [path.r tail].
      split; [|split; [exact Hd2|lia]].
      constructor; cbn [path.out path.r path.dotdot]; auto; try lia.
      rewrite Hc', Hcont. fold els. unfold m. now rewrite take_app_length.
    + intros Hlt'. rewrite Hcont. unfold separator.
      destruct (bool_decide (els = [])) eqn:Eels.
      * apply bool_decide_eq_true in Eels. exfalso.
        assert (Hu : replicate ups [dot; dot] = [] :> list (list ascii)).
        { unfold els in Eels. now apply app_eq_nil in Eels as [? _]. }
        rewrite Hu in Hdd. unfold m in Hlt'. rewrite Eels in Hlt'. lia.
      * cbn [app]. apply list_lookup_middle. reflexivity.
    + lia.
    + intros i Hi.
      assert (Hsome : is_Some (content (path.out st) !! i))
        by (apply lookup_lt_is_Some_2; lia).
      destruct Hsome as [c Hc]. exists c. split; [exact Hc|].
      rewrite Hcont in Hc. rewrite lookup_app_r in Hc by (fold m; lia).
      fold m in Hc. intros ->. apply Hns.
      unfold separator in Hc. destruct (bool_decide (els = [])).
      * cbn [app] in Hc. now apply list_elem_of_lookup_2 in Hc.
      * cbn [app] in Hc. destruct (i - m) as [|j] eqn:Ej; [lia|].
        cbn in Hc. now apply list_elem_of_lookup_2 in Hc.
Qed.

End StepMore.

Section StepName.

Variables (p : list ascii) (rooted : bool).

Lemma step_name st ups names e l :
  cleaning p rooted st ups names ->
  drop (path.r st) p = e ++ l ->
  e <> [] -> slash ∉ e -> e <> [dot] -> e <> [dot; dot] -> element_end l ->
  exists st',
    path.Clean_step p rooted (length p) st = Returned st'
    /\ cleaning p rooted st' ups (e :: names)
    /\ drop (path.r st') p = l
    /\ path.r st < path.r st'.
Proof.
  intros [Hr Hbuf Hcont Hdd Hroot Hnames Hw Hroom] Hd Hne Hns Hd1 Hd2 Hend.
  destruct e as [|c e1]; [congruence|]. clear Hne.
  pose proof Hns as Hns'. apply not_elem_of_cons in Hns' as [Hc Hns1].
  assert (Hcs : c <> slash) by congruence.
  cbn [app] in Hd.
  pose proof (drop_lt_length _ _ _ _ Hd) as Hlt.
  pose proof (drop_S_cons _ _ _ _ Hd) as Hdrop1.
  assert (Hlen_e : path.r st + length (c :: e1) <= length p).
  { assert (H := f_equal length Hd). rewrite length_drop in H.
    cbn [length] in *. rewrite length_app in H. lia. }
  unfold path.Clean_step.
  rewrite (at_index_drop _ _ _ _ Hd). cbn [obind].
  rewrite (eqb_false_of_ne c slash Hcs).
  replace (path.r st + 1) with (S (path.r st)) by lia.
  replace (path.r st + 2) with (S (S (path.r st))) by lia.
  assert (Hdot : (if Ascii.eqb c dot
                  then path.at_element_end p (length p) (S (path.r st))
                  else Returned false) = Returned false).
  { destruct (Ascii.eqb_spec c dot) as [->|_]; [|reflexivity].
    destruct e1 as [|c1 e2]; [congruence|].
    apply not_elem_of_cons in Hns1 as [Hc1 _].
    apply (at_element_end_false _ _ c1 (e2 ++ l)); [exact Hdrop1|congruence]. }
  rewrite Hdot. cbn [obind].
  assert (Hdotdot :
    (if Ascii.eqb c dot
     then obind (at_index p (S (path.r st)))
            (fun c1 => if Ascii.eqb c1 dot
                       then path.at_element_end p (length p) (S (S (path.r st)))
                       else Returned false)
     else Returned false) = Returned false).
  { destruct (Ascii.eqb_spec c dot) as [->|_]; [|reflexivity].
    destruct e1 as [|c1 e2]; [congruence|].
    apply not_elem_of_cons in Hns1 as [Hc1 Hns2].
    cbn [app] in Hdrop1. rewrite (at_index_drop _ _ _ _ Hdrop1). cbn [obind].
    destruct (Ascii.eqb_spec c1 dot) as [->|_]; [|reflexivity].
    destruct e2 as [|c2 e3]; [congruence|].
    apply not_elem_of_cons in Hns2 as [Hc2 _].
    apply (at_element_end_false _ _ c2 (e3 ++ l));
      [exact (drop_S_cons _ _ _ _ Hdrop1)|congruence]. }
  rewrite Hdotdot. cbn [obind].
  unfold path.real_element.
  set (els := replicate ups [dot; dot] ++ rev names) in *.
  pose proof (content_length _ _ Hbuf) as Hlen.
  pose proof (names_elements ups names Hnames) as Hels. fold els in Hels.
  assert (Hsep : exists o1,
    (if (rooted && negb (path.w (path.out st) =? 1))
        || (negb rooted && negb (path.w (path.out st) =? 0))
     then path.append (path.out st) slash
     else Returned (path.out st)) = Returned o1
    /\ buffer_for (length p) o1
    /\ content o1 = content (path.out st) ++ separator els
    /\ path.w o1 <= path.r st).
  { rewrite Hcont, render_length in Hlen. unfold separator.
    destruct (decide (els = [])) as [Hnil|Hnn].
    - rewrite Hnil in Hlen. simpl in Hlen.
      rewrite bool_decide_eq_true_2 by exact Hnil.
      exists (path.out st). rewrite app_nil_r.
      split; [|auto].
      rewrite <- Hlen. now destruct rooted.
    - rewrite bool_decide_eq_false_2 by exact Hnn.
      assert (Hpos : 0 < length (path_spec.join_slash els)).
      { destruct (path_spec.join_slash els) eqn:Ej; [|simpl; lia].
        exfalso. apply Hnn. now apply (join_slash_nil els Hels). }
      assert (Hwr : path.w (path.out st) < path.r st).
      { destruct (Hroom c) as [?|[Hn Hu]];
          [now rewrite lookup_head_drop, Hd|exact Hcs|lia|].
        exfalso. apply Hnn. unfold els. now rewrite Hn, Hu. }
      destruct (append_content _ (path.out st) slash Hbuf ltac:(lia))
        as (o1 & Ho1 & Hb1 & Hc1 & Hw1).
      exists o1. split; [|split; [exact Hb1|split; [exact Hc1|lia]]].
      rewrite <- Ho1.
      assert (Hb : (rooted && negb (path.w (path.out st) =? 1))
                   || (negb rooted && negb (path.w (path.out st) =? 0)) = true).
      { destruct rooted; cbn [andb orb negb].
        - rewrite (proj2 (Nat.eqb_neq _ _)) by lia. reflexivity.
        - rewrite (proj2 (Nat.eqb_neq _ _)) by lia. reflexivity. }
      now rewrite Hb. }
  destruct Hsep as (o1 & -> & Hb1 & Hc1 & Hw1). cbn [obind].
  change (c :: e1 ++ l) with ((c :: e1) ++ l) in Hd. rewrite Hd.
  destruct (copy_element_content (length p) (c :: e1) l o1 (path.r st)
              Hns Hend Hb1 ltac:(lia)) as (o2 & -> & Hb2 & Hc2 & Hw2).
  cbn [obind fst snd].
  eexists. split; [reflexivity|]. cbn [path.r].
  assert (Hdrop' : drop (path.r st + length (c :: e1)) p = l).
  { rewrite <- drop_drop, Hd. apply drop_app_length. }
  split; [|split; [exact Hdrop'|cbn [length]; lia]].
  constructor; cbn [path.out path.r path.dotdot]; auto; try lia.
  - rewrite Hc2, Hc1, Hcont. cbn [rev]. rewrite app_assoc. fold els.
    rewrite render_snoc. now rewrite <- !app_assoc.
  - intros c' Hc' Hns'. exfalso.
    apply (element_end_no_room p (path.r st + length (c :: e1))) with c';
      [now rewrite Hdrop'|exact Hc'|exact Hns'].
Qed.

End StepName.

(** ** [Clean] computes the normal form *)

Lemma dot_no_slash : slash ∉ [dot].
Proof. intros H. apply list_elem_of_In in H. simpl in H. intuition discriminate. Qed.

Lemma dotdot_no_slash : slash ∉ [dot; dot].
Proof. intros H. apply list_elem_of_In in H. simpl in H. intuition discriminate. Qed.

Lemma resolve_dot rooted ups names l :
  element_end l ->
  path_spec.resolve rooted ups names (path_spec.elements (dot :: l))
  = path_spec.resolve rooted ups names (path_spec.elements l).
Proof.
  intros Hend. change (dot :: l) with ([dot] ++ l).
  rewrite elements_element; [|exact dot_no_slash|exact Hend].
  now rewrite (resolve_element_end _ _ _ l Hend).
Qed.

Lemma resolve_dotdot rooted ups names l :
  element_end l ->
  path_spec.resolve rooted ups names (path_spec.elements (dot :: dot :: l))
  = path_spec.resolve rooted
      (match names with
       | _ :: _ => ups
       | [] => if rooted then ups else S ups
       end) (tail names) (path_spec.elements l).
Proof.
  intros Hend. change (dot :: dot :: l) with ([dot; dot] ++ l).
  rewrite elements_element; [|exact dotdot_no_slash|exact Hend].
  rewrite (resolve_element_end _ _ _ l Hend).
  destruct names; reflexivity.
Qed.

Lemma resolve_name rooted ups names e l :
  e <> [] -> slash ∉ e -> e <> [dot] -> e <> [dot; dot] -> element_end l ->
  path_spec.resolve rooted ups names (path_spec.elements (e ++ l))
  = path_spec.resolve rooted ups (e :: names) (path_spec.elements l).
Proof.
  intros Hne Hns Hd1 Hd2 Hend.
  rewrite elements_element by assumption.
  rewrite (resolve_element_end _ _ _ l Hend). cbn [path_spec.resolve].
  now rewrite !bool_decide_eq_false_2 by assumption.
Qed.


Lemma Clean_loop_resolve p rooted fuel :
  forall st ups names,
    cleaning p rooted st ups names ->
    length p - path.r st <= fuel ->
    exists st' ups' names',
      path.Clean_loop fuel p rooted (length p) st = Returned st'
      /\ cleaning p rooted st' ups' names'
      /\ replicate ups' [dot; dot] ++ rev names'
         = path_spec.resolve rooted ups names
             (path_spec.elements (drop (path.r st) p)).
Proof.
  induction fuel as [|fuel IH]; intros st ups names Hcl Hfuel.
  - pose proof (cl_r _ _ _ _ _ Hcl) as Hr. cbn [path.Clean_loop].
    destruct (decide (path.r st < length p)) as [?|_]; [lia|].
    exists st, ups, names. split; [reflexivity|]. split; [exact Hcl|].
    now rewrite drop_ge by lia.
  - pose proof (cl_r _ _ _ _ _ Hcl) as Hr. cbn [path.Clean_loop].
    destruct (decide (path.r st < length p)) as [Hlt|Hge].
    2:{ exists st, ups, names. split; [reflexivity|]. split; [exact Hcl|].
        now rewrite drop_ge by lia. }
    remember (drop (path.r st) p) as rest eqn:Hrest. symmetry in Hrest.
    assert (Hne : rest <> []).
    { intros ->. apply (f_equal length) in Hrest.
      rewrite length_drop in Hrest. simpl in Hrest. lia. }
    destruct (classify rest Hne) as [l|l Hend|l Hend|e l He Hns Hd1 Hd2 Hend].
    + destruct (step_slash p rooted st ups names l Hcl Hrest)
        as (st1 & -> & Hcl1 & Hdrop & Hadv).
      cbn [obind].
      destruct (IH st1 ups names Hcl1 ltac:(lia)) as (st' & ups' & names' & -> & Hcl' & Hres).
      exists st', ups', names'. split; [reflexivity|]. split; [exact Hcl'|].
      now rewrite Hres, Hdrop.
    + destruct (step_dot p rooted st ups names l Hcl Hrest Hend)
        as (st1 & -> & Hcl1 & Hdrop & Hadv).
      cbn [obind].
      destruct (IH st1 ups names Hcl1 ltac:(lia)) as (st' & ups' & names' & -> & Hcl' & Hres).
      exists st', ups', names'. split; [reflexivity|]. split; [exact Hcl'|].
      now rewrite Hres, Hdrop, resolve_dot.
    + destruct (step_dotdot p rooted st ups names l Hcl Hrest Hend)
        as (st1 & -> & Hcl1 & Hdrop & Hadv).
      cbn [obind].
      destruct (IH st1 _ _ Hcl1 ltac:(lia)) as (st' & ups' & names' & -> & Hcl' & Hres).
      exists st', ups', names'. split; [reflexivity|]. split; [exact Hcl'|].
      now rewrite Hres, Hdrop, resolve_dotdot.
    + destruct (step_name p rooted st ups names e l Hcl Hrest He Hns Hd1 Hd2 Hend)
        as (st1 & -> & Hcl1 & Hdrop & Hadv).
      cbn [obind].
      destruct (IH st1 _ _ Hcl1 ltac:(lia)) as (st' & ups' & names' & -> & Hcl' & Hres).
      exists st', ups', names'. split; [reflexivity|]. split; [exact Hcl'|].
      now rewrite Hres, Hdrop, resolve_name.
Qed.

(** [path.Clean] returns, for every path, its normal form. *)
Theorem Clean_normalize p : path.Clean p = Returned (path_spec.normalize p).
Proof.
  destruct p as [|c0 p']; [reflexivity|].
  unfold path.Clean. cbv zeta.
  assert (Hpos : 0 < length (c0 :: p')) by (simpl; lia).
  assert (Hrooted : path_spec.is_rooted (c0 :: p') = Ascii.eqb c0 slash).
  { unfold path_spec.is_rooted. cbn [head].
    destruct (Ascii.eqb_spec c0 slash) as [->|Hc0].
    - now apply bool_decide_eq_true_2.
    - apply bool_decide_eq_false_2. congruence. }
  remember (c0 :: p') as p eqn:Hp.
  assert (Hbuf0 : buffer_for (length p) {| path.s := p; path.buf := None; path.w := 0 |}).
  { unfold buffer_for. cbn [path.s path.buf path.w]. repeat split. lia. }
  assert (Hstart : exists st0,
    (if Ascii.eqb c0 slash
     then obind (path.append {| path.s := p; path.buf := None; path.w := 0 |} slash)
            (fun o' => Returned {| path.out := o'; path.r := 1; path.dotdot := 1 |})
     else Returned {| path.out := {| path.s := p; path.buf := None; path.w := 0 |};
                      path.r := 0; path.dotdot := 0 |}) = Returned st0
    /\ cleaning p (Ascii.eqb c0 slash) st0 0 []
    /\ path_spec.resolve (Ascii.eqb c0 slash) 0 []
         (path_spec.elements (drop (path.r st0) p))
       = path_spec.resolve (Ascii.eqb c0 slash) 0 [] (path_spec.elements p)).
  { destruct (Ascii.eqb_spec c0 slash) as [->|Hc0].
    - destruct (append_content (length p) _ slash Hbuf0 ltac:(simpl; lia))
        as (o' & -> & Hb' & Hc' & Hw').
      cbn [obind]. eexists. split; [reflexivity|].
      cbn [path.w] in Hw'. unfold content in Hc' at 2. cbn [path.w take app] in Hc'.
      split; [|cbn [path.r]; rewrite Hp; reflexivity].
      constructor; cbn [path.out path.r path.dotdot]; auto; try (simpl; lia).
    - eexists. split; [reflexivity|]. split; [|reflexivity].
      constructor; cbn [path.out path.r path.dotdot path.w]; auto; try (simpl; lia). }
  destruct Hstart as (st0 & -> & Hcl0 & Hres0). cbn [obind].
  destruct (Clean_loop_resolve p _ (length p) st0 0 [] Hcl0 ltac:(lia))
    as (st & ups & names & -> & Hcl & Hres).
  cbn [obind]. rewrite Hres0 in Hres.
  destruct Hcl as [Hr Hbuf Hcont Hdd Hroot Hnames Hw Hroom].
  pose proof (content_length _ _ Hbuf) as Hlen.
  pose proof (names_elements ups names Hnames) as Hels.
  unfold path_spec.normalize.
  rewrite Hrooted, <- Hres.
  rewrite (to_string_content _ _ Hbuf), Hcont.
  rewrite Hcont, render_length in Hlen.
  destruct (Ascii.eqb c0 slash).
  - destruct (decide (path.w (path.out st) = 0)) as [?|_]; [lia|]. reflexivity.
  - destruct (decide (path.w (path.out st) = 0)) as [Hz|Hnz].
    + rewrite bool_decide_eq_true_2; [reflexivity|].
      apply (join_slash_nil _ Hels). apply length_zero_iff_nil. lia.
    + rewrite bool_decide_eq_false_2; [reflexivity|].
      intros Hnil. rewrite Hnil in Hlen. simpl in Hlen. lia.
Qed.

(** ** Claims on canonicalisation *)

Lemma bytes_length s : length (bytes s) = String.length s.
Proof. induction s as [|c s IH]; simpl; [reflexivity|now rewrite IH]. Qed.

Lemma HasPrefix_dot p :
  strings.HasPrefix p "." = true <-> String.get 0 p = Some dot.
Proof.
  unfold strings.HasPrefix. destruct p as [|c p]; [simpl; split; discriminate|].
  cbn [String.length Nat.leb andb String.get bytes list_ascii_of_string take].
  rewrite bool_decide_eq_true. change (bytes ".") with [dot].
  split; [now intros [= ->]|now intros [= ->]].
Qed.

Lemma HasPrefix_head p c rest :
  strings.HasPrefix p (String c rest) = true -> String.get 0 p = Some c.
Proof.
  unfold strings.HasPrefix. rewrite andb_true_iff, bool_decide_eq_true.
  intros [_ H]. destruct p as [|c' p]; [discriminate H|].
  cbn in H. now injection H as -> _.
Qed.

Lemma relative_marker_leading_dot p :
  relative_marker p = true -> String.get 0 p = Some dot.
Proof.
  unfold relative_marker. rewrite !orb_true_iff.
  intros [[[H|H]|H]|H].
  - apply String.eqb_eq in H. now subst.
  - apply String.eqb_eq in H. now subst.
  - exact (HasPrefix_head _ _ _ H).
  - exact (HasPrefix_head _ _ _ H).
Qed.

Lemma Join_root_path root p :
  p <> ""%string ->
  path.Join [root; p] = Returned (path_spec.normalized_join root p).
Proof.
  intros Hp. unfold path.Join, path_spec.normalized_join.
  assert (Hsize : (sum_list (String.length <$> [root; p]) =? 0) = false).
  { apply Nat.eqb_neq. destruct p; [congruence|]. simpl. lia. }
  rewrite Hsize. cbn [path.Join_buf length Nat.eqb negb orb].
  assert (Hpe : String.eqb p "" = false) by now apply String.eqb_neq.
  destruct (String.eqb_spec root "") as [->|Hroot].
  - cbn [negb app]. rewrite Hpe. cbn [negb length Nat.eqb orb app].
    now rewrite Clean_normalize.
  - cbn [negb app]. rewrite Hpe, orb_true_r.
    assert (Hlen : (length (bytes root) =? 0) = false).
    { apply Nat.eqb_neq. rewrite bytes_length. destruct root; [congruence|]. simpl. lia. }
    rewrite Hlen. cbn [negb]. rewrite Clean_normalize, <- app_assoc. reflexivity.
Qed.

Lemma Join_returns elem : exists r, path.Join elem = Returned r.
Proof.
  unfold path.Join. destruct (_ =? 0); [eauto|].
  rewrite Clean_normalize. cbn [obind]. eauto.
Qed.

Section Canonical.

Context {FileSet : Type}.
Implicit Types (pr : ImportsParser FileSet) (p : string).

Lemma canonicalGo_leading_dot pr p :
  String.get 0 p = Some dot ->
  canonicalGo pr p
  = Returned (path_spec.normalized_join (gopmod.Path (mod_ pr)) p).
Proof.
  intros Hdot. unfold canonicalGo.
  rewrite (proj2 (HasPrefix_dot p) Hdot).
  apply Join_root_path. intros ->. discriminate Hdot.
Qed.

(** C1, as amended: a raw import path whose first byte is not a dot is
    returned as it is, whatever the module. *)
Theorem canonicalGo_no_leading_dot pr p :
  String.get 0 p <> Some dot -> canonicalGo pr p = Returned p.
Proof.
  intros Hdot. unfold canonicalGo.
  destruct (strings.HasPrefix p ".") eqn:E; [|reflexivity].
  now apply HasPrefix_dot in E.
Qed.

(** C2: a raw import path that begins with a relative-path marker is
    canonicalised to the normal form of the module's root path and the
    raw path joined by a slash: empty elements and [.] dropped, [..]
    taking away the name before it. *)
Theorem canonicalGo_relative pr p :
  relative_marker p = true ->
  canonicalGo pr p
  = Returned (path_spec.normalized_join (gopmod.Path (mod_ pr)) p).
Proof. intros H. now apply canonicalGo_leading_dot, relative_marker_leading_dot. Qed.

(** C7: canonicalisation returns a path for every raw import path and
    every module; it does not panic and its loops end. *)
Theorem canonicalGo_total pr p : exists r, canonicalGo pr p = Returned r.
Proof.
  unfold canonicalGo. destruct (strings.HasPrefix p "."); [|eauto].
  apply Join_returns.
Qed.

End Canonical.

Lemma canonicalGo_no_leading_dot_witness :
  canonicalGo (fixture.parser_of "example.com/proj") "fmt" = Returned "fmt".
Proof.
  apply (canonicalGo_no_leading_dot (fixture.parser_of "example.com/proj") "fmt").
  simpl. discriminate.
Defined.

(** C1 as stated fails: [.foo] begins with no [./] or [../] marker, and
    is not returned as it is. *)
Lemma canonicalGo_dot_name_counterexample :
  relative_marker ".foo" = false
  /\ canonicalGo (fixture.parser_of "example.com/proj") ".foo"
     = Returned "example.com/proj/.foo"
  /\ canonicalGo (fixture.parser_of "example.com/proj") ".foo" <> Returned ".foo".
Proof.
  split; [reflexivity|]. split; [vm_compute; reflexivity|].
  vm_compute. discriminate.
Qed.

Lemma canonicalGo_relative_witness :
  canonicalGo (fixture.parser_of "example.com/proj") "./sub"
  = Returned "example.com/proj/sub".
Proof.
  exact (canonicalGo_relative (fixture.parser_of "example.com/proj") "./sub" eq_refl).
Defined.

Example canonicalGo_relative_sibling :
  canonicalGo (fixture.parser_of "example.com/proj/pkg") "../sibling"
  = Returned "example.com/proj/sibling".
Proof. vm_compute. reflexivity. Qed.

Example canonicalGo_above_root :
  canonicalGo (fixture.parser_of "example.com/proj") "../../../../x"
  = Returned "../../x".
Proof. vm_compute. reflexivity. Qed.

Example canonicalGo_three_dots :
  canonicalGo (fixture.parser_of "example.com/proj") "...x"
  = Returned "example.com/proj/...x".
Proof. vm_compute. reflexivity. Qed.

(** ** Bytes, digits and numbers *)

Lemma byteZ_range c : (0 <= byteZ c < 256)%Z.
Proof.
  unfold byteZ. pose proof (N_ascii_bounded c) as H.
  change 256%Z with (Z.of_N 256). lia.
Qed.

Lemma to_byte_byteZ c : to_byte (byteZ c) = c.
Proof.
  unfold to_byte. rewrite Z.mod_small by apply byteZ_range.
  unfold byteZ. rewrite N2Z.id. apply ascii_N_embedding.
Qed.

Lemma byteZ_to_byte x : byteZ (to_byte x) = (x mod 256)%Z.
Proof.
  unfold byteZ, to_byte.
  assert (H : (0 <= x mod 256 < 256)%Z) by (apply Z.mod_pos_bound; lia).
  rewrite N_ascii_embedding by lia. lia.
Qed.

Lemma byteZ_inj c1 c2 : byteZ c1 = byteZ c2 -> c1 = c2.
Proof. intros H. rewrite <- (to_byte_byteZ c1), H. apply to_byte_byteZ. Qed.

Lemma eqb_byteZ c1 c2 : Ascii.eqb c1 c2 = (byteZ c1 =? byteZ c2)%Z.
Proof.
  destruct (Ascii.eqb_spec c1 c2) as [->|Hne].
  - now rewrite Z.eqb_refl.
  - symmetry. apply Z.eqb_neq. intros H. now apply byteZ_inj in H.
Qed.

Lemma lor_shiftl_add a k r :
  (0 <= k -> 0 <= r < 2 ^ k -> Z.lor (Z.shiftl a k) r = a * 2 ^ k + r)%Z.
Proof.
  intros Hk Hr.
  assert (Hland : Z.land (Z.shiftl a k) r = 0%Z).
  { apply Z.bits_inj'. intros n Hn. rewrite Z.land_spec, Z.bits_0.
    destruct (Z.lt_ge_cases n k) as [Hlt|Hge].
    - rewrite Z.shiftl_spec_low by lia. reflexivity.
    - destruct (Z.eq_dec r 0%Z) as [->|Hr0].
      + rewrite Z.bits_0. apply andb_false_r.
      + rewrite (Z.bits_above_log2 r n); [apply andb_false_r|lia|].
        apply Z.log2_lt_pow2; [lia|].
        apply Z.lt_le_trans with (2 ^ k)%Z; [lia|].
        apply Z.pow_le_mono_r; lia. }
  rewrite <- Z.lxor_lor by exact Hland.
  rewrite <- Z.add_nocarry_lxor by exact Hland.
  now rewrite Z.shiftl_mul_pow2.
Qed.

Lemma land_low x k : (0 <= k -> Z.land x (2 ^ k - 1) = x mod 2 ^ k)%Z.
Proof.
  intros Hk. replace (2 ^ k - 1)%Z with (Z.ones k).
  - now apply Z.land_ones.
  - rewrite Z.ones_equiv. lia.
Qed.

Lemma wrap32_small x : (- 2 ^ 31 <= x < 2 ^ 31 -> wrap32 x = x)%Z.
Proof. intros H. unfold wrap32. rewrite Z.mod_small; lia. Qed.

Lemma hex_value_unhex d v :
  escape_spec.hex_value d = Some v ->
  strconv.unhex d = (v, true) /\ (0 <= v < 16)%Z.
Proof.
  destruct d as [[] [] [] [] [] [] [] []]; vm_compute;
    intros H; try discriminate H; injection H as <-; repeat split; discriminate.
Qed.

Lemma octal_value_digit d v :
  escape_spec.octal_value d = Some v ->
  (byteZ d - byteZ "0" = v /\ 0 <= v <= 7)%Z.
Proof.
  destruct d as [[] [] [] [] [] [] [] []]; vm_compute;
    intros H; try discriminate H; injection H as <-; repeat split; discriminate.
Qed.

Lemma number_le base vs a :
  (0 <= a -> 1 <= base -> Forall (fun v => 0 <= v) vs ->
   a <= foldl (fun acc v => acc * base + v) a vs)%Z.
Proof.
  intros Ha Hb Hvs. revert a Ha.
  induction Hvs as [|v vs Hv _ IH]; intros a Ha; simpl; [lia|].
  etrans; [|apply IH; nia]. nia.
Qed.

Lemma hex_values_range hs xs :
  escape_spec.hex_value <$> hs = Some <$> xs ->
  Forall (fun v => 0 <= v < 16)%Z xs.
Proof.
  revert xs. induction hs as [|h hs IH]; intros [|x xs]; simpl;
    try discriminate; [constructor|].
  intros H. injection H as Hh Hrest.
  constructor; [now apply hex_value_unhex in Hh|now apply IH].
Qed.

Lemma hex_digits_number hs xs a :
  escape_spec.hex_value <$> hs = Some <$> xs ->
  (0 <= a)%Z ->
  (foldl (fun acc v => acc * 16 + v) a xs < 2 ^ 31)%Z ->
  strconv.hex_digits hs a = Some (foldl (fun acc v => acc * 16 + v)%Z a xs).
Proof.
  revert xs a. induction hs as [|h hs IH]; intros [|x xs] a; simpl;
    try discriminate; [reflexivity|].
  intros H Ha Hlt. injection H as Hh Hrest.
  pose proof (hex_values_range _ _ Hrest) as Hxs.
  destruct (hex_value_unhex _ _ Hh) as [-> Hx].
  assert (Hle : (a * 16 + x <= foldl (fun acc v => acc * 16 + v) (a * 16 + x) xs)%Z).
  { apply number_le; [lia|lia|]. eapply Forall_impl; [exact Hxs|]. simpl. lia. }
  rewrite (lor_shiftl_add a 4 x) by lia.
  change (2 ^ 4)%Z with 16%Z.
  rewrite wrap32_small by lia.
  apply IH; [exact Hrest|lia|exact Hlt].
Qed.

(** ** UTF-8: decoding what [EncodeRune] wrote *)

Ltac zlia := Z.to_euclidean_division_equations; lia.

Ltac zbool :=
  repeat match goal with
  | |- context [(?a <? ?b)%Z] =>
      (rewrite (proj2 (Z.ltb_lt a b)) by zlia)
      || (rewrite (proj2 (Z.ltb_ge a b)) by zlia)
  | |- context [(?a <=? ?b)%Z] =>
      (rewrite (proj2 (Z.leb_le a b)) by zlia)
      || (rewrite (proj2 (Z.leb_gt a b)) by zlia)
  | |- context [(?a =? ?b)%Z] =>
      (rewrite (proj2 (Z.eqb_eq a b)) by zlia)
      || (rewrite (proj2 (Z.eqb_neq a b)) by zlia)
  end.

Section Utf8.

Local Open Scope Z_scope.

Lemma lor_t2 x : 0 <= x < 64 -> Z.lor utf8.t2 x = 192 + x.
Proof. intros H. exact (lor_shiftl_add 3 6 x ltac:(lia) H). Qed.

Lemma lor_tx x : 0 <= x < 64 -> Z.lor utf8.tx x = 128 + x.
Proof. intros H. exact (lor_shiftl_add 2 6 x ltac:(lia) H). Qed.

Lemma lor_t3 x : 0 <= x < 32 -> Z.lor utf8.t3 x = 224 + x.
Proof. intros H. exact (lor_shiftl_add 7 5 x ltac:(lia) H). Qed.

Lemma lor_t4 x : 0 <= x < 16 -> Z.lor utf8.t4 x = 240 + x.
Proof. intros H. exact (lor_shiftl_add 15 4 x ltac:(lia) H). Qed.

Lemma lor_disjoint x k r :
  0 <= k -> 0 <= r < 2 ^ k -> x mod 2 ^ k = 0 -> Z.lor x r = x + r.
Proof.
  intros Hk Hr Hx.
  assert (Hp : 0 < 2 ^ k) by (apply Z.pow_pos_nonneg; lia).
  assert (Hxa : x = x / 2 ^ k * 2 ^ k).
  { pose proof (Z.div_mod x (2 ^ k)) as Hdm. lia. }
  rewrite Hxa at 1 2. rewrite <- Z.shiftl_mul_pow2 at 1 by lia.
  now apply lor_shiftl_add.
Qed.

Lemma lor2 a b : 0 <= b < 64 -> Z.lor (Z.shiftl a 6) b = a * 64 + b.
Proof. intros. now rewrite lor_shiftl_add by lia. Qed.

Lemma lor3 a b c :
  0 <= b < 64 -> 0 <= c < 64 ->
  Z.lor (Z.lor (Z.shiftl a 12) (Z.shiftl b 6)) c = a * 4096 + b * 64 + c.
Proof.
  intros. rewrite !Z.shiftl_mul_pow2 by lia.
  change (2 ^ 12) with 4096. change (2 ^ 6) with 64.
  rewrite (lor_disjoint (a * 4096) 12) by zlia.
  rewrite (lor_disjoint _ 6) by zlia. reflexivity.
Qed.

Lemma lor4 a b c d :
  0 <= b < 64 -> 0 <= c < 64 -> 0 <= d < 64 ->
  Z.lor (Z.lor (Z.lor (Z.shiftl a 18) (Z.shiftl b 12)) (Z.shiftl c 6)) d
  = a * 262144 + b * 4096 + c * 64 + d.
Proof.
  intros. rewrite !Z.shiftl_mul_pow2 by lia.
  change (2 ^ 18) with 262144. change (2 ^ 12) with 4096. change (2 ^ 6) with 64.
  rewrite (lor_disjoint (a * 262144) 18 (b * 4096)) by zlia.
  rewrite (lor_disjoint (a * 262144 + b * 4096) 12 (c * 64)) by zlia.
  rewrite (lor_disjoint _ 6) by zlia. reflexivity.
Qed.

Lemma land_maskx x : Z.land x utf8.maskx = x mod 64.
Proof. exact (land_low x 6 ltac:(lia)). Qed.

Lemma land_mask2 x : Z.land x utf8.mask2 = x mod 32.
Proof. exact (land_low x 5 ltac:(lia)). Qed.

Lemma land_mask3 x : Z.land x utf8.mask3 = x mod 16.
Proof. exact (land_low x 4 ltac:(lia)). Qed.

Lemma land_mask4 x : Z.land x utf8.mask4 = x mod 8.
Proof. exact (land_low x 3 ltac:(lia)). Qed.

Lemma cont_byte x : Z.lor utf8.tx (Z.land (byteZ (to_byte x)) utf8.maskx) = 128 + x mod 64.
Proof.
  rewrite byteZ_to_byte, land_maskx, lor_tx by zlia. zlia.
Qed.

Lemma ValidRune_range v :
  utf8.ValidRune v = true <-> 0 <= v < 0xD800 \/ 0xDFFF < v <= 0x10FFFF.
Proof.
  unfold utf8.ValidRune, utf8.surrogateMin, utf8.surrogateMax, utf8.MaxRune.
  rewrite orb_true_iff, !andb_true_iff, !Z.leb_le, !Z.ltb_lt. reflexivity.
Qed.

Lemma EncodeRune_utf8_bytes v :
  utf8.ValidRune v = true -> utf8.EncodeRune v = to_byte <$> utf8_bytes v.
Proof.
  intros Hv. apply ValidRune_range in Hv.
  unfold utf8.EncodeRune, utf8_bytes, u32.
  rewrite Z.mod_small by lia.
  unfold utf8.rune1Max, utf8.rune2Max, utf8.rune3Max, utf8.MaxRune,
    utf8.surrogateMin, utf8.surrogateMax.
  destruct (Z.leb_spec v 0x7F); [reflexivity|].
  destruct (Z.leb_spec v 0x7FF).
  { simpl. rewrite cont_byte, byteZ_to_byte, Z.shiftr_div_pow2 by lia.
    rewrite lor_t2 by zlia. do 2 f_equal. f_equal. zlia. }
  assert (Hnot : (0x10FFFF <? v) || ((0xD800 <=? v) && (v <=? 0xDFFF)) = false).
  { rewrite orb_false_iff, andb_false_iff, Z.ltb_ge, !Z.leb_gt. lia. }
  rewrite Hnot.
  destruct (Z.leb_spec v 0xFFFF).
  { simpl. rewrite !cont_byte, byteZ_to_byte, !Z.shiftr_div_pow2 by lia.
    rewrite lor_t3 by zlia. do 2 f_equal. f_equal. zlia. }
  simpl. rewrite !cont_byte, byteZ_to_byte, !Z.shiftr_div_pow2 by lia.
  rewrite lor_t4 by zlia. do 2 f_equal. f_equal. zlia.
Qed.

Lemma utf8_bytes_bytes v :
  (0 <= v < 0xD800 \/ 0xDFFF < v <= 0x10FFFF) ->
  Forall (fun b => 0 <= b < 256) (utf8_bytes v).
Proof.
  intros Hv. unfold utf8_bytes.
  destruct (Z.leb_spec v 0x7F); [repeat constructor; lia|].
  destruct (Z.leb_spec v 0x7FF); [repeat constructor; zlia|].
  destruct (Z.leb_spec v 0xFFFF); repeat constructor; zlia.
Qed.

Lemma utf8_bytes_high v :
  (0 <= v < 0xD800 \/ 0xDFFF < v <= 0x10FFFF) -> 0x80 <= v ->
  Forall (fun b => 0x80 <= b < 256) (utf8_bytes v).
Proof.
  intros Hv Hhi. unfold utf8_bytes.
  destruct (Z.leb_spec v 0x7F); [lia|].
  destruct (Z.leb_spec v 0x7FF); [repeat constructor; zlia|].
  destruct (Z.leb_spec v 0xFFFF); repeat constructor; zlia.
Qed.

Lemma byteZ_to_byte_small b : 0 <= b < 256 -> byteZ (to_byte b) = b.
Proof. intros H. rewrite byteZ_to_byte. now apply Z.mod_small. Qed.

Lemma first_cases b :
  0x80 <= b < 256 ->
  utf8.first b =
    if b <=? 0xC1 then utf8.xx
    else if b <=? 0xDF then utf8.s1
    else if b =? 0xE0 then utf8.s2
    else if b <=? 0xEC then utf8.s3
    else if b =? 0xED then utf8.s4
    else if b <=? 0xEF then utf8.s3
    else if b =? 0xF0 then utf8.s5
    else if b <=? 0xF3 then utf8.s6
    else if b =? 0xF4 then utf8.s7
    else utf8.xx.
Proof.
  intros H. unfold utf8.first. now rewrite (proj2 (Z.leb_gt b 0x7F)) by lia.
Qed.

Ltac decode_as sx n acc :=
  change (utf8.as_ <=? sx) with false;
  change (Z.to_nat (Z.land sx 7)) with n;
  change (utf8.acceptRanges (Z.shiftr sx 4)) with acc;
  cbn [fst snd Nat.ltb Nat.leb orb];
  unfold utf8.locb, utf8.hicb; zbool; cbn [orb];
  rewrite ?land_mask2, ?land_mask3, ?land_mask4, ?land_maskx;
  first [rewrite lor4 by zlia | rewrite lor3 by zlia | rewrite lor2 by zlia];
  f_equal; zlia.

Lemma DecodeRuneInString_EncodeRune v rest :
  utf8.ValidRune v = true -> 0x80 <= v ->
  utf8.DecodeRuneInString (utf8.EncodeRune v ++ rest)
  = (v, length (utf8.EncodeRune v)).
Proof.
  intros Hv Hhi. rewrite (EncodeRune_utf8_bytes v Hv).
  apply ValidRune_range in Hv.
  pose proof (utf8_bytes_bytes v Hv) as Hb. revert Hb.
  unfold utf8_bytes.
  destruct (Z.leb_spec v 0x7F) as [L1|L1]; [lia|].
  destruct (Z.leb_spec v 0x7FF) as [L2|L2].
  { intros Hb. inversion_clear Hb as [|? ? B0 Hb']. inversion_clear Hb' as [|? ? B1 _].
    cbn [fmap list_fmap app length utf8.DecodeRuneInString].
    rewrite !byteZ_to_byte_small by assumption.
    rewrite first_cases by zlia. zbool.
    decode_as utf8.s1 2%nat (utf8.locb, utf8.hicb). }
  destruct (Z.leb_spec v 0xFFFF) as [L3|L3].
  { intros Hb. inversion_clear Hb as [|? ? B0 Hb']. inversion_clear Hb' as [|? ? B1 Hb''].
    inversion_clear Hb'' as [|? ? B2 _].
    cbn [fmap list_fmap app length utf8.DecodeRuneInString].
    rewrite !byteZ_to_byte_small by assumption.
    rewrite first_cases by zlia.
    assert (Hcase : v / 4096 = 0 \/ v / 4096 = 13
                    \/ 1 <= v / 4096 <= 12 \/ 14 <= v / 4096 <= 15) by zlia.
    destruct Hcase as [Hc|[Hc|[Hc|Hc]]]; zbool.
    - decode_as utf8.s2 3%nat (0xA0, utf8.hicb).
    - decode_as utf8.s4 3%nat (utf8.locb, 0x9F).
    - decode_as utf8.s3 3%nat (utf8.locb, utf8.hicb).
    - decode_as utf8.s3 3%nat (utf8.locb, utf8.hicb). }
  intros Hb. inversion_clear Hb as [|? ? B0 Hb']. inversion_clear Hb' as [|? ? B1 Hb''].
  inversion_clear Hb'' as [|? ? B2 Hb3]. inversion_clear Hb3 as [|? ? B3 _].
  cbn [fmap list_fmap app length utf8.DecodeRuneInString].
  rewrite !byteZ_to_byte_small by assumption.
  rewrite first_cases by zlia.
  assert (Hcase : v / 262144 = 0 \/ v / 262144 = 4 \/ 1 <= v / 262144 <= 3) by zlia.
  destruct Hcase as [Hc|[Hc|Hc]]; zbool.
  - decode_as utf8.s5 4%nat (0x90, utf8.hicb).
  - decode_as utf8.s7 4%nat (utf8.locb, 0x8F).
  - decode_as utf8.s6 4%nat (utf8.locb, utf8.hicb).
Qed.

End Utf8.

(** ** [strconv.Unquote] always returns *)

Lemma DecodeRuneInString_size c s :
  (1 <= snd (utf8.DecodeRuneInString (c :: s)))%nat.
Proof.
  unfold utf8.DecodeRuneInString.
  repeat (case_match; simpl; try lia).
Qed.

Lemma UnquoteChar_shrinks s quote r mb rem :
  strconv.UnquoteChar s quote = inl (r, mb, rem) -> length rem < length s.
Proof.
  unfold strconv.UnquoteChar.
  destruct s as [|c s1]; [discriminate|].
  destruct (_ && _); [discriminate|].
  destruct (_ <=? _)%Z.
  { pose proof (DecodeRuneInString_size c s1) as Hsz.
    destruct (utf8.DecodeRuneInString (c :: s1)) as [r' size]. simpl in Hsz.
    intros [= <- <- <-]. rewrite length_drop. simpl. lia. }
  destruct (negb _); [intros [= <- <- <-]; simpl; lia|].
  destruct s1 as [|c' s]; [discriminate|].
  repeat (case_match; try discriminate);
    intros [= <- <- <-]; simpl; rewrite ?length_drop; lia.
Qed.

Lemma unquote_loop_returns fuel in_ quote unescape buf :
  length in_ <= fuel ->
  exists res, strconv.unquote_loop fuel in_ quote unescape buf = Returned res.
Proof.
  revert in_ buf. induction fuel as [|fuel IH]; intros in_ buf Hlen.
  - destruct in_; [|simpl in Hlen; lia]. simpl. eauto.
  - destruct in_ as [|c rest]; [simpl; eauto|].
    cbn [strconv.unquote_loop].
    destruct (Ascii.eqb c quote); [eauto|].
    destruct (strconv.UnquoteChar (c :: rest) quote) as [[[r mb] rem]|e] eqn:E;
      [|eauto].
    apply UnquoteChar_shrinks in E. simpl in E, Hlen.
    destruct (Ascii.eqb c newline); [eauto|].
    destruct (Ascii.eqb quote squote); [eauto|].
    apply IH. lia.
Qed.

Lemma ValidString_loop_returns fuel s :
  length s <= fuel -> exists b, utf8.ValidString_loop fuel s = Returned b.
Proof.
  revert s. induction fuel as [|fuel IH]; intros s Hlen.
  - destruct s; [|simpl in Hlen; lia]. simpl. eauto.
  - destruct s as [|c rest]; [simpl; eauto|].
    cbn [utf8.ValidString_loop]. simpl in Hlen.
    destruct (_ <? _)%Z eqn:Hself; [apply IH; lia|].
    destruct (_ =? _)%Z eqn:Exx; [eauto|].
    assert (Hsize : 1 <= Z.to_nat (Z.land (utf8.first (byteZ c)) 7)).
    { revert Exx. unfold utf8.first.
      destruct (byteZ c <=? 127)%Z eqn:Hascii.
      { apply Z.ltb_ge in Hself. apply Z.leb_le in Hascii.
        unfold utf8.RuneSelf in Hself. lia. }
      repeat (case_match; try discriminate); intros _; vm_compute; lia. }
    destruct (_ <? _) eqn:Hshort; [eauto|].
    apply Nat.ltb_ge in Hshort. simpl in Hshort.
    assert (Hd : length (drop (Z.to_nat (Z.land (utf8.first (byteZ c)) 7))
                           (c :: rest)) <= fuel)
      by (rewrite length_drop; simpl; lia).
    repeat (case_match; eauto).
Qed.

Lemma unquote_returns in_ unescape :
  exists res, strconv.unquote in_ unescape = Returned res.
Proof.
  unfold strconv.unquote.
  destruct in_ as [|quote [|c in1]]; [eauto..|].
  destruct (strconv.index (c :: in1) quote) as [e|]; [|eauto].
  destruct (Ascii.eqb quote bquote); [eauto|].
  destruct (_ || _); [|eauto].
  assert (Hsimple : exists b,
    (if negb (strconv.contains (take (e + 2) (quote :: c :: in1)) backslash)
        && negb (strconv.contains (take (e + 2) (quote :: c :: in1)) newline)
     then
       if Ascii.eqb quote dquote
       then utf8.ValidString (strconv.sub (quote :: c :: in1) 1 (e + 2 - 1))
       else
         let (r, n) :=
           utf8.DecodeRuneInString (strconv.sub (quote :: c :: in1) 1 (e + 2 - 1)) in
         Returned ((1 + n + 1 =? e + 2)%nat
                   && (negb (r =? utf8.RuneError)%Z || negb (n =? 1)%nat))
     else Returned false) = Returned b).
  { destruct (_ && _); [|eauto].
    destruct (Ascii.eqb quote dquote).
    - apply ValidString_loop_returns, Nat.le_refl.
    - destruct (utf8.DecodeRuneInString _). eauto. }
  destruct Hsimple as [b ->]. cbn [obind].
  destruct b; [eauto|].
  destruct (unquote_loop_returns (length (c :: in1)) (c :: in1) quote unescape [])
    as [res ->]; [apply Nat.le_refl|]. cbn [obind].
  destruct res as [[buf [|c' rest]]|]; eauto.
  destruct (Ascii.eqb c' quote); [|eauto]. destruct unescape; eauto.
Qed.

Lemma Unquote_returns s : exists res, strconv.Unquote s = Returned res.
Proof.
  unfold strconv.Unquote.
  destruct (unquote_returns (bytes s) true) as [[[out rem] err] ->]. simpl.
  destruct (_ <? _); eauto.
Qed.

(** ** Claims on the literal decoder *)

(** C4: [goToString] returns the unquoted text for a [STRING] literal that
    [strconv.Unquote] accepts, and panics (with its one message) for any
    other kind and for a literal that [Unquote] rejects; it has no other
    outcome, and an error is never a returned value. *)
Theorem goToString_returns_or_panics (l : ast.BasicLit) :
  match goToString l with
  | Returned s =>
      ast.Kind l = token.STRING
      /\ strconv.Unquote (ast.Value l) = Returned (s, None)
  | Panicked v =>
      v = toString_failed
      /\ (ast.Kind l <> token.STRING
          \/ exists out err,
               strconv.Unquote (ast.Value l) = Returned (out, Some err))
  | OutOfFuel => False
  end.
Proof.
  unfold goToString.
  destruct (decide (ast.Kind l = token.STRING)) as [Hk|Hk]; [|auto].
  destruct (Unquote_returns (ast.Value l)) as [[out [err|]] ->]; simpl; eauto.
Qed.

Example goToString_other_kind :
  goToString {| ast.ValuePos := 0; ast.Kind := token.CHAR; ast.Value := "'a'" |}
  = Panicked toString_failed.
Proof. reflexivity. Qed.

Example goToString_malformed_escape :
  goToString {| ast.ValuePos := 0; ast.Kind := token.STRING;
                ast.Value := quoted "a\q" |}
  = Panicked toString_failed.
Proof. vm_compute. reflexivity. Qed.

Example goToString_import_path :
  goToString {| ast.ValuePos := 0; ast.Kind := token.STRING;
                ast.Value := quoted "./util" |}
  = Returned "./util".
Proof. vm_compute. reflexivity. Qed.

(** ** [strconv.UnquoteChar] on the forms of a string literal *)

Lemma UnquoteChar_ascii c rest :
  (byteZ c < 0x80)%Z -> c <> dquote -> c <> backslash ->
  strconv.UnquoteChar (c :: rest) dquote = inl (byteZ c, false, rest).
Proof.
  intros Hlow Hq Hb. unfold strconv.UnquoteChar.
  rewrite (eqb_false_of_ne c dquote Hq), (eqb_false_of_ne c backslash Hb).
  unfold utf8.RuneSelf. rewrite (proj2 (Z.leb_gt 0x80 (byteZ c))) by lia.
  reflexivity.
Qed.

Lemma EncodeRune_head v :
  utf8.ValidRune v = true -> (0x80 <= v)%Z ->
  exists c cs, utf8.EncodeRune v = c :: cs
               /\ Forall (fun b => 0x80 <= byteZ b)%Z (c :: cs).
Proof.
  intros Hv Hhi. rewrite (EncodeRune_utf8_bytes v Hv).
  apply ValidRune_range in Hv.
  pose proof (utf8_bytes_high v Hv Hhi) as Hb.
  assert (Hall : Forall (fun b => 0x80 <= byteZ b)%Z (to_byte <$> utf8_bytes v)).
  { apply Forall_fmap. eapply Forall_impl; [exact Hb|].
    intros b Hr. cbv beta in Hr. unfold compose.
    rewrite byteZ_to_byte_small; lia. }
  destruct (to_byte <$> utf8_bytes v) as [|c cs] eqn:E.
  - exfalso. revert E. unfold utf8_bytes. repeat case_match; discriminate.
  - eauto.
Qed.

Lemma UnquoteChar_rune v rest :
  utf8.ValidRune v = true -> (0x80 <= v)%Z ->
  strconv.UnquoteChar (utf8.EncodeRune v ++ rest) dquote = inl (v, true, rest).
Proof.
  intros Hv Hhi.
  pose proof (DecodeRuneInString_EncodeRune v rest Hv Hhi) as Hdec.
  destruct (EncodeRune_head v Hv Hhi) as (c & cs & E & Hall).
  rewrite E in *. inversion_clear Hall as [|? ? Hc _].
  cbn [app] in *. unfold strconv.UnquoteChar.
  assert (Hq : Ascii.eqb c dquote = false).
  { apply eqb_false_of_ne. intros ->. vm_compute in Hc. now apply Hc. }
  rewrite Hq. cbn [andb].
  unfold utf8.RuneSelf. rewrite (proj2 (Z.leb_le 0x80 (byteZ c))) by lia.
  rewrite Hdec. f_equal. f_equal.
  change (c :: cs ++ rest) with ((c :: cs) ++ rest).
  now rewrite drop_app_length.
Qed.

Lemma UnquoteChar_escaped e b rest :
  (e, b) ∈ escape_spec.escaped_chars ->
  strconv.UnquoteChar (backslash :: e :: rest) dquote = inl (b, false, rest).
Proof.
  unfold escape_spec.escaped_chars. intros H.
  repeat (apply elem_of_cons in H as [H|H];
          [injection H as -> ->; reflexivity|]).
  now apply elem_of_nil in H.
Qed.

Lemma octal_digits_number os xs a :
  escape_spec.octal_value <$> os = Some <$> xs ->
  (0 <= a)%Z ->
  strconv.octal_digits os a = Some (foldl (fun acc v => acc * 8 + v)%Z a xs).
Proof.
  revert xs a. induction os as [|o os IH]; intros [|x xs] a; simpl;
    try discriminate; [reflexivity|].
  intros H Ha. injection H as Ho Hrest.
  destruct (octal_value_digit _ _ Ho) as [-> Hx].
  rewrite (proj2 (Z.ltb_ge x 0)), (proj2 (Z.ltb_ge 7 x)) by lia. cbn [orb].
  rewrite (lor_shiftl_add a 3 x) by lia. change (2 ^ 3)%Z with 8%Z.
  apply IH; [exact Hrest|lia].
Qed.

Lemma UnquoteChar_octal o1 o2 o3 x1 x2 x3 rest :
  escape_spec.octal_value <$> [o1; o2; o3] = Some <$> [x1; x2; x3] ->
  (escape_spec.number 8 [x1; x2; x3] <= 255)%Z ->
  strconv.UnquoteChar (backslash :: o1 :: o2 :: o3 :: rest) dquote
  = inl (escape_spec.number 8 [x1; x2; x3], false, rest).
Proof.
  intros H Hmax. injection H as H1 H23.
  pose proof (octal_value_digit _ _ H1) as [E1 R1].
  assert (Hd : strconv.octal_digits (take 2 (o2 :: o3 :: rest)) (byteZ o1 - byteZ "0")
               = Some (escape_spec.number 8 [x1; x2; x3])).
  { rewrite E1. cbn [take]. rewrite (octal_digits_number [o2; o3] [x2; x3]).
    - reflexivity.
    - simpl. simpl in H23. congruence.
    - lia. }
  destruct o1 as [[] [] [] [] [] [] [] []];
    try (vm_compute in H1; discriminate H1);
    cbv beta iota delta [strconv.UnquoteChar];
    cbn [Ascii.eqb Bool.eqb andb orb negb];
    change (utf8.RuneSelf <=? byteZ backslash)%Z with false; cbv iota;
    match goal with
    | |- context [(?a <=? ?b)%Z && (?c <=? ?d)%Z] =>
        change ((a <=? b)%Z && (c <=? d)%Z) with true
    end; cbv iota;
    change (length (o2 :: o3 :: rest) <? 2) with false; cbv iota;
    rewrite Hd;
    rewrite (proj2 (Z.ltb_ge 255 _) Hmax); reflexivity.
Qed.

Lemma UnquoteChar_hex h1 h2 x1 x2 rest :
  escape_spec.hex_value <$> [h1; h2] = Some <$> [x1; x2] ->
  strconv.UnquoteChar (backslash :: "x"%char :: h1 :: h2 :: rest) dquote
  = inl (escape_spec.number 16 [x1; x2], false, rest).
Proof.
  intros H.
  pose proof (hex_values_range _ _ H) as Hr.
  inversion_clear Hr as [|? ? R1 Hr']. inversion_clear Hr' as [|? ? R2 _].
  cbv beta iota delta [strconv.UnquoteChar].
  change (utf8.RuneSelf <=? byteZ backslash)%Z with false.
  cbv beta iota zeta delta [backslash dquote squote Ascii.eqb Bool.eqb andb orb negb].
  change (length (h1 :: h2 :: rest) <? 2) with false. cbv iota.
  change (take 2 (h1 :: h2 :: rest)) with [h1; h2].
  change (drop 2 (h1 :: h2 :: rest)) with rest.
  rewrite (hex_digits_number [h1; h2] [x1; x2] 0 H); [reflexivity|lia|].
  simpl. lia.
Qed.

Lemma number_bound xs :
  Forall (fun v => 0 <= v < 16)%Z xs ->
  (0 <= escape_spec.number 16 xs < 16 ^ Z.of_nat (length xs))%Z.
Proof.
  unfold escape_spec.number.
  induction xs as [|x xs IH] using rev_ind; intros Hxs.
  - simpl. lia.
  - apply Forall_app in Hxs as [Hxs Hx]. inversion_clear Hx as [|? ? Hx' _].
    specialize (IH Hxs).
    rewrite foldl_app, length_app. simpl.
    rewrite Nat2Z.inj_add, Z.pow_add_r by lia. change (16 ^ Z.of_nat 1)%Z with 16%Z.
    lia.
Qed.

Lemma UnquoteChar_unicode (big : bool) hs xs rest :
  length hs = (if big then 8 else 4) ->
  escape_spec.hex_value <$> hs = Some <$> xs ->
  utf8.ValidRune (escape_spec.number 16 xs) = true ->
  strconv.UnquoteChar
    (backslash :: (if big then "U"%char else "u"%char) :: hs ++ rest) dquote
  = inl (escape_spec.number 16 xs, true, rest).
Proof.
  intros Hlen H Hv.
  pose proof (hex_values_range _ _ H) as Hr.
  assert (Hmax : (escape_spec.number 16 xs < 2 ^ 31)%Z).
  { apply ValidRune_range in Hv. lia. }
  assert (Hd : strconv.hex_digits hs 0 = Some (escape_spec.number 16 xs)).
  { apply hex_digits_number; [exact H|lia|exact Hmax]. }
  cbv beta iota delta [strconv.UnquoteChar].
  change (utf8.RuneSelf <=? byteZ backslash)%Z with false.
  destruct big;
    cbv beta iota zeta delta [backslash dquote squote Ascii.eqb Bool.eqb andb orb negb];
    rewrite length_app, Hlen;
    rewrite (proj2 (Nat.ltb_ge _ _)) by lia;
    rewrite <- Hlen, take_app_length, drop_app_length, Hd, Hv;
    reflexivity.
Qed.

(** ** The loop of [unquote] on an interpreted string literal *)

Lemma unquote_loop_step fuel c rest r mb rem buf :
  strconv.UnquoteChar (c :: rest) dquote = inl (r, mb, rem) ->
  c <> dquote -> c <> newline ->
  strconv.unquote_loop (S fuel) (c :: rest) dquote true buf
  = strconv.unquote_loop fuel rem dquote true
      (if (r <? utf8.RuneSelf)%Z || negb mb then buf ++ [to_byte r]
       else utf8.AppendRune buf r).
Proof.
  intros HU Hq Hn. cbn [strconv.unquote_loop].
  rewrite (eqb_false_of_ne c dquote Hq), HU, (eqb_false_of_ne c newline Hn).
  reflexivity.
Qed.

Lemma EncodeRune_low v :
  (0 <= v < 0x80)%Z -> utf8.EncodeRune v = [to_byte v].
Proof.
  intros H. unfold utf8.EncodeRune, u32, utf8.rune1Max.
  rewrite Z.mod_small by lia. now rewrite (proj2 (Z.leb_le v 0x7F)) by lia.
Qed.

Lemma backslash_not_quote : backslash <> dquote.
Proof. discriminate. Qed.

Lemma backslash_not_newline : backslash <> newline.
Proof. discriminate. Qed.

Lemma unquote_loop_interpreted body s :
  escape_spec.interpreted body s ->
  forall fuel buf tail,
    length body <= fuel ->
    strconv.unquote_loop fuel (body ++ dquote :: tail) dquote true buf
    = Returned (Some (buf ++ s, dquote :: tail)).
Proof.
  induction 1 as
    [ | c body s Hlow Hn Hq Hb _ IH
      | v body s Hv Hhi _ IH
      | e b body s He _ IH
      | h1 h2 x1 x2 body s Hh _ IH
      | o1 o2 o3 x1 x2 x3 body s Ho Hmax _ IH
      | hs xs body s Hlen Hh Hv _ IH
      | hs xs body s Hlen Hh Hv _ IH ];
    intros fuel buf tail Hfuel.
  - destruct fuel; simpl; now rewrite app_nil_r.
  - destruct fuel as [|fuel]; [simpl in Hfuel; lia|]. simpl in Hfuel.
    cbn [app].
    rewrite (unquote_loop_step fuel c _ _ _ _ buf
               (UnquoteChar_ascii c _ Hlow Hq Hb) Hq Hn).
    rewrite orb_true_r, to_byte_byteZ, IH by lia. now rewrite <- app_assoc.
  - destruct (EncodeRune_head v Hv Hhi) as (c & cs & E & Hall).
    pose proof (UnquoteChar_rune v (body ++ dquote :: tail) Hv Hhi) as HU.
    rewrite <- app_assoc. rewrite E in *. inversion_clear Hall as [|? ? Hc _].
    destruct fuel as [|fuel]; [simpl in Hfuel; lia|].
    rewrite length_app in Hfuel. simpl in Hfuel. cbn [app] in *.
    rewrite (unquote_loop_step fuel c _ _ _ _ buf HU).
    + unfold utf8.RuneSelf. rewrite (proj2 (Z.ltb_ge v 0x80)) by lia.
      cbn [orb negb]. unfold utf8.AppendRune. rewrite IH by lia.
      now rewrite E, <- app_assoc.
    + intros ->. vm_compute in Hc. now apply Hc.
    + intros ->. vm_compute in Hc. now apply Hc.
  - destruct fuel as [|fuel]; [simpl in Hfuel; lia|]. simpl in Hfuel. cbn [app].
    rewrite (unquote_loop_step fuel backslash _ _ _ _ buf
               (UnquoteChar_escaped e b _ He)
               backslash_not_quote backslash_not_newline).
    rewrite orb_true_r, IH by lia. now rewrite <- app_assoc.
  - destruct fuel as [|fuel]; [simpl in Hfuel; lia|]. simpl in Hfuel. cbn [app].
    rewrite (unquote_loop_step fuel backslash _ _ _ _ buf
               (UnquoteChar_hex h1 h2 x1 x2 _ Hh)
               backslash_not_quote backslash_not_newline).
    rewrite orb_true_r, IH by lia. now rewrite <- app_assoc.
  - destruct fuel as [|fuel]; [simpl in Hfuel; lia|]. simpl in Hfuel. cbn [app].
    rewrite (unquote_loop_step fuel backslash _ _ _ _ buf
               (UnquoteChar_octal o1 o2 o3 x1 x2 x3 _ Ho Hmax)
               backslash_not_quote backslash_not_newline).
    rewrite orb_true_r, IH by lia. now rewrite <- app_assoc.
  - destruct fuel as [|fuel]; [simpl in Hfuel; lia|].
    simpl in Hfuel. rewrite length_app in Hfuel. cbn [app]. rewrite <- app_assoc.
    rewrite (unquote_loop_step fuel backslash _ _ _ _ buf
               (UnquoteChar_unicode false hs xs _ Hlen Hh Hv)
               backslash_not_quote backslash_not_newline).
    rewrite IH by lia. cbn [negb orb]. rewrite orb_false_r.
    unfold utf8.AppendRune, utf8.RuneSelf.
    destruct (Z.ltb_spec (escape_spec.number 16 xs) 0x80) as [Hs|Hs].
    + apply ValidRune_range in Hv. rewrite EncodeRune_low by lia.
      now rewrite <- app_assoc.
    + now rewrite <- app_assoc.
  - destruct fuel as [|fuel]; [simpl in Hfuel; lia|].
    simpl in Hfuel. rewrite length_app in Hfuel. cbn [app]. rewrite <- app_assoc.
    rewrite (unquote_loop_step fuel backslash _ _ _ _ buf
               (UnquoteChar_unicode true hs xs _ Hlen Hh Hv)
               backslash_not_quote backslash_not_newline).
    rewrite IH by lia. cbn [negb orb]. rewrite orb_false_r.
    unfold utf8.AppendRune, utf8.RuneSelf.
    destruct (Z.ltb_spec (escape_spec.number 16 xs) 0x80) as [Hs|Hs].
    + apply ValidRune_range in Hv. rewrite EncodeRune_low by lia.
      now rewrite <- app_assoc.
    + now rewrite <- app_assoc.
Qed.

(** ** The quoted string without escapes *)

Lemma contains_cons x s c :
  strconv.contains (x :: s) c = Ascii.eqb x c || strconv.contains s c.
Proof.
  unfold strconv.contains. simpl. destruct (Ascii.eqb x c); [reflexivity|].
  now destruct (strconv.index s c).
Qed.

Lemma index_cons_ne x s c :
  x <> c -> strconv.index (x :: s) c = S <$> strconv.index s c.
Proof. intros H. simpl. now rewrite (eqb_false_of_ne x c H). Qed.

Lemma contains_false_filter s c :
  strconv.contains s c = false -> filter (fun x => x <> c) s = s.
Proof.
  induction s as [|x s IH]; [reflexivity|].
  rewrite contains_cons, orb_false_iff. intros [Hx Hs].
  apply Ascii.eqb_neq in Hx. rewrite filter_cons_True by exact Hx.
  now rewrite IH.
Qed.

Lemma index_not_in s c tail :
  c ∉ s -> strconv.index (s ++ c :: tail) c = Some (length s).
Proof.
  induction s as [|x s IH]; intros Hnot.
  - simpl. now rewrite Ascii.eqb_refl.
  - apply not_elem_of_cons in Hnot as [Hx Hs]. cbn [app].
    rewrite index_cons_ne by congruence. now rewrite IH.
Qed.

Lemma skip_high_bytes pre rest e :
  Forall (fun b => 0x80 <= byteZ b)%Z pre ->
  strconv.index (pre ++ rest) dquote = Some e ->
  strconv.contains (take (S e) (pre ++ rest)) backslash = false ->
  exists e', e = length pre + e'
             /\ strconv.index rest dquote = Some e'
             /\ strconv.contains (take (S e') rest) backslash = false.
Proof.
  intros Hpre. revert e. induction Hpre as [|c pre Hc _ IH]; intros e Hi Hb.
  - exists e. auto.
  - cbn [app] in Hi, Hb.
    rewrite index_cons_ne in Hi by (intros ->; vm_compute in Hc; now apply Hc).
    destruct (strconv.index (pre ++ rest) dquote) as [e0|] eqn:E0; [|discriminate].
    injection Hi as <-. cbn [take] in Hb.
    rewrite contains_cons, orb_false_iff in Hb. destruct Hb as [_ Hb].
    destruct (IH e0 eq_refl Hb) as (e' & -> & Hi' & Hb').
    exists e'. auto.
Qed.

Lemma interpreted_without_escapes body s :
  escape_spec.interpreted body s ->
  forall e,
    strconv.index (body ++ [dquote]) dquote = Some e ->
    strconv.contains (take (S e) (body ++ [dquote])) backslash = false ->
    e = length body /\ body = s.
Proof.
  induction 1 as
    [ | c body s Hlow Hn Hq Hb _ IH
      | v body s Hv Hhi _ IH
      | e0 b body s He _ IH
      | h1 h2 x1 x2 body s Hh _ IH
      | o1 o2 o3 x1 x2 x3 body s Ho Hmax _ IH
      | hs xs body s Hlen Hh Hv _ IH
      | hs xs body s Hlen Hh Hv _ IH ];
    intros e Hi Hc;
    try (exfalso; cbn [app] in Hi, Hc;
         rewrite index_cons_ne in Hi by exact backslash_not_quote;
         match type of Hi with
         | S <$> ?x = _ => destruct x; [|discriminate]
         end;
         injection Hi as <-; cbn [take] in Hc;
         rewrite contains_cons in Hc; discriminate Hc).
  - simpl in Hi. injection Hi as <-. auto.
  - cbn [app] in Hi, Hc. rewrite index_cons_ne in Hi by exact Hq.
    destruct (strconv.index (body ++ [dquote]) dquote) as [e'|] eqn:E;
      [|discriminate].
    injection Hi as <-. cbn [take] in Hc.
    rewrite contains_cons, orb_false_iff in Hc. destruct Hc as [_ Hc].
    destruct (IH e' eq_refl Hc) as [-> ->]. auto.
  - destruct (EncodeRune_head v Hv Hhi) as (c & cs & E & Hall).
    rewrite <- app_assoc in Hi, Hc. rewrite E in *.
    destruct (skip_high_bytes _ _ _ Hall Hi Hc) as (e' & -> & Hi' & Hc').
    destruct (IH e' Hi' Hc') as [-> ->].
    split; [now rewrite length_app|reflexivity].
Qed.

(** ** Claim on decoding *)

Lemma unquote_interpreted body s :
  escape_spec.interpreted body s ->
  strconv.unquote (dquote :: body ++ [dquote]) true = Returned (s, [], None).
Proof.
  intros Hint.
  assert (Hloop := unquote_loop_interpreted body s Hint
                     (length (body ++ [dquote])) [] []).
  rewrite length_app in Hloop. specialize (Hloop ltac:(lia)).
  rewrite <- length_app in Hloop.
  assert (Hfast := interpreted_without_escapes body s Hint).
  destruct (body ++ [dquote]) as [|c l] eqn:E; [destruct body; discriminate|].
  unfold strconv.unquote.
  destruct (strconv.index (c :: l) dquote) as [e|] eqn:Ei.
  2:{ exfalso. rewrite <- E in Ei.
      clear -Ei. induction body as [|x body IH]; simpl in Ei.
      - discriminate.
      - destruct (Ascii.eqb x dquote); [discriminate|].
        destruct (strconv.index (body ++ [dquote]) dquote); [discriminate|].
        now apply IH. }
  change (Ascii.eqb dquote bquote) with false.
  change (Ascii.eqb dquote dquote || Ascii.eqb dquote squote) with true.
  change (Ascii.eqb dquote dquote) with true. cbv iota.
  replace (e + 2) with (S (S e)) by lia.
  change (take (S (S e)) (dquote :: c :: l)) with (dquote :: take (S e) (c :: l)).
  rewrite (contains_cons dquote _ backslash).
  change (Ascii.eqb dquote backslash) with false. cbn [orb].
  destruct (strconv.contains (take (S e) (c :: l)) backslash) eqn:Hbs.
  { cbn [negb andb obind]. rewrite Hloop. reflexivity. }
  specialize (Hfast e eq_refl Hbs). destruct Hfast as [-> Hbody].
  cbn [negb andb].
  assert (Hlen : length (c :: l) = S (length body))
    by (rewrite <- E, length_app; simpl; lia).
  assert (Htake : take (S (length body)) (c :: l) = c :: l)
    by (apply take_ge; lia).
  rewrite Htake.
  match goal with
  | |- context [if ?b then utf8.ValidString ?x else Returned false] =>
      assert (Hsimple : exists v, (if b then utf8.ValidString x else Returned false)
                                  = Returned v)
  end.
  { destruct (negb _); [|eauto]. apply ValidString_loop_returns, Nat.le_refl. }
  destruct Hsimple as [[] ->]; cbn [obind].
  - unfold strconv.sub. replace (S (S (length body)) - 1) with (S (length body)) by lia.
    rewrite <- E.
    change (dquote :: body ++ [dquote]) with ([dquote] ++ body ++ [dquote]).
    replace (S (length body)) with (length [dquote] + length body) by (simpl; lia).
    rewrite take_app_add, take_app_length. cbn [app drop length].
    rewrite drop_0.
    rewrite drop_ge by (rewrite length_app; simpl; lia).
    now rewrite Hbody.
  - rewrite Hloop. reflexivity.
Qed.

Lemma unquote_raw body :
  bquote ∉ body ->
  strconv.unquote (bquote :: body ++ [bquote]) true
  = Returned (filter (fun c => c <> creturn) body, [], None).
Proof.
  intros Hnot.
  pose proof (index_not_in body bquote [] Hnot) as Hi.
  assert (Hlen : length (body ++ [bquote]) = S (length body))
    by (rewrite length_app; simpl; lia).
  destruct (body ++ [bquote]) as [|c l] eqn:E; [destruct body; discriminate|].
  unfold strconv.unquote. rewrite Hi.
  change (Ascii.eqb bquote bquote) with true. cbv iota.
  replace (length body + 2) with (S (S (length body))) by lia.
  assert (Hsub : strconv.sub (bquote :: c :: l) 1 (S (S (length body)) - 1) = body).
  { unfold strconv.sub. rewrite <- E.
    replace (S (S (length body)) - 1) with (length [bquote] + length body)
      by (simpl; lia).
    change (bquote :: body ++ [bquote]) with ([bquote] ++ body ++ [bquote]).
    rewrite take_app_add, take_app_length. cbn [app drop]. apply drop_0. }
  assert (Hdrop : drop (S (S (length body))) (bquote :: c :: l) = []).
  { apply drop_ge. simpl in *. lia. }
  rewrite Hsub, Hdrop. cbn [negb].
  assert (Htake : take (S (S (length body))) (bquote :: c :: l) = bquote :: c :: l).
  { apply take_ge. simpl in *. lia. }
  rewrite Htake.
  destruct (strconv.contains (bquote :: c :: l) creturn) eqn:Hcr; cbn [negb];
    [reflexivity|].
  rewrite contains_cons in Hcr. change (Ascii.eqb bquote creturn) with false in Hcr.
  cbn [orb] in Hcr. rewrite <- E in Hcr.
  assert (Hb : strconv.contains body creturn = false).
  { clear -Hcr. induction body as [|x body IH]; [reflexivity|].
    cbn [app] in Hcr. rewrite contains_cons in *.
    apply orb_false_iff in Hcr as [-> Hcr]. now apply IH. }
  now rewrite (contains_false_filter body creturn Hb).
Qed.

Lemma bytes_gostring l : bytes (gostring l) = l.
Proof. apply list_ascii_of_string_of_list_ascii. Qed.

Lemma gostring_bytes s : gostring (bytes s) = s.
Proof. apply string_of_list_ascii_of_string. Qed.

Lemma goToString_literal pos lit s :
  escape_spec.denotes lit s ->
  goToString (string_token pos lit) = Returned (gostring s).
Proof.
  intros Hden. unfold goToString, string_token. cbn [ast.Kind ast.Value].
  destruct (decide (token.STRING = token.STRING)) as [_|Hne]; [|congruence].
  unfold strconv.Unquote. rewrite bytes_gostring.
  destruct Hden as [body s Hint|body Hnot].
  - rewrite (unquote_interpreted body s Hint). reflexivity.
  - rewrite (unquote_raw body Hnot). reflexivity.
Qed.

(** C9: a token whose text is a string literal denoting [s] (a raw string,
    or an interpreted string of plain characters, escaped characters
    such as an escaped double quote, escaped bytes and Unicode escapes)
    is decoded to exactly [s]. *)
Theorem goToString_round_trip pos lit s :
  escape_spec.denotes lit s ->
  goToString (string_token pos lit) = Returned (gostring s).
Proof. apply goToString_literal. Qed.

(** Every byte sequence is denoted by a literal, for one by the literal
    that escapes each of its bytes. *)
Lemma hex_escape_byte b :
  escape_spec.hex_value <$> [hex_digit (byteZ b / 16); hex_digit (byteZ b mod 16)]
  = Some <$> [byteZ b / 16; byteZ b mod 16]%Z
  /\ to_byte (escape_spec.number 16 [byteZ b / 16; byteZ b mod 16]%Z) = b.
Proof. destruct b as [[] [] [] [] [] [] [] []]; split; vm_compute; reflexivity. Qed.

Lemma hex_quote_denotes s : escape_spec.denotes (hex_quote s) s.
Proof.
  unfold hex_quote. apply escape_spec.denotes_interpreted.
  induction s as [|b s IH]; [constructor|].
  destruct (hex_escape_byte b) as [Hh Hb].
  cbn [flat_map hex_escape app]. rewrite <- Hb at 3.
  now apply escape_spec.interpreted_hex.
Qed.

Corollary goToString_hex_quote pos s :
  goToString (string_token pos (hex_quote s)) = Returned (gostring s).
Proof. apply goToString_literal, hex_quote_denotes. Qed.

Lemma goToString_round_trip_witness :
  goToString
    (string_token 0
       (dquote :: (bytes "a/b" ++ backslash :: dquote
                   :: backslash :: bytes "u00e9" ++ []) ++ [dquote]))
  = Returned
      (gostring (bytes "a/b" ++ to_byte 34 :: utf8.EncodeRune 0xE9 ++ [])).
Proof.
  apply goToString_round_trip. apply escape_spec.denotes_interpreted.
  apply escape_spec.interpreted_ascii; [reflexivity|discriminate..|].
  apply escape_spec.interpreted_ascii; [reflexivity|discriminate..|].
  apply escape_spec.interpreted_ascii; [reflexivity|discriminate..|].
  apply (escape_spec.interpreted_escaped dquote 34).
  { unfold escape_spec.escaped_chars. do 8 apply list_elem_of_further.
    apply list_elem_of_here. }
  apply (escape_spec.interpreted_little_u (bytes "00e9") [0; 0; 14; 9]%Z [] []);
    [reflexivity..|].
  apply escape_spec.interpreted_nil.
Defined.

Example goToString_unicode_escape :
  goToString (string_token 0 (dquote :: bytes "a/bé\U0001F600" ++ [dquote]))
  = Returned (gostring (bytes "a/b" ++ ["195"; "169"; "240"; "159"; "152"; "128"]%char)).
Proof. vm_compute. reflexivity. Qed.

(** ** The parser as a function of what [ParseFile] returns *)

Section ParserFacts.

Context {FileSet error : Type}.
Variable ParseFile :
  FileSet -> string -> FileSet * (option ast.File * option error).

Abbreviation Parser := (ImportsParser FileSet).

Lemma canonicalGo_mod (p p' : Parser) s :
  mod_ p' = mod_ p -> canonicalGo p' s = canonicalGo p s.
Proof. unfold canonicalGo. intros ->. reflexivity. Qed.

Lemma import_path_mod (p p' : Parser) spec :
  mod_ p' = mod_ p -> import_path p' spec = import_path p spec.
Proof.
  intros H. unfold import_path.
  destruct (goToString (ast.Path spec)); simpl; auto using canonicalGo_mod.
Qed.

Lemma with_imports_id (p : Parser) : with_imports p (imports p) = p.
Proof. destruct p; reflexivity. Qed.

Lemma range_imports_insert_paths imps (p : Parser) :
  range_imports imps p =
  (fst (insert_paths (import_path p <$> imps) (imports p)),
   with_imports p (snd (insert_paths (import_path p <$> imps) (imports p)))).
Proof.
  revert p. induction imps as [|imp rest IH]; intros p; simpl.
  - unfold ret. now rewrite with_imports_id.
  - unfold bind, importGo, bind. fold (import_path p imp).
    destruct (import_path p imp) as [k| |] eqn:E; simpl;
      try now rewrite with_imports_id.
    rewrite IH. simpl.
    assert (Hm : (import_path
                    {| fset := fset p; mod_ := mod_ p;
                       imports := <[k:=()]> (imports p) |} <$> rest)
                 = (import_path p <$> rest)).
    { apply list_fmap_ext. intros _ spec _. now apply import_path_mod. }
    rewrite Hm. reflexivity.
Qed.

Lemma ParseGoImport_unfold gopfile (p : Parser) :
  ParseGoImport ParseFile gopfile p =
  match ParseFile (fset p) gopfile with
  | (fs, (_, Some err)) => (Returned (Some err), with_fset p fs)
  | (fs, (Some f, None)) =>
      let r := insert_paths (import_path p <$> ast.Imports f) (imports p) in
      (match fst r with
       | Returned _ => Returned None
       | Panicked v => Panicked v
       | OutOfFuel => OutOfFuel
       end, with_imports (with_fset p fs) (snd r))
  | (fs, (None, None)) => (Panicked nil_dereference, with_fset p fs)
  end.
Proof.
  unfold ParseGoImport, bind, parse_file.
  destruct (ParseFile (fset p) gopfile) as [fs [[f|] [err|]]]; try reflexivity.
  rewrite range_imports_insert_paths.
  assert (Hm : (import_path {| fset := fs; mod_ := mod_ p; imports := imports p |}
                  <$> ast.Imports f) = (import_path p <$> ast.Imports f)).
  { apply list_fmap_ext. intros _ spec _. now apply import_path_mod. }
  rewrite Hm. simpl.
  destruct (insert_paths _ _) as [[u| |] m]; reflexivity.
Qed.

Lemma insert_paths_subseteq os (m : gmap string ()) :
  m ⊆ snd (insert_paths os m).
Proof.
  revert m. induction os as [|[k| |] os IH]; intros m; simpl; try reflexivity.
  etrans; [|apply IH].
  apply map_subseteq_spec. intros i [] Hi.
  destruct (decide (k = i)) as [->|Hne].
  - apply lookup_insert_eq.
  - now rewrite lookup_insert_ne.
Qed.

Lemma insert_paths_returned os (m : gmap string ()) :
  fst (insert_paths os m) = Returned tt ->
  exists ks, returned_paths os = Some ks
             /\ dom (snd (insert_paths os m)) = dom m ∪ list_to_set ks.
Proof.
  revert m. induction os as [|[k| |] os IH]; intros m; simpl; try discriminate.
  - intros _. exists []. split; [reflexivity|]. simpl. set_solver.
  - intros H. destruct (IH _ H) as (ks & -> & Hd). exists (k :: ks).
    split; [reflexivity|]. rewrite Hd, dom_insert_L. simpl. set_solver.
Qed.

Lemma insert_paths_all os ks (m : gmap string ()) :
  returned_paths os = Some ks ->
  fst (insert_paths os m) = Returned tt.
Proof.
  revert ks m. induction os as [|[k| |] os IH]; intros ks m; simpl;
    try discriminate; [reflexivity|].
  destruct (returned_paths os) eqn:E; [|discriminate]. intros _. eauto.
Qed.

Lemma insert_paths_present os ks (m : gmap string ()) :
  returned_paths os = Some ks ->
  (forall k, k ∈ ks -> k ∈ dom m) ->
  snd (insert_paths os m) = m.
Proof.
  revert ks m. induction os as [|[k| |] os IH]; intros ks m; simpl;
    try discriminate; [reflexivity|].
  destruct (returned_paths os) as [ks'|] eqn:E; [|discriminate].
  intros [= <-] Hin.
  assert (Hk : <[k:=()]> m = m).
  { apply insert_id. assert (Hd : k ∈ dom m) by (apply Hin; left).
    apply elem_of_dom in Hd as [[] Hd]. exact Hd. }
  rewrite Hk. apply (IH ks'); [reflexivity|].
  intros k' Hk'. apply Hin. now right.
Qed.

Lemma import_path_literal (p : Parser) s1 s2 :
  literal_of s1 = literal_of s2 -> import_path p s1 = import_path p s2.
Proof.
  unfold literal_of, import_path, goToString. intros [= Hk Hv].
  now rewrite Hk, Hv.
Qed.

Lemma import_paths_literals (p : Parser) (l1 l2 : list ast.ImportSpec) :
  literal_of <$> l1 = literal_of <$> l2 ->
  import_path p <$> l1 = import_path p <$> l2.
Proof.
  revert l2. induction l1 as [|a l1 IH]; intros [|b l2]; simpl;
    try discriminate; [reflexivity|].
  intros H. injection H as Hk Hv Hl.
  f_equal; [apply import_path_literal; unfold literal_of; congruence | now apply IH].
Qed.

Lemma unit_map_dom_eq (m1 m2 : gmap string ()) : dom m1 = dom m2 -> m1 = m2.
Proof.
  intros Hd. apply map_eq. intros i.
  destruct (m1 !! i) as [[]|] eqn:E1, (m2 !! i) as [[]|] eqn:E2; try reflexivity.
  - assert (H : i ∈ dom m1) by (apply elem_of_dom; eauto).
    rewrite Hd in H. apply elem_of_dom in H as [? H]. congruence.
  - assert (H : i ∈ dom m2) by (apply elem_of_dom; eauto).
    rewrite <- Hd in H. apply elem_of_dom in H as [? H]. congruence.
Qed.

(** A call that returns adds the file's set, and nothing else. *)
Lemma ParseGoImport_returned gopfile (p p' : Parser) e :
  ParseGoImport ParseFile gopfile p = (Returned e, p') ->
  deps p' = deps p ∪ file_set ParseFile p gopfile /\ mod_ p' = mod_ p.
Proof.
  rewrite ParseGoImport_unfold. unfold file_set, deps.
  destruct (ParseFile (fset p) gopfile) as [fs [[f|] [err|]]]; simpl;
    try (intros [= <- <-]; simpl; split; [set_solver|reflexivity]);
    try discriminate.
  destruct (insert_paths _ _) as [[[]| |] m] eqn:E; simpl; try discriminate.
  intros [= <- <-]. simpl. split; [|reflexivity].
  pose proof (insert_paths_returned (import_path p <$> ast.Imports f) (imports p))
    as H. rewrite E in H. destruct (H eq_refl) as (ks & -> & Hd). exact Hd.
Qed.

Lemma union_list_permutation (l1 l2 : list (gset string)) :
  Permutation l1 l2 -> ⋃ l1 = ⋃ l2.
Proof. induction 1; simpl; set_solver. Qed.

Section Stable.

Hypothesis Hstable : stable_files ParseFile.

Lemma stable_result fs1 fs2 name fs1' fs2' r1 r2 :
  ParseFile fs1 name = (fs1', r1) -> ParseFile fs2 name = (fs2', r2) ->
  outline r1 = outline r2.
Proof.
  intros H1 H2. pose proof (Hstable fs1 fs2 name) as H.
  now rewrite H1, H2 in H.
Qed.

Lemma file_set_stable (p p' : Parser) name :
  mod_ p' = mod_ p -> file_set ParseFile p' name = file_set ParseFile p name.
Proof.
  intros Hm. unfold file_set.
  pose proof (Hstable (fset p') (fset p) name) as H.
  destruct (ParseFile (fset p') name) as [fs1 [[f1|] [e1|]]],
           (ParseFile (fset p) name) as [fs2 [[f2|] [e2|]]];
    simpl in *; try reflexivity; try discriminate.
  injection H as H.
  assert (Hp : import_path p' <$> ast.Imports f1 = import_path p <$> ast.Imports f2).
  { rewrite (import_paths_literals p' _ _ H).
    apply list_fmap_ext. intros _ spec _. now apply import_path_mod. }
  now rewrite Hp.
Qed.

Lemma parses_deps (p p' : Parser) files :
  parses ParseFile p files p' ->
  deps p' = deps p ∪ ⋃ (file_set ParseFile p <$> files) /\ mod_ p' = mod_ p.
Proof.
  induction 1 as [p|p f e p' fs p'' Hcall Hrest IH]; simpl.
  - split; [set_solver|reflexivity].
  - destruct (ParseGoImport_returned _ _ _ _ Hcall) as [Hd Hm].
    destruct IH as [IHd IHm]. split; [|congruence].
    rewrite IHd, Hd.
    assert (Hfs : file_set ParseFile p' <$> fs = file_set ParseFile p <$> fs).
    { apply list_fmap_ext. intros _ name _. now apply file_set_stable. }
    rewrite Hfs. set_solver.
Qed.

End Stable.

(** ** Claims on the parser *)

(** C3: when [ParseFile] returns an error, [ParseGoImport] returns that
    very error and the dependency map is the one before the call, also
    when [ParseFile] returned a partial file along with the error. *)
Theorem ParseGoImport_error_atomic (p : Parser) gopfile fs f err :
  ParseFile (fset p) gopfile = (fs, (f, Some err)) ->
  ParseGoImport ParseFile gopfile p = (Returned (Some err), with_fset p fs)
  /\ imports (with_fset p fs) = imports p
  /\ deps (with_fset p fs) = deps p.
Proof.
  intros H. rewrite ParseGoImport_unfold, H.
  destruct f; repeat split; reflexivity.
Qed.

(** C8: whatever a call does (return [nil], return an error or panic),
    the dependency set after it includes the set before it; and so for
    any number of calls. *)
Theorem deps_only_grow (p : Parser) :
  (forall gopfile, deps p ⊆ deps (snd (ParseGoImport ParseFile gopfile p)))
  /\ (forall files, deps p ⊆ deps (after_calls ParseFile files p)).
Proof.
  assert (Hone : forall (q : Parser) gopfile,
             deps q ⊆ deps (snd (ParseGoImport ParseFile gopfile q))).
  { intros q gopfile. rewrite ParseGoImport_unfold. unfold deps.
    destruct (ParseFile (fset q) gopfile) as [fs [[f|] [err|]]]; simpl;
      try reflexivity.
    apply subseteq_dom, insert_paths_subseteq. }
  split; [apply Hone|].
  intros files. revert p. induction files as [|f fs IH]; intros p; simpl.
  - reflexivity.
  - etrans; [apply (Hone p f)|apply IH].
Qed.

(** C5: with the files unchanged, parsing a file again after it was
    parsed with success returns [nil] again and leaves the dependency map
    as it is; and storing a key that is present changes nothing. *)
Theorem parse_twice_same_set :
  stable_files ParseFile ->
  forall (p p1 : Parser) gopfile,
    ParseGoImport ParseFile gopfile p = (Returned None, p1) ->
    (exists p2, ParseGoImport ParseFile gopfile p1 = (Returned None, p2)
                /\ imports p2 = imports p1)
    /\ (forall k, k ∈ deps p1 -> imports (snd (set_import k p1)) = imports p1).
Proof.
  intros Hstable p p1 gopfile H1. split.
  - rewrite ParseGoImport_unfold in H1. rewrite ParseGoImport_unfold.
    destruct (ParseFile (fset p) gopfile) as [fs [[f|] [err|]]] eqn:E1;
      try discriminate.
    destruct (insert_paths _ _) as [[[]| |] m1] eqn:Ei; simpl in H1;
      try discriminate.
    injection H1 as <-. simpl.
    destruct (ParseFile fs gopfile) as [fs2 r2] eqn:E2.
    pose proof (stable_result Hstable _ _ _ _ _ _ _ E1 E2) as Ho.
    destruct r2 as [[f2|] [e2|]]; try discriminate.
    injection Ho as Ho.
    assert (Hp : import_path (with_imports (with_fset p fs) m1) <$> ast.Imports f2
                 = import_path p <$> ast.Imports f).
    { rewrite <- (import_paths_literals _ _ _ Ho).
      apply list_fmap_ext. intros _ spec _. now apply import_path_mod. }
    rewrite Hp.
    pose proof (insert_paths_returned (import_path p <$> ast.Imports f) (imports p))
      as Hr. rewrite Ei in Hr. destruct (Hr eq_refl) as (ks & Hks & Hd).
    simpl in Hd.
    assert (Hsame : snd (insert_paths (import_path p <$> ast.Imports f) m1) = m1).
    { apply (insert_paths_present _ ks); [exact Hks|].
      intros k Hk. rewrite Hd. set_solver. }
    rewrite (insert_paths_all _ ks m1 Hks), Hsame.
    eexists. split; reflexivity.
  - intros k Hk. simpl. apply insert_id.
    unfold deps in Hk. apply elem_of_dom in Hk as [[] Hk]. exact Hk.
Qed.


End ParserFacts.

Lemma fixture_stable : stable_files fixture.ParseFile.
Proof.
  intros fs1 fs2 name. unfold fixture.ParseFile. simpl.
  destruct (String.eqb name "a.gop"); [reflexivity|].
  destruct (String.eqb name "b.gop"); [reflexivity|].
  destruct (String.eqb name "bad.gop"); reflexivity.
Qed.

(** The scenario of a file importing ["fmt"] and ["./util"] in module
    [example.com/app]. *)
Example fixture_scenario :
  ParseGoImport fixture.ParseFile "a.gop" fixture.parser0
  = (Returned None,
     {| fset := ["a.gop"]; mod_ := mod_ fixture.parser0;
        imports := <["example.com/app/util" := tt]> (<["fmt" := tt]> ∅) |}).
Proof. vm_compute. reflexivity. Qed.

Lemma ParseGoImport_error_atomic_witness :
  let p := snd (ParseGoImport fixture.ParseFile "a.gop" fixture.parser0) in
  ParseGoImport fixture.ParseFile "bad.gop" p
  = (Returned (Some "bad.gop:4:2: expected 'STRING', found newline"),
     with_fset p ["bad.gop"; "a.gop"])
  /\ imports (with_fset p ["bad.gop"; "a.gop"]) = imports p
  /\ deps (with_fset p ["bad.gop"; "a.gop"]) = deps p.
Proof.
  intros p.
  apply (ParseGoImport_error_atomic fixture.ParseFile p "bad.gop"
           ["bad.gop"; "a.gop"]
           (Some {| ast.Package := 100;
                    ast.Imports := [fixture.import_at 100 20 (quoted "strings")] |})).
  vm_compute. reflexivity.
Defined.

Lemma parse_twice_same_set_witness :
  let p1 := snd (ParseGoImport fixture.ParseFile "a.gop" fixture.parser0) in
  (exists p2, ParseGoImport fixture.ParseFile "a.gop" p1 = (Returned None, p2)
              /\ imports p2 = imports p1)
  /\ (forall k, k ∈ deps p1 -> imports (snd (set_import k p1)) = imports p1).
Proof.
  intros p1.
  apply (parse_twice_same_set fixture.ParseFile fixture_stable
           fixture.parser0 p1 "a.gop").
  vm_compute. reflexivity.
Defined.


Example fixture_two_orders :
  imports (after_calls fixture.ParseFile ["a.gop"; "b.gop"] fixture.parser0)
  = imports (after_calls fixture.ParseFile ["b.gop"; "a.gop"] fixture.parser0)
  /\ deps (after_calls fixture.ParseFile ["a.gop"; "b.gop"] fixture.parser0)
     = {["fmt"; "example.com/app/util"; "os"]}.
Proof. split; vm_compute; reflexivity. Qed.

(** * Further properties *)

(** ** The form of a canonical path *)

Lemma elements_no_slash p : Forall (fun e => slash ∉ e) (path_spec.elements p).
Proof.
  induction p as [|c p IH]; cbn [path_spec.elements].
  - repeat constructor. apply not_elem_of_nil.
  - destruct (Ascii.eqb_spec c slash) as [->|Hc].
    + constructor; [apply not_elem_of_nil|exact IH].
    + destruct (path_spec.elements p) as [|e es].
      * repeat constructor. apply not_elem_of_cons. split; [congruence|].
        apply not_elem_of_nil.
      * inversion_clear IH as [|? ? He Hes]. constructor; [|exact Hes].
        apply not_elem_of_cons. split; [congruence|exact He].
Qed.

Lemma resolve_names rooted ups names ns els :
  Forall is_name ns ->
  path_spec.resolve rooted ups names (ns ++ els)
  = path_spec.resolve rooted ups (rev ns ++ names) els.
Proof.
  intros Hns. revert names. induction Hns as [|e ns He _ IH]; intros names.
  - reflexivity.
  - destruct He as (He0 & _ & He1 & He2).
    cbn [app path_spec.resolve].
    rewrite !bool_decide_eq_false_2 by assumption. cbn [orb].
    rewrite IH. cbn [rev]. now rewrite <- app_assoc.
Qed.

Lemma resolve_names_end rooted ups names ns :
  Forall is_name ns ->
  path_spec.resolve rooted ups names ns
  = replicate ups [dot; dot] ++ rev names ++ ns.
Proof.
  intros Hns. rewrite <- (app_nil_r ns) at 1.
  rewrite resolve_names by exact Hns. cbn [path_spec.resolve].
  now rewrite rev_app_distr, rev_involutive.
Qed.

Lemma resolve_ups ups k els :
  path_spec.resolve false ups [] (replicate k [dot; dot] ++ els)
  = path_spec.resolve false (k + ups) [] els.
Proof.
  revert ups. induction k as [|k IH]; intros ups; [reflexivity|].
  cbn [replicate app path_spec.resolve].
  rewrite !bool_decide_eq_false_2 by discriminate. cbn [orb].
  rewrite bool_decide_eq_true_2 by reflexivity.
  rewrite IH. f_equal. lia.
Qed.

Lemma resolve_form rooted els :
  Forall (fun e => slash ∉ e) els ->
  forall ups names,
    Forall is_name names -> (rooted = true -> ups = 0) ->
    exists ups' names',
      path_spec.resolve rooted ups names els = replicate ups' [dot; dot] ++ rev names'
      /\ Forall is_name names' /\ (rooted = true -> ups' = 0).
Proof.
  induction 1 as [|e els He _ IH]; intros ups names Hn Hr.
  - exists ups, names. auto.
  - cbn [path_spec.resolve].
    destruct (bool_decide (e = [])) eqn:E0; [now apply IH|].
    destruct (bool_decide (e = [dot])) eqn:E1; [now apply IH|].
    cbn [orb].
    destruct (bool_decide (e = [dot; dot])) eqn:E2.
    + destruct names as [|n names].
      * apply IH; [constructor|]. intros ->. auto.
      * inversion_clear Hn. now apply IH.
    + apply bool_decide_eq_false in E0, E1, E2.
      apply IH; [|exact Hr]. constructor; [|exact Hn]. now repeat split.
Qed.

Lemma elements_join_slash ns :
  ns <> [] -> Forall (fun e => slash ∉ e) ns ->
  path_spec.elements (path_spec.join_slash ns) = ns.
Proof.
  destruct ns as [|e ns]; [congruence|]. intros _ Hall. cbn [path_spec.join_slash].
  revert e Hall. induction ns as [|e2 ns IH]; intros e Hall.
  - inversion_clear Hall as [|? ? He _]. cbn [flat_map].
    rewrite elements_element; [reflexivity|exact He|now left].
  - inversion_clear Hall as [|? ? He Hrest]. cbn [flat_map].
    rewrite elements_element; [|exact He|right; eauto].
    cbn [app tail_elements]. now rewrite (IH e2 Hrest).
Qed.

Lemma is_name_no_slash ns : Forall is_name ns -> Forall (fun e => slash ∉ e) ns.
Proof. intros H. eapply Forall_impl; [exact H|]. now intros e (_ & He & _). Qed.

Lemma dotdots_no_slash k :
  Forall (fun e => slash ∉ e) (replicate k [dot; dot]).
Proof. apply Forall_replicate. exact dotdot_no_slash. Qed.

(** The normal form of a path, spelled out. *)
Lemma normalize_form p :
  exists ups names,
    Forall is_name names
    /\ (path_spec.is_rooted p = true -> ups = 0)
    /\ path_spec.normalize p
       = (if path_spec.is_rooted p
          then slash :: path_spec.join_slash (replicate ups [dot; dot] ++ rev names)
          else if bool_decide (replicate ups [dot; dot] ++ rev names = [])
               then [dot]
               else path_spec.join_slash (replicate ups [dot; dot] ++ rev names)).
Proof.
  destruct (resolve_form (path_spec.is_rooted p) _ (elements_no_slash p) 0 [])
    as (ups & names & Hres & Hn & Hr); [constructor|auto|].
  exists ups, names. split; [exact Hn|]. split; [exact Hr|].
  unfold path_spec.normalize. now rewrite Hres.
Qed.

Lemma join_slash_head e ns :
  e <> [] -> head (path_spec.join_slash (e :: ns)) = head e.
Proof. destruct e; [congruence|reflexivity]. Qed.

Lemma normalize_idempotent p :
  path_spec.normalize (path_spec.normalize p) = path_spec.normalize p.
Proof.
  destruct (normalize_form p) as (ups & names & Hn & Hr & ->).
  pose proof (Forall_rev Hn) as Hrev.
  destruct (path_spec.is_rooted p).
  - rewrite (Hr eq_refl). cbn [replicate app].
    unfold path_spec.normalize.
    change (path_spec.is_rooted (slash :: ?x)) with true. cbv iota.
    rewrite elements_slash. cbn [path_spec.resolve].
    rewrite bool_decide_eq_true_2 by reflexivity. cbn [orb].
    destruct (rev names) as [|e es] eqn:E; [reflexivity|].
    rewrite elements_join_slash by (auto using is_name_no_slash; discriminate).
    now rewrite resolve_names_end by exact Hrev.
  - destruct (bool_decide_reflect (replicate ups [dot; dot] ++ rev names = []))
      as [Hnil|Hne]; [reflexivity|].
    assert (Hns : Forall (fun e => slash ∉ e) (replicate ups [dot; dot] ++ rev names)).
    { apply Forall_app. split; [apply dotdots_no_slash|now apply is_name_no_slash]. }
    assert (Hroot : path_spec.is_rooted
                      (path_spec.join_slash (replicate ups [dot; dot] ++ rev names))
                    = false).
    { unfold path_spec.is_rooted. apply bool_decide_eq_false_2.
      destruct (replicate ups [dot; dot] ++ rev names) as [|e es] eqn:E; [congruence|].
      inversion_clear Hns as [|? ? He _].
      assert (He0 : e <> []).
      { destruct ups; cbn in E.
        - rewrite E in Hrev. inversion_clear Hrev as [|? ? [H0 _] _]. exact H0.
        - injection E as <- _. discriminate. }
      rewrite join_slash_head by exact He0. destruct e as [|c e]; [congruence|].
      cbn. intros [= ->]. apply He. left. }
    unfold path_spec.normalize. rewrite Hroot.
    rewrite elements_join_slash by assumption.
    rewrite resolve_ups, resolve_names_end by exact Hrev.
    rewrite Nat.add_0_r. cbn [rev app].
    now rewrite bool_decide_eq_false_2 by exact Hne.
Qed.

Lemma bytes_app s1 s2 : bytes (s1 +:+ s2) = bytes s1 ++ bytes s2.
Proof.
  induction s1 as [|c s1 IH]; [reflexivity|].
  change (bytes (String c s1 +:+ s2)) with (c :: bytes (s1 +:+ s2)).
  now rewrite IH.
Qed.

Lemma join_slash_app ns1 ns2 :
  ns1 <> [] -> ns2 <> [] ->
  path_spec.join_slash (ns1 ++ ns2)
  = path_spec.join_slash ns1 ++ slash :: path_spec.join_slash ns2.
Proof.
  intros H1 H2. destruct ns1 as [|e1 ns1]; [congruence|].
  destruct ns2 as [|e2 ns2]; [congruence|].
  cbn [app path_spec.join_slash]. rewrite flat_map_app. cbn [flat_map].
  now rewrite <- !app_assoc.
Qed.

Lemma names_not_rooted ns tail :
  ns <> [] -> Forall is_name ns ->
  path_spec.is_rooted (path_spec.join_slash ns ++ tail) = false.
Proof.
  intros Hne Hall. destruct ns as [|e ns]; [congruence|].
  inversion_clear Hall as [|? ? (He0 & Hs & _) _].
  unfold path_spec.is_rooted. apply bool_decide_eq_false_2.
  destruct e as [|c e]; [congruence|]. cbn. intros [= ->]. apply Hs. left.
Qed.

Lemma names_of_nonempty s ns : names_of s ns -> s <> EmptyString.
Proof.
  intros (Hne & Hall & Hb) ->. destruct ns as [|e ns]; [congruence|].
  inversion_clear Hall as [|? ? (He0 & _) _].
  cbn in Hb. destruct e; [congruence|discriminate].
Qed.

Section CanonicalForm.

Context {FileSet : Type}.
Implicit Types (pr : ImportsParser FileSet) (p : string).

(** X1: the canonical path of an import path that begins with a dot is in
    normal form: cleaning it again gives it back. *)
Theorem canonicalGo_is_clean pr p :
  String.get 0 p = Some dot ->
  exists q, canonicalGo pr p = Returned q
            /\ path.Clean (bytes q) = Returned (bytes q).
Proof.
  intros Hdot. rewrite (canonicalGo_leading_dot pr p Hdot).
  eexists. split; [reflexivity|].
  unfold path_spec.normalized_join. rewrite bytes_gostring, Clean_normalize.
  now rewrite normalize_idempotent.
Qed.

(** X2: in the canonical path of an import path that begins with a dot,
    no element is empty or [.], and [..] elements come first only; under
    a rooted module path there is none. *)
Theorem canonicalGo_elements pr p :
  String.get 0 p = Some dot ->
  exists q ups names,
    canonicalGo pr p = Returned q
    /\ Forall is_name names
    /\ (if path_spec.is_rooted (bytes (gopmod.Path (mod_ pr)))
        then ups = 0 /\ bytes q = slash :: path_spec.join_slash names
        else bytes q = if bool_decide (replicate ups [dot; dot] ++ names = [])
                       then [dot]
                       else path_spec.join_slash (replicate ups [dot; dot] ++ names)).
Proof.
  intros Hdot. rewrite (canonicalGo_leading_dot pr p Hdot).
  unfold path_spec.normalized_join.
  generalize (gopmod.Path (mod_ pr)). intros root.
  assert (Hroot : path_spec.is_rooted
                    (if String.eqb root "" then bytes p
                     else bytes root ++ slash :: bytes p)
                  = path_spec.is_rooted (bytes root)).
  { destruct (String.eqb_spec root "") as [->|Hne].
    - destruct p as [|c p]; [discriminate Hdot|]. cbn in Hdot.
      injection Hdot as ->. reflexivity.
    - destruct root as [|c root]; [congruence|]. reflexivity. }
  remember (if String.eqb root "" then bytes p
            else bytes root ++ slash :: bytes p) as j eqn:Hj. clear Hj.
  destruct (normalize_form j) as (ups & names & Hn & Hr & Hnorm).
  exists (gostring (path_spec.normalize j)), ups, (rev names).
  split; [reflexivity|]. split; [now apply Forall_rev|].
  rewrite bytes_gostring, Hnorm, <- Hroot.
  destruct (path_spec.is_rooted j); [|reflexivity].
  rewrite (Hr eq_refl). auto.
Qed.

(** X3: under a module path made of names, the import path [./] followed
    by names is canonicalised to the module path, a slash, and those
    names. *)
Theorem canonicalGo_dot_slash pr rest rs ss :
  names_of (gopmod.Path (mod_ pr)) rs -> names_of rest ss ->
  canonicalGo pr ("./" +:+ rest)
  = Returned (gopmod.Path (mod_ pr) +:+ "/" +:+ rest).
Proof.
  intros Hroot Hrest. pose proof (names_of_nonempty _ _ Hroot) as Hne.
  destruct Hroot as (Hr0 & Hrn & Hrb). destruct Hrest as (Hs0 & Hsn & Hsb).
  rewrite (canonicalGo_leading_dot pr ("./" +:+ rest) eq_refl).
  unfold path_spec.normalized_join.
  rewrite (proj2 (String.eqb_neq _ _) Hne).
  f_equal. rewrite <- (gostring_bytes (_ +:+ "/" +:+ rest)). f_equal.
  rewrite !bytes_app. change (bytes "./") with [dot; slash]. change (bytes "/") with [slash].
  cbn [app]. rewrite Hrb, Hsb.
  set (j := path_spec.join_slash rs ++ slash :: dot :: slash :: path_spec.join_slash ss).
  assert (Hj : j = path_spec.join_slash (rs ++ [dot] :: ss)).
  { unfold j. rewrite join_slash_app by (auto; discriminate).
    change ([dot] :: ss) with ([[dot]] ++ ss).
    now rewrite (join_slash_app [[dot]] ss) by (auto; discriminate). }
  unfold path_spec.normalize.
  replace (path_spec.is_rooted j) with false
    by (symmetry; unfold j; now apply names_not_rooted).
  rewrite Hj, elements_join_slash.
  - rewrite resolve_names by exact Hrn. cbn [path_spec.resolve].
    rewrite (bool_decide_eq_true_2 ([dot] = [dot])) by reflexivity.
    rewrite orb_true_r.
    rewrite resolve_names_end by exact Hsn.
    cbn [replicate app]. rewrite app_nil_r, rev_involutive.
    rewrite bool_decide_eq_false_2 by (destruct rs; [congruence|discriminate]).
    now apply join_slash_app.
  - destruct rs; discriminate.
  - apply Forall_app. split; [now apply is_name_no_slash|].
    constructor; [exact dot_no_slash|now apply is_name_no_slash].
Qed.

(** X4: under a module path made of names, the import path [../] followed
    by names is canonicalised to the module path with its last name
    replaced by those names. *)
Theorem canonicalGo_dotdot_slash pr rest rs pkg ss :
  names_of (gopmod.Path (mod_ pr)) (rs ++ [pkg]) -> names_of rest ss ->
  canonicalGo pr ("../" +:+ rest)
  = Returned (gostring (path_spec.join_slash (rs ++ ss))).
Proof.
  intros Hroot Hrest. pose proof (names_of_nonempty _ _ Hroot) as Hne.
  destruct Hroot as (Hr0 & Hrn & Hrb). destruct Hrest as (Hs0 & Hsn & Hsb).
  rewrite (canonicalGo_leading_dot pr ("../" +:+ rest) eq_refl).
  unfold path_spec.normalized_join.
  rewrite (proj2 (String.eqb_neq _ _) Hne).
  do 2 f_equal.
  rewrite !bytes_app. change (bytes "../") with [dot; dot; slash].
  cbn [app]. rewrite Hrb, Hsb.
  set (j := path_spec.join_slash (rs ++ [pkg])
            ++ slash :: dot :: dot :: slash :: path_spec.join_slash ss).
  assert (Hj : j = path_spec.join_slash ((rs ++ [pkg]) ++ [dot; dot] :: ss)).
  { unfold j. rewrite (join_slash_app (rs ++ [pkg])) by (auto; discriminate).
    change ([dot; dot] :: ss) with ([[dot; dot]] ++ ss).
    now rewrite (join_slash_app [[dot; dot]] ss) by (auto; discriminate). }
  unfold path_spec.normalize.
  replace (path_spec.is_rooted j) with false
    by (symmetry; unfold j; now apply names_not_rooted).
  rewrite Hj, elements_join_slash.
  - rewrite resolve_names by exact Hrn. cbn [path_spec.resolve].
    rewrite (bool_decide_eq_false_2 ([dot; dot] = [])) by discriminate.
    rewrite (bool_decide_eq_false_2 ([dot; dot] = [dot])) by discriminate.
    rewrite (bool_decide_eq_true_2 ([dot; dot] = [dot; dot])) by reflexivity.
    cbn [orb]. rewrite rev_app_distr. cbn [rev app].
    rewrite resolve_names_end by exact Hsn.
    cbn [replicate app]. rewrite app_nil_r, rev_involutive.
    rewrite bool_decide_eq_false_2; [reflexivity|].
    destruct ss; [congruence|]. destruct rs; discriminate.
  - destruct rs; discriminate.
  - apply Forall_app. split; [now apply is_name_no_slash|].
    constructor; [exact dotdot_no_slash|now apply is_name_no_slash].
Qed.

End CanonicalForm.

Lemma no_slash_check e :
  forallb (fun c => negb (Ascii.eqb c slash)) e = true -> (slash ∉ e).
Proof.
  induction e as [|c e IH]; cbn [forallb]; [intros _; apply not_elem_of_nil|].
  intros [Hc He]%andb_true_iff. apply not_elem_of_cons. split; [|auto].
  intros <-. now rewrite Ascii.eqb_refl in Hc.
Qed.

Ltac solve_names :=
  repeat first
    [ split
    | apply Forall_cons
    | apply Forall_nil
    | discriminate
    | reflexivity
    | (apply no_slash_check; reflexivity) ].

Lemma canonicalGo_is_clean_witness :
  exists q,
    canonicalGo (fixture.parser_of "example.com/proj") "./sub/../lib/" = Returned q
    /\ path.Clean (bytes q) = Returned (bytes q).
Proof.
  exact (canonicalGo_is_clean (fixture.parser_of "example.com/proj")
           "./sub/../lib/" eq_refl).
Defined.

Lemma canonicalGo_elements_witness :
  exists q ups names,
    canonicalGo (fixture.parser_of "proj") "../../lib" = Returned q
    /\ Forall is_name names
    /\ (if path_spec.is_rooted (bytes "proj")
        then ups = 0 /\ bytes q = slash :: path_spec.join_slash names
        else bytes q
             = if bool_decide (replicate ups [dot; dot] ++ names = []) then [dot]
               else path_spec.join_slash (replicate ups [dot; dot] ++ names)).
Proof.
  exact (canonicalGo_elements (fixture.parser_of "proj") "../../lib" eq_refl).
Defined.

Lemma canonicalGo_dot_slash_witness :
  names_of "example.com/proj" [bytes "example.com"; bytes "proj"]
  /\ names_of "sub/lib" [bytes "sub"; bytes "lib"]
  /\ canonicalGo (fixture.parser_of "example.com/proj") "./sub/lib"
     = Returned "example.com/proj/sub/lib".
Proof.
  assert (H1 : names_of "example.com/proj" [bytes "example.com"; bytes "proj"])
    by solve_names.
  assert (H2 : names_of "sub/lib" [bytes "sub"; bytes "lib"]) by solve_names.
  split; [exact H1|]. split; [exact H2|].
  exact (canonicalGo_dot_slash (fixture.parser_of "example.com/proj") "sub/lib"
           _ _ H1 H2).
Defined.

Lemma canonicalGo_dotdot_slash_witness :
  names_of "example.com/proj" ([bytes "example.com"] ++ [bytes "proj"])
  /\ names_of "other/lib" [bytes "other"; bytes "lib"]
  /\ canonicalGo (fixture.parser_of "example.com/proj") "../other/lib"
     = Returned "example.com/other/lib".
Proof.
  assert (H1 : names_of "example.com/proj" ([bytes "example.com"] ++ [bytes "proj"]))
    by solve_names.
  assert (H2 : names_of "other/lib" [bytes "other"; bytes "lib"]) by solve_names.
  split; [exact H1|]. split; [exact H2|].
  exact (canonicalGo_dotdot_slash (fixture.parser_of "example.com/proj") "other/lib"
           _ _ _ H1 H2).
Defined.

(** ** The root paths that change every path beginning with a dot *)

Lemma elements_nonempty p : path_spec.elements p <> [].
Proof.
  destruct p as [|c p]; cbn [path_spec.elements]; [discriminate|].
  destruct (Ascii.eqb c slash); [discriminate|].
  destruct (path_spec.elements p); discriminate.
Qed.

Lemma elements_app_slash a b :
  path_spec.elements (a ++ slash :: b)
  = path_spec.elements a ++ path_spec.elements b.
Proof.
  induction a as [|c a IH]; [reflexivity|].
  cbn [app path_spec.elements]. rewrite IH.
  destruct (Ascii.eqb c slash); [reflexivity|].
  pose proof (elements_nonempty a) as Hne.
  destruct (path_spec.elements a) as [|e es]; [congruence|reflexivity].
Qed.

(** What [resolve] keeps of the elements read so far decides what it does
    with the rest. *)
Lemma resolve_app rooted A :
  Forall (fun e => slash ∉ e) A ->
  forall ups names,
    Forall is_name names -> (rooted = true -> ups = 0) ->
    exists ups' names',
      Forall is_name names' /\ (rooted = true -> ups' = 0)
      /\ forall B, path_spec.resolve rooted ups names (A ++ B)
                   = path_spec.resolve rooted ups' names' B.
Proof.
  induction 1 as [|e els He _ IH]; intros ups names Hn Hr.
  - exists ups, names. auto.
  - cbn [app path_spec.resolve].
    destruct (bool_decide (e = [])) eqn:E0; [now apply IH|].
    destruct (bool_decide (e = [dot])) eqn:E1; [now apply IH|].
    cbn [orb].
    destruct (bool_decide (e = [dot; dot])) eqn:E2.
    + destruct names as [|n names].
      * apply IH; [constructor|]. intros ->. auto.
      * inversion_clear Hn. now apply IH.
    + apply bool_decide_eq_false in E0, E1, E2.
      apply IH; [|exact Hr]. constructor; [|exact Hn]. now repeat split.
Qed.

Lemma resolve_pop ups names k els :
  path_spec.resolve false ups names (replicate k [dot; dot] ++ els)
  = path_spec.resolve false (ups + (k - length names)) (drop k names) els.
Proof.
  revert ups names. induction k as [|k IH]; intros ups names.
  - cbn [replicate app]. now rewrite Nat.sub_0_l, Nat.add_0_r, drop_0.
  - cbn [replicate app path_spec.resolve].
    rewrite !bool_decide_eq_false_2 by discriminate. cbn [orb].
    rewrite bool_decide_eq_true_2 by reflexivity.
    destruct names as [|n names]; rewrite IH; cbn [length drop].
    + rewrite drop_nil. f_equal. lia.
    + reflexivity.
Qed.

Lemma dotdots_names_inj a b (X Y : list (list ascii)) :
  Forall is_name X -> Forall is_name Y ->
  replicate a [dot; dot] ++ X = replicate b [dot; dot] ++ Y ->
  a = b /\ X = Y.
Proof.
  intros HX HY. revert b. induction a as [|a IH]; intros [|b]; cbn [replicate app].
  - auto.
  - intros ->. inversion_clear HX as [|? ? (_ & _ & _ & Hdd) _]. congruence.
  - intros <-. inversion_clear HY as [|? ? (_ & _ & _ & Hdd) _]. congruence.
  - intros [= H]. destruct (IH _ H) as [-> ->]. auto.
Qed.

Lemma join_slash_inj (A B : list (list ascii)) :
  A <> [] -> B <> [] ->
  Forall (fun e => slash ∉ e) A -> Forall (fun e => slash ∉ e) B ->
  path_spec.join_slash A = path_spec.join_slash B -> A = B.
Proof.
  intros HA HB HsA HsB H.
  rewrite <- (elements_join_slash A HA HsA), <- (elements_join_slash B HB HsB).
  now rewrite H.
Qed.

Lemma kept_no_slash ups (names : list (list ascii)) :
  Forall is_name names ->
  Forall (fun e => slash ∉ e) (replicate ups [dot; dot] ++ names).
Proof.
  intros Hn. apply Forall_app. split; [apply dotdots_no_slash|].
  now apply is_name_no_slash.
Qed.

Lemma kept_not_dot ups (names : list (list ascii)) :
  Forall is_name names -> replicate ups [dot; dot] ++ names <> [[dot]].
Proof.
  intros Hn. destruct ups as [|ups]; cbn [replicate app].
  - intros ->. inversion_clear Hn as [|? ? (_ & _ & Hd & _) _]. congruence.
  - discriminate.
Qed.

Lemma count_kept ups (names : list (list ascii)) :
  Forall is_name names ->
  length (filter (fun e => e = [dot; dot]) (replicate ups [dot; dot] ++ names)) = ups
  /\ length (filter (fun e => e <> [dot; dot]) (replicate ups [dot; dot] ++ names))
     = length names.
Proof.
  intros Hn. induction ups as [|ups [IH1 IH2]]; cbn [replicate app].
  - induction Hn as [|e names (_ & _ & _ & Hdd) _ [IH1 IH2]]; [split; reflexivity|].
    rewrite filter_cons_False by exact Hdd.
    rewrite filter_cons_True by exact Hdd. cbn [length]. auto.
  - rewrite filter_cons_True by reflexivity.
    rewrite filter_cons_False by (intros H; now apply H). cbn [length]. auto.
Qed.

(** What is kept of a root path, and whether the root path is neutral. *)
Lemma root_kept root :
  exists ups names,
    Forall is_name names
    /\ (path_spec.is_rooted (bytes root) = true -> ups = 0)
    /\ (forall B,
          path_spec.resolve (path_spec.is_rooted (bytes root)) 0 []
            (path_spec.elements (bytes root) ++ B)
          = path_spec.resolve (path_spec.is_rooted (bytes root)) ups names B)
    /\ neutral root
       = negb (path_spec.is_rooted (bytes root)) && (ups =? length names).
Proof.
  destruct (resolve_app (path_spec.is_rooted (bytes root)) _
              (elements_no_slash (bytes root)) 0 [])
    as (ups & names & Hn & Hr & Happ); [constructor|auto|].
  exists ups, names. split; [exact Hn|]. split; [exact Hr|]. split; [exact Happ|].
  unfold neutral. cbv zeta.
  rewrite <- (app_nil_r (path_spec.elements (bytes root))), Happ.
  cbn [path_spec.resolve].
  destruct (count_kept ups (rev names) (Forall_rev Hn)) as [-> ->].
  now rewrite length_rev.
Qed.

Lemma head_dot_get p : String.get 0 p = Some dot <-> head (bytes p) = Some dot.
Proof. destruct p as [|c p]; cbn; [split; discriminate|reflexivity]. Qed.

(** The path that [path.Join] cleans. *)
Lemma joined_bytes_eq root (P : list ascii) :
  (if String.eqb root "" then P else bytes root ++ slash :: P)
  = match bytes root with [] => P | _ :: _ => bytes root ++ slash :: P end.
Proof. destruct root; reflexivity. Qed.

Lemma unrooted_normal_elements P :
  head P = Some dot ->
  path_spec.normalize P = P ->
  P = [dot]
  \/ exists k ms,
       Forall is_name ms /\ replicate k [dot; dot] ++ ms <> []
       /\ P = path_spec.join_slash (replicate k [dot; dot] ++ ms)
       /\ path_spec.elements P = replicate k [dot; dot] ++ ms.
Proof.
  intros Hhead Hfix. destruct (normalize_form P) as (k & ms & Hms & _ & Hform).
  assert (Hroot : path_spec.is_rooted P = false).
  { unfold path_spec.is_rooted. apply bool_decide_eq_false_2. rewrite Hhead.
    discriminate. }
  rewrite Hroot, Hfix in Hform.
  destruct (bool_decide_reflect (replicate k [dot; dot] ++ rev ms = []))
    as [_|Hne]; [now left|].
  right. exists k, (rev ms). pose proof (Forall_rev Hms) as Hrev.
  split; [exact Hrev|]. split; [exact Hne|]. split; [exact Hform|].
  rewrite Hform at 1. apply elements_join_slash; [exact Hne|].
  now apply kept_no_slash.
Qed.

Lemma join_changes root P :
  head P = Some dot -> neutral root = false ->
  path_spec.normalize (if String.eqb root "" then P else bytes root ++ slash :: P)
  <> P.
Proof.
  intros Hhead Hneutral Heq.
  destruct (root_kept root) as (u & ns & Hns & Hr & Happ & Hn).
  rewrite Hneutral in Hn. rewrite joined_bytes_eq in Heq.
  assert (HP : path_spec.is_rooted P = false).
  { unfold path_spec.is_rooted. apply bool_decide_eq_false_2. rewrite Hhead.
    discriminate. }
  destruct (bytes root) as [|c r] eqn:Er.
  { (* the empty root path is neutral *)
    specialize (Happ []). cbn in Happ. cbn in Hn.
    destruct ns as [|n ns]; cbn in Happ.
    - destruct u; [discriminate Hn|discriminate Happ].
    - destruct (replicate u [dot; dot] ++ rev ns ++ [n]) eqn:E; [|discriminate].
      apply (f_equal length) in E. rewrite !length_app in E. cbn in E. lia. }
  set (J := (c :: r) ++ slash :: P) in *.
  assert (HJ : path_spec.is_rooted J = path_spec.is_rooted (c :: r)) by reflexivity.
  assert (Hfix : path_spec.normalize P = P).
  { rewrite <- Heq at 1. rewrite normalize_idempotent. exact Heq. }
  unfold path_spec.normalize in Heq. rewrite HJ in Heq.
  unfold J in Heq. rewrite elements_app_slash, Happ in Heq.
  destruct (path_spec.is_rooted (c :: r)) eqn:Hrooted.
  { rewrite <- Heq in Hhead. cbn in Hhead. discriminate. }
  symmetry in Hn. cbn [negb andb] in Hn. apply Nat.eqb_neq in Hn.
  destruct (unrooted_normal_elements P Hhead Hfix)
    as [->|(k & ms & Hms & Hne & HPj & Hels)].
  - cbn [path_spec.elements path_spec.resolve] in Heq.
    change (Ascii.eqb dot slash) with false in Heq. cbv iota in Heq.
    cbn [path_spec.resolve] in Heq.
    rewrite (bool_decide_eq_true_2 ([dot] = [dot])) in Heq by reflexivity.
    rewrite orb_true_r in Heq.
    destruct (bool_decide_reflect (replicate u [dot; dot] ++ rev ns = []))
      as [Hnil|Hnn].
    + apply (f_equal length) in Hnil.
      rewrite length_app, length_replicate, length_rev in Hnil. cbn in Hnil. lia.
    + apply (f_equal path_spec.elements) in Heq.
      rewrite elements_join_slash in Heq
        by (auto using kept_no_slash, Forall_rev).
      now apply (kept_not_dot u (rev ns) (Forall_rev Hns)).
  - rewrite Hels, resolve_pop, resolve_names_end in Heq by exact Hms.
    set (u' := u + (k - length ns)) in *.
    assert (Hkept : Forall is_name (rev (drop k ns) ++ ms)).
    { apply Forall_app. split; [|exact Hms]. apply Forall_rev.
      now apply Forall_drop. }
    destruct (bool_decide_reflect
                (replicate u' [dot; dot] ++ rev (drop k ns) ++ ms = []))
      as [Hnil|Hnn].
    + rewrite <- Heq in Hels. cbn in Hels.
      now apply (kept_not_dot k ms Hms).
    + rewrite HPj in Heq.
      apply join_slash_inj in Heq; [|exact Hnn|exact Hne
                                    |now apply kept_no_slash
                                    |now apply kept_no_slash].
      apply dotdots_names_inj in Heq as [Hu Hl]; [|exact Hkept|exact Hms].
      apply (f_equal length) in Hl.
      rewrite length_app, length_rev, length_drop in Hl. unfold u' in Hu. lia.
Qed.

Lemma join_unchanged root :
  neutral root = true ->
  exists P,
    head P = Some dot
    /\ path_spec.normalize
         (if String.eqb root "" then P else bytes root ++ slash :: P) = P.
Proof.
  intros Hneutral.
  destruct (root_kept root) as (u & ns & Hns & Hr & Happ & Hn).
  rewrite Hneutral in Hn. symmetry in Hn.
  apply andb_true_iff in Hn as [Hrooted Hu].
  apply negb_true_iff in Hrooted. apply Nat.eqb_eq in Hu.
  set (L := replicate (S u) [dot; dot]).
  set (P := path_spec.join_slash L).
  assert (HL : L <> []) by discriminate.
  assert (HsL : Forall (fun e => slash ∉ e) L) by apply dotdots_no_slash.
  assert (Hhead : head P = Some dot) by reflexivity.
  assert (HP : path_spec.is_rooted P = false) by reflexivity.
  assert (Hels : path_spec.elements P = L) by now apply elements_join_slash.
  assert (Hres : path_spec.resolve false u ns (path_spec.elements P) = L).
  { rewrite Hels. unfold L.
    pose proof (resolve_pop u ns (S u) []) as Hpop.
    rewrite app_nil_r in Hpop. rewrite Hpop. cbn [path_spec.resolve].
    rewrite drop_ge by lia. cbn [rev]. rewrite app_nil_r. f_equal. lia. }
  exists P. split; [exact Hhead|].
  rewrite joined_bytes_eq.
  destruct (bytes root) as [|c r] eqn:Er.
  - specialize (Happ (path_spec.elements P)). cbn [path_spec.elements app] in Happ.
    cbn [path_spec.resolve] in Happ.
    rewrite (bool_decide_eq_true_2 ([] = [])) in Happ by reflexivity.
    cbn [orb] in Happ. rewrite Hrooted in Happ.
    unfold path_spec.normalize. rewrite HP, Happ, Hres.
    now rewrite bool_decide_eq_false_2 by exact HL.
  - unfold path_spec.normalize.
    change (path_spec.is_rooted ((c :: r) ++ slash :: P))
      with (path_spec.is_rooted (c :: r)).
    rewrite elements_app_slash, Happ, Hrooted, Hres.
    now rewrite bool_decide_eq_false_2 by exact HL.
Qed.

Lemma names_not_neutral root rs : names_of root rs -> neutral root = false.
Proof.
  intros (Hne & Hall & Hb).
  destruct (root_kept root) as (u & ns & Hns & Hr & Happ & ->).
  pose proof (names_not_rooted rs [] Hne Hall) as Hroot.
  rewrite app_nil_r in Hroot.
  specialize (Happ []). rewrite app_nil_r in Happ.
  rewrite Hb in Happ |- *. rewrite Hroot in Happ |- *.
  rewrite elements_join_slash in Happ by (auto using is_name_no_slash).
  rewrite resolve_names_end in Happ by exact Hall. cbn in Happ.
  change rs with (replicate 0 [dot; dot] ++ rs) in Happ.
  apply dotdots_names_inj in Happ as [<- Hl];
    [|exact Hall|now apply Forall_rev].
  cbn [negb andb]. apply Nat.eqb_neq. apply (f_equal length) in Hl.
  rewrite length_rev in Hl. destruct rs; [congruence|cbn in Hl; lia].
Qed.

Section BareDotPrefix.

Context {FileSet : Type}.
Implicit Types (pr : ImportsParser FileSet) (p : string).

Lemma canonicalGo_joins pr p :
  String.get 0 p = Some dot ->
  canonicalGo pr p = path.Join [gopmod.Path (mod_ pr); p].
Proof.
  intros Hdot. unfold canonicalGo. now rewrite (proj2 (HasPrefix_dot p) Hdot).
Qed.

Lemma canonicalGo_changes pr p :
  String.get 0 p = Some dot ->
  neutral (gopmod.Path (mod_ pr)) = false ->
  canonicalGo pr p <> Returned p.
Proof.
  intros Hdot Hneutral. rewrite (canonicalGo_leading_dot pr p Hdot).
  intros [= Heq]. unfold path_spec.normalized_join in Heq.
  apply (f_equal bytes) in Heq. rewrite bytes_gostring in Heq.
  revert Heq. apply join_changes; [now apply head_dot_get|exact Hneutral].
Qed.

Lemma canonicalGo_unchanged pr :
  neutral (gopmod.Path (mod_ pr)) = true ->
  exists p, String.get 0 p = Some dot /\ canonicalGo pr p = Returned p.
Proof.
  intros Hneutral.
  destruct (join_unchanged _ Hneutral) as (P & Hhead & Hfix).
  exists (gostring P).
  assert (Hdot : String.get 0 (gostring P) = Some dot)
    by (apply head_dot_get; now rewrite bytes_gostring).
  split; [exact Hdot|].
  rewrite (canonicalGo_leading_dot pr _ Hdot).
  unfold path_spec.normalized_join. rewrite bytes_gostring. now rewrite Hfix.
Qed.

(** C10, amended: every raw import path whose first byte is a dot, with
    or without a [./] or [../] marker, takes the branch of [path.Join] and
    becomes the normalised slash-join of the module's root path with it.
    Every such path is changed by that exactly when the root path is not
    neutral: under a neutral root path (the empty one, [.], [a/..],
    [../a]) some path that begins with a dot is returned as it is.  A
    root path made of names is not neutral. *)
Theorem canonicalGo_bare_dot_prefix pr :
  (forall p,
     String.get 0 p = Some dot ->
     canonicalGo pr p = path.Join [gopmod.Path (mod_ pr); p]
     /\ canonicalGo pr p
        = Returned (path_spec.normalized_join (gopmod.Path (mod_ pr)) p))
  /\ ((forall p, String.get 0 p = Some dot -> canonicalGo pr p <> Returned p)
      <-> neutral (gopmod.Path (mod_ pr)) = false)
  /\ (forall rs, names_of (gopmod.Path (mod_ pr)) rs ->
                 neutral (gopmod.Path (mod_ pr)) = false).
Proof.
  split; [|split].
  - intros p Hdot. split; [now apply canonicalGo_joins|].
    now apply canonicalGo_leading_dot.
  - split.
    + intros Hall. destruct (neutral (gopmod.Path (mod_ pr))) eqn:E; [|reflexivity].
      destruct (canonicalGo_unchanged pr E) as (p & Hdot & Hp).
      now destruct (Hall p Hdot).
    + intros Hneutral p Hdot. now apply canonicalGo_changes.
  - intros rs. apply names_not_neutral.
Qed.

End BareDotPrefix.

Lemma canonicalGo_bare_dot_prefix_witness :
  canonicalGo (fixture.parser_of "example.com/proj") ".foo"
  = path.Join ["example.com/proj"; ".foo"]
  /\ canonicalGo (fixture.parser_of "example.com/proj") ".foo"
     = Returned "example.com/proj/.foo"
  /\ neutral "example.com/proj" = false
  /\ canonicalGo (fixture.parser_of "example.com/proj") ".foo" <> Returned ".foo".
Proof.
  assert (Hneutral : neutral "example.com/proj" = false) by (vm_compute; reflexivity).
  split;
    [exact (proj1 (proj1 (canonicalGo_bare_dot_prefix
                            (fixture.parser_of "example.com/proj")) ".foo" eq_refl))|].
  split;
    [exact (proj2 (proj1 (canonicalGo_bare_dot_prefix
                            (fixture.parser_of "example.com/proj")) ".foo" eq_refl))|].
  split; [exact Hneutral|].
  exact (proj2 (proj1 (proj2 (canonicalGo_bare_dot_prefix
                                (fixture.parser_of "example.com/proj"))))
           Hneutral ".foo" eq_refl).
Defined.

(** C10 as stated fails: under the empty root path [.foo] is returned as
    it is, and so is [...x] under the root path [.]; both root paths are
    neutral. *)
Lemma canonicalGo_neutral_root_counterexample :
  String.get 0 ".foo" = Some dot
  /\ canonicalGo (fixture.parser_of EmptyString) ".foo" = Returned ".foo"
  /\ neutral EmptyString = true
  /\ String.get 0 "...x" = Some dot
  /\ canonicalGo (fixture.parser_of ".") "...x" = Returned "...x"
  /\ neutral "." = true.
Proof. repeat split; vm_compute; reflexivity. Qed.

Example neutral_sibling :
  neutral "../a" = true
  /\ canonicalGo (fixture.parser_of "../a") "../x" = Returned "../x".
Proof. split; vm_compute; reflexivity. Qed.

Example neutral_rooted : neutral "/a/.." = false.
Proof. vm_compute. reflexivity. Qed.

(** ** What [importGo] records *)

Lemma goToString_outcome l :
  (exists s, goToString l = Returned s) \/ goToString l = Panicked toString_failed.
Proof.
  unfold goToString.
  destruct (decide (ast.Kind l = token.STRING)) as [_|_]; [|now right].
  destruct (Unquote_returns (ast.Value l)) as [[out [err|]] ->]; cbn [obind];
    [now right|left; eauto].
Qed.

Section ImportGo.

Context {FileSet : Type}.
Implicit Types (p : ImportsParser FileSet).

Lemma canonicalGo_value p s :
  canonicalGo p s
  = Returned (if bool_decide (String.get 0 s = Some dot)
              then path_spec.normalized_join (gopmod.Path (mod_ p)) s
              else s).
Proof.
  destruct (bool_decide_reflect (String.get 0 s = Some dot)) as [Hdot|Hdot].
  - now apply canonicalGo_leading_dot.
  - unfold canonicalGo. destruct (strings.HasPrefix s ".") eqn:E; [|reflexivity].
    now apply HasPrefix_dot in E.
Qed.

Lemma importGo_unfold spec p :
  importGo spec p =
  match goToString (ast.Path spec) with
  | Returned s =>
      (Returned tt,
       with_imports p
         (<[(if bool_decide (String.get 0 s = Some dot)
             then path_spec.normalized_join (gopmod.Path (mod_ p)) s
             else s) := tt]> (imports p)))
  | Panicked v => (Panicked v, p)
  | OutOfFuel => (OutOfFuel, p)
  end.
Proof.
  unfold importGo, bind.
  destruct (goToString (ast.Path spec)) as [s| |]; cbn [obind]; try reflexivity.
  now rewrite canonicalGo_value.
Qed.

(** X5: [importGo] is all or nothing: it stores one key and returns, or
    it panics with [goToString]'s message and leaves the parser as it
    was. *)
Theorem importGo_all_or_nothing spec p :
  (exists k, importGo spec p
             = (Returned tt, with_imports p (<[k := tt]> (imports p))))
  \/ importGo spec p = (Panicked toString_failed, p).
Proof.
  rewrite importGo_unfold.
  destruct (goToString_outcome (ast.Path spec)) as [[s ->]| ->]; [left|right];
    eauto.
Qed.

(** X6: for the import of a literal that denotes [s], [importGo] stores
    [s] itself when [s] does not begin with a dot, and otherwise the
    normal form of the module path joined with [s]; nothing else of the
    parser changes. *)
Theorem importGo_literal lit s p :
  escape_spec.denotes lit s ->
  importGo (import_of lit) p
  = (Returned tt,
     with_imports p
       (<[(if bool_decide (String.get 0 (gostring s) = Some dot)
           then path_spec.normalized_join (gopmod.Path (mod_ p)) (gostring s)
           else gostring s) := tt]> (imports p))).
Proof.
  intros Hden. rewrite importGo_unfold. cbn [import_of ast.Path].
  now rewrite (goToString_literal 0 lit s Hden).
Qed.

End ImportGo.

(** ** The outcomes of [ParseGoImport] and what it keeps *)

Section ParseGoImportMore.

Context {FileSet error : Type}.
Variable ParseFile :
  FileSet -> string -> FileSet * (option ast.File * option error).
Implicit Types (p : ImportsParser FileSet).

Lemma import_path_outcome p spec :
  (exists k, import_path p spec = Returned k)
  \/ import_path p spec = Panicked toString_failed.
Proof.
  unfold import_path.
  destruct (goToString_outcome (ast.Path spec)) as [[s ->]| ->]; cbn [obind];
    [left|right; reflexivity].
  rewrite canonicalGo_value. eauto.
Qed.

Lemma insert_paths_outcome p imps (m : gmap string ()) :
  fst (insert_paths (import_path p <$> imps) m) = Returned tt
  \/ fst (insert_paths (import_path p <$> imps) m) = Panicked toString_failed.
Proof.
  revert m. induction imps as [|spec imps IH]; intros m; cbn; [now left|].
  destruct (import_path_outcome p spec) as [[k ->]| ->]; [apply IH|now right].
Qed.

(** X8: the outcomes of [ParseGoImport]: the error of the parser when
    there is one, whatever else the parser returns; a panic on the [nil]
    file when the parser returns neither a file nor an error; and for a
    file without error, [nil] or the panic of [goToString].  There is no
    other outcome. *)
Theorem ParseGoImport_outcomes p gopfile :
  match snd (ParseFile (fset p) gopfile) with
  | (_, Some err) => fst (ParseGoImport ParseFile gopfile p) = Returned (Some err)
  | (None, None) =>
      fst (ParseGoImport ParseFile gopfile p) = Panicked nil_dereference
  | (Some _, None) =>
      fst (ParseGoImport ParseFile gopfile p) = Returned None
      \/ fst (ParseGoImport ParseFile gopfile p) = Panicked toString_failed
  end.
Proof.
  rewrite ParseGoImport_unfold.
  destruct (ParseFile (fset p) gopfile) as [fs [[f|] [err|]]]; cbn [fst snd];
    try reflexivity.
  destruct (insert_paths_outcome p (ast.Imports f) (imports p)) as [-> | ->];
    auto.
Qed.

(** X9: no call changes the module of the parser, whatever the outcomes
    of the calls. *)
Theorem ParseGoImport_keeps_module files p :
  mod_ (after_calls ParseFile files p) = mod_ p.
Proof.
  revert p. induction files as [|f files IH]; intros p; [reflexivity|].
  cbn [after_calls]. rewrite IH, ParseGoImport_unfold.
  destruct (ParseFile (fset p) f) as [fs [[fl|] [err|]]]; reflexivity.
Qed.

End ParseGoImportMore.

Ltac solve_denotes :=
  constructor;
  repeat (apply escape_spec.interpreted_ascii;
          [reflexivity|discriminate|discriminate|discriminate|]);
  constructor.

Lemma importGo_literal_witness :
  escape_spec.denotes (dquote :: bytes "./util" ++ [dquote]) (bytes "./util")
  /\ importGo (import_of (dquote :: bytes "./util" ++ [dquote])) fixture.parser0
     = (Returned tt,
        with_imports fixture.parser0
          (<[(if bool_decide (String.get 0 (gostring (bytes "./util")) = Some dot)
              then path_spec.normalized_join
                     (gopmod.Path (mod_ fixture.parser0)) (gostring (bytes "./util"))
              else gostring (bytes "./util")) := tt]> (imports fixture.parser0))).
Proof.
  assert (H : escape_spec.denotes (dquote :: bytes "./util" ++ [dquote])
                (bytes "./util")) by solve_denotes.
  split; [exact H|].
  exact (importGo_literal _ _ fixture.parser0 H).
Defined.

(** ** What [goToString] refuses *)

Lemma index_split s c e :
  strconv.index s c = Some e -> s = take e s ++ c :: drop (S e) s.
Proof.
  revert e. induction s as [|x s IH]; intros e; [discriminate|]. cbn [strconv.index].
  destruct (Ascii.eqb x c) eqn:E.
  - intros [= <-]. apply Ascii.eqb_eq in E as ->. reflexivity.
  - destruct (strconv.index s c) as [e'|]; [|discriminate].
    intros [= <-]. cbn [take drop app]. f_equal. now apply IH.
Qed.

Lemma index_first body c tail :
  exists e, strconv.index (body ++ c :: tail) c = Some e /\ e <= length body.
Proof.
  induction body as [|x body (e & IH & Hle)]; cbn [app strconv.index].
  - rewrite Ascii.eqb_refl. exists 0. split; [reflexivity|simpl; lia].
  - destruct (Ascii.eqb x c); [exists 0; split; [reflexivity|lia]|].
    rewrite IH. exists (S e). split; [reflexivity|simpl; lia].
Qed.

Lemma UnquoteChar_suffix s q r mb rem :
  strconv.UnquoteChar s q = inl (r, mb, rem) -> rem `suffix_of` s.
Proof.
  unfold strconv.UnquoteChar. intros H.
  repeat case_match; simplify_eq;
    auto using suffix_drop, suffix_cons_r, (reflexivity (R := suffix)).
Qed.

Lemma unquote_loop_suffix fuel in_ q u buf buf' rem :
  strconv.unquote_loop fuel in_ q u buf = Returned (Some (buf', rem)) ->
  rem `suffix_of` in_.
Proof.
  revert in_ buf. induction fuel as [|fuel IH]; intros [|c in1] buf;
    cbn [strconv.unquote_loop]; try (intros [= _ <-]; reflexivity).
  - destruct (Ascii.eqb c q); [intros [= _ <-]; reflexivity|discriminate].
  - destruct (Ascii.eqb c q); [intros [= _ <-]; reflexivity|].
    destruct (strconv.UnquoteChar (c :: in1) q) as [[[r mb] rem']|] eqn:E;
      [|discriminate].
    apply UnquoteChar_suffix in E.
    destruct (Ascii.eqb c newline); [discriminate|].
    destruct (Ascii.eqb q squote).
    + intros [= _ <-]. exact E.
    + intros H. apply IH in H. destruct H as [k1 ->]. destruct E as [k2 E].
      exists (k2 ++ k1). now rewrite E, app_assoc.
Qed.

Lemma unquote_enclosed in_ u out rem :
  strconv.unquote in_ u = Returned (out, rem, None) ->
  exists q body, q ∈ [dquote; squote; bquote] /\ in_ = q :: body ++ q :: rem.
Proof.
  unfold strconv.unquote.
  destruct in_ as [|q [|c in1]]; try discriminate.
  destruct (strconv.index (c :: in1) q) as [e|] eqn:Hi; [|discriminate].
  pose proof (index_split _ _ _ Hi) as Hsplit.
  assert (Hdrop : drop (e + 2) (q :: c :: in1) = drop (S e) (c :: in1))
    by (now replace (e + 2) with (S (S e)) by lia).
  destruct (Ascii.eqb q bquote) eqn:Hb.
  { apply Ascii.eqb_eq in Hb as ->. intros [= _ <-].
    exists bquote, (take e (c :: in1)). rewrite Hdrop, <- Hsplit.
    split; [set_solver|reflexivity]. }
  destruct (Ascii.eqb q dquote || Ascii.eqb q squote) eqn:Hq; [|discriminate].
  assert (Hin : q ∈ [dquote; squote; bquote]).
  { apply orb_true_iff in Hq as [Hq|Hq]; apply Ascii.eqb_eq in Hq as ->;
      set_solver. }
  match goal with
  | |- (let* simple := ?o in _) = _ -> _ => destruct o as [[|]| |]
  end; cbn [obind]; try discriminate.
  { destruct u; intros [= _ <-]; exists q, (take e (c :: in1));
      rewrite Hdrop, <- Hsplit; auto. }
  destruct (strconv.unquote_loop (length (c :: in1)) (c :: in1) q u [])
    as [[[buf [|c' rest]]|]| |] eqn:Hloop; cbn [obind]; try discriminate.
  apply unquote_loop_suffix in Hloop as [body Hbody].
  destruct (Ascii.eqb c' q) eqn:Hc; [|discriminate].
  apply Ascii.eqb_eq in Hc as ->.
  destruct u; intros [= _ <-]; exists q, body; rewrite Hbody; auto.
Qed.

(** X10: [goToString] returns only for a token of kind STRING whose text
    begins and ends with one and the same quote character (double,
    single or back quote); every other token makes it panic. *)
Theorem goToString_enclosed l s :
  goToString l = Returned s ->
  ast.Kind l = token.STRING
  /\ exists q body, q ∈ [dquote; squote; bquote]
                    /\ bytes (ast.Value l) = q :: body ++ [q].
Proof.
  unfold goToString.
  destruct (decide (ast.Kind l = token.STRING)) as [Hk|_]; [|discriminate].
  unfold strconv.Unquote.
  destruct (strconv.unquote (bytes (ast.Value l)) true)
    as [[[out rem] err]| |] eqn:Hu; cbn [obind]; try discriminate.
  destruct rem as [|c rem]; cbn [length Nat.ltb Nat.leb]; [|discriminate].
  destruct err as [err|]; [discriminate|].
  intros _. split; [exact Hk|].
  destruct (unquote_enclosed _ _ _ _ Hu) as (q & body & Hq & Hv). eauto.
Qed.

Lemma goToString_enclosed_witness :
  goToString (string_token 0 (dquote :: bytes "fmt" ++ [dquote])) = Returned "fmt"
  /\ ast.Kind (string_token 0 (dquote :: bytes "fmt" ++ [dquote])) = token.STRING
  /\ exists q body,
       q ∈ [dquote; squote; bquote]
       /\ bytes (ast.Value (string_token 0 (dquote :: bytes "fmt" ++ [dquote])))
          = q :: body ++ [q].
Proof.
  split; [reflexivity|].
  apply (goToString_enclosed _ "fmt"). reflexivity.
Defined.

Lemma unquote_trailing q body extra s :
  q = dquote /\ escape_spec.interpreted body s \/ q = bquote ->
  extra <> [] ->
  exists out rem err,
    strconv.unquote (q :: body ++ q :: extra) true = Returned (out, rem, err)
    /\ (rem <> [] \/ err <> None).
Proof.
  intros Hq Hextra.
  destruct (index_first body q extra) as (e & Hi & Hle).
  assert (Hrem : drop (e + 2) (q :: body ++ q :: extra) <> []).
  { intros Hnil. apply (f_equal length) in Hnil.
    rewrite length_drop in Hnil. cbn [length] in Hnil.
    rewrite length_app in Hnil. cbn [length] in Hnil.
    destruct extra; [congruence|]. cbn [length] in Hnil. lia. }
  unfold strconv.unquote.
  destruct (body ++ q :: extra) as [|c in1] eqn:E; [destruct body; discriminate|].
  rewrite Hi.
  destruct Hq as [[-> Hint]| ->].
  - change (Ascii.eqb dquote bquote) with false.
    change (Ascii.eqb dquote dquote || Ascii.eqb dquote squote) with true.
    cbv iota.
    match goal with
    | |- context [let* simple := ?o in _] =>
        assert (Hs : exists b, o = Returned b)
    end.
    { destruct (_ && _); [|eauto]. change (Ascii.eqb dquote dquote) with true.
      cbv iota. apply ValidString_loop_returns, Nat.le_refl. }
    destruct Hs as [[|] ->]; cbn [obind].
    + eauto 6.
    + rewrite <- E.
      rewrite (unquote_loop_interpreted body s Hint _ [] extra)
        by (rewrite length_app; lia).
      cbn [obind]. change (Ascii.eqb dquote dquote) with true. cbv iota.
      eauto 6.
  - change (Ascii.eqb bquote bquote) with true. cbv iota. eauto 6.
Qed.

(** X11: text after the closing quote of a literal is refused: for a
    literal in the forms of the specification followed by at least one
    more byte, [goToString] panics. *)
Theorem goToString_trailing_text pos lit s extra :
  escape_spec.denotes lit s -> extra <> [] ->
  goToString (string_token pos (lit ++ extra)) = Panicked toString_failed.
Proof.
  intros Hden Hextra. unfold goToString, string_token. cbn [ast.Kind ast.Value].
  destruct (decide (token.STRING = token.STRING)) as [_|Hne]; [|congruence].
  unfold strconv.Unquote. rewrite bytes_gostring.
  assert (Hu : exists out rem err,
    strconv.unquote (lit ++ extra) true = Returned (out, rem, err)
    /\ (rem <> [] \/ err <> None)).
  { destruct Hden as [body s Hint|body Hnot]; cbn [app]; rewrite <- app_assoc;
      cbn [app].
    - apply (unquote_trailing dquote body extra s); auto.
    - apply (unquote_trailing bquote body extra []); auto. }
  destruct Hu as (out & rem & err & -> & Hbad). cbn [obind].
  destruct rem as [|c rem]; cbn [length Nat.ltb Nat.leb]; [|reflexivity].
  destruct err; [reflexivity|]. destruct Hbad; congruence.
Qed.

Lemma goToString_trailing_text_witness :
  escape_spec.denotes (dquote :: bytes "fmt" ++ [dquote]) (bytes "fmt")
  /\ goToString (string_token 0 ((dquote :: bytes "fmt" ++ [dquote]) ++ bytes "x"))
     = Panicked toString_failed.
Proof.
  assert (H : escape_spec.denotes (dquote :: bytes "fmt" ++ [dquote]) (bytes "fmt")).
  { constructor. repeat (apply escape_spec.interpreted_ascii;
      [reflexivity|discriminate|discriminate|discriminate|]).
    constructor. }
  split; [exact H|].
  apply (goToString_trailing_text 0 _ (bytes "fmt") (bytes "x") H). discriminate.
Defined.

(** * qfmt *)

(** ** The files that are formatted *)

Lemma HasSuffix_spec s suffix :
  qfmt.HasSuffix s suffix = true <-> exists stem, s = stem +:+ suffix.
Proof.
  unfold qfmt.HasSuffix. rewrite andb_true_iff, bool_decide_eq_true, Nat.leb_le.
  rewrite <- !bytes_length. split.
  - intros [Hle Hd]. exists (gostring (take (length (bytes s) - length (bytes suffix)) (bytes s))).
    rewrite <- (gostring_bytes s) at 1. rewrite <- (gostring_bytes (_ +:+ _)).
    f_equal. rewrite bytes_app, bytes_gostring.
    etrans; [|apply (f_equal (app _) Hd)]. symmetry. apply take_drop.
  - intros [stem ->]. rewrite bytes_app, length_app. split; [lia|].
    replace (length (bytes stem) + length (bytes suffix) - length (bytes suffix))
      with (length (bytes stem)) by lia.
    apply drop_app_length.
Qed.

(** X12: [isGopFile] accepts exactly the entries that are not directories
    and whose name ends in [.gop] and does not begin with a dot; the
    name [.gop] itself is refused. *)
Theorem isGopFile_spec f :
  qfmt.isGopFile f = true
  <-> os.IsDir f = false
      /\ String.get 0 (os.Name f) <> Some dot
      /\ exists stem, stem <> EmptyString /\ os.Name f = stem +:+ ".gop".
Proof.
  unfold qfmt.isGopFile. rewrite !andb_true_iff, !negb_true_iff, HasSuffix_spec.
  assert (Hdot : strings.HasPrefix (os.Name f) "." = false
                 <-> String.get 0 (os.Name f) <> Some dot).
  { rewrite <- HasPrefix_dot. symmetry. apply not_true_iff_false. }
  rewrite Hdot. split.
  - intros [[Hd Hp] [stem Hs]]. repeat split; [exact Hd|exact Hp|].
    exists stem. split; [|exact Hs]. intros ->. apply Hp. now rewrite Hs.
  - intros (Hd & Hp & stem & _ & Hs). eauto.
Qed.

(** ** Runs of the command *)

Import qfmt.

Section Runs.

Context {platform : Platform}.

Lemma exec_bind {A B} (p : prog A) (k : A -> prog B) tr r :
  exec (bind p k) tr r
  <-> (exists a tr1 tr2, tr = tr1 ++ tr2 /\ exec p tr1 (Returned a)
                         /\ exec (k a) tr2 r)
      \/ (exists v, r = Panicked v /\ exec p tr (Panicked v)).
Proof.
  revert tr. induction p as [a|v|X c h IH]; intros tr; cbn [bind exec].
  - split.
    + intros Hk. left. exists a, [], tr. auto.
    + intros [(a' & tr1 & tr2 & -> & [-> Ha] & Hk)|(v & _ & _ & [=])].
      injection Ha as <-. exact Hk.
  - split.
    + intros [-> ->]. right. eauto.
    + intros [(a' & tr1 & tr2 & _ & [_ [=]] & _)|(v' & -> & -> & Hv)].
      injection Hv as <-. auto.
  - split.
    + intros (x & tr' & -> & H0). apply IH in H0
        as [(a & tr1 & tr2 & -> & H1 & H2)|(v & -> & H1)].
      * left. exists a, (Event c x :: tr1), tr2. cbn [app]. eauto 8.
      * right. eauto 8.
    + intros [(a & tr1 & tr2 & -> & (x & tr' & -> & H1) & H2)
             |(v & -> & x & tr' & -> & H)];
        exists x; eexists; (split; [reflexivity|]); apply IH; eauto 8.
Qed.

Lemma run_exec {A} sys past (p : prog A) :
  exec p (snd (run sys past p)) (fst (run sys past p)).
Proof.
  revert past. induction p as [a|v|X c h IH]; intros past; cbn [run exec];
    [auto..|].
  specialize (IH (sys X past c) (past ++ [Event c (sys X past c)])).
  destruct (run sys (past ++ [Event c (sys X past c)]) (h (sys X past c)))
    as [r tr]. cbn [fst snd] in *. eauto.
Qed.

End Runs.

(** Case analysis on a run: on the answers of the calls and on the tests
    of the program. *)
Ltac exec_cases H :=
  repeat first
    [ progress cbn in H
    | match type of H with
      | _ /\ _ => destruct H as [-> ->]
      | exists _, _ => destruct H as (? & ? & -> & H)
      | context [match ?s with _ => _ end] => destruct s eqn:?
      end ].

(** The ways to cut a trace at one of its events. *)
Ltac cut_trace pre Hcut :=
  repeat (destruct pre as [|? pre]; cbn [app] in Hcut;
          [ injection Hcut as <- <- | injection Hcut as <- Hcut ]);
  try discriminate Hcut;
  try (destruct pre; discriminate Hcut).

(** The answers that a test of the program has fixed. *)
Ltac fix_answers :=
  repeat match goal with
         | Hm : match ?x with _ => _ end = _ |- _ =>
             destruct x; try discriminate Hm; subst
         end.

Ltac trace_in := solve [eauto 16 using list_elem_of_here, list_elem_of_further].

(** ** Formatting one file *)

Section ProcessFile.

Context {platform : Platform}.

Implicit Types (g : globals) (tr : list event).

(** X13: a run of [processFile] closes every file it has opened, the
    source file and the backup file, once, whatever fails in between. *)
Theorem processFile_closes_opened filename in_ out stdin g tr r :
  exec (processFile filename in_ out stdin g) tr r ->
  closed tr ≡ₚ opened tr.
Proof.
  unfold processFile, format_from, backupFile. intros H.
  exec_cases H; cbn; try reflexivity; apply Permutation_swap.
Qed.

(** X14: [processFile] never panics, and it touches the file system
    exactly when [-w] is set and formatting changes the text that was
    read; the exit code is then set to 1, and in every other run the
    package variables are left as they were. *)
Theorem processFile_changes filename in_ out stdin g tr r :
  exec (processFile filename in_ out stdin g) tr r ->
  (existsb changes_files tr = true
   <-> write g = true
       /\ exists src res, read tr = [src] /\ Source src = inl res /\ src <> res)
  /\ exists err,
       r = Returned (err, if existsb changes_files tr then set_exitCode 1 g else g).
Proof.
  unfold processFile, format_from, backupFile. intros H.
  destruct g as [[|] code].
  all: exec_cases H; cbn.
  all: (split; [|eexists; reflexivity]).
  all: split;
    [ first
        [ discriminate
        | intros _; split; [reflexivity|]; eexists _, _;
          split; [reflexivity|]; split; [eassumption|];
          match goal with
          | Hb : negb (bool_decide _) = true |- _ =>
              apply negb_true_iff, bool_decide_eq_false in Hb; exact Hb
          end ]
    | intros [Hw (src & res & Hr & Hs & Hne)];
      first
        [ reflexivity
        | discriminate Hw
        | discriminate Hr
        | injection Hr as <-;
          match goal with
          | Hb : negb (bool_decide _) = false |- _ =>
              apply negb_false_iff, bool_decide_eq_true in Hb
          | _ => idtac
          end; congruence ] ].
Qed.

(** X15: [processFile] writes to [out] at most once, and what it writes
    is the formatted text of what it has read; with [-w] it writes
    nothing to [out], and without [-w] it writes whenever it returns no
    error. *)
Theorem processFile_output filename in_ out stdin g tr r :
  exec (processFile filename in_ out stdin g) tr r ->
  (written tr = []
   \/ write g = false
      /\ exists src res,
           read tr = [src] /\ Source src = inl res /\ written tr = [(out, res)])
  /\ (write g = false -> (exists g', r = Returned (None, g')) -> written tr <> []).
Proof.
  unfold processFile, format_from, backupFile. intros H.
  destruct g as [[|] code].
  all: exec_cases H; cbn.
  all: split;
    [ first [ left; reflexivity | right; split; [reflexivity|]; eauto ]
    | intros Hw [g' Hr]; first [discriminate Hw | discriminate Hr | discriminate] ].
Qed.

(** X16: [processFile] overwrites no file but the one it was given, and
    only after a backup file, created beside it under its name followed
    by a dot, has received the text that was read and has been closed
    without error. *)
Theorem processFile_backup_first filename in_ out stdin g tr r
    pre e post name data perm answer :
  exec (processFile filename in_ out stdin g) tr r ->
  tr = pre ++ e :: post ->
  overwrite_of e = Some (name, data, perm, answer) ->
  name = filename /\ write g = true
  /\ exists src backup,
       read pre = [src] /\ Source src = inl data /\ src <> data
       /\ Event (TempFile (Dir (filename +:+ ".")) (Base (filename +:+ ".")))
                (inl backup) ∈ pre
       /\ Event (FileWrite backup src) None ∈ pre
       /\ Event (FileClose backup) None ∈ pre.
Proof.
  unfold processFile, format_from, backupFile. intros H Hcut Hov.
  destruct g as [[|] code].
  all: exec_cases H; cut_trace pre Hcut; try discriminate Hov; fix_answers.
  all: cbn in Hov; injection Hov as <- <- <- <-.
  all: split; [reflexivity|]; split; [reflexivity|].
  all: eexists _, _; split; [reflexivity|]; split; [eassumption|].
  all: split;
    [ match goal with
      | Hb : negb (bool_decide _) = true |- _ =>
          apply negb_true_iff, bool_decide_eq_false in Hb; exact Hb
      end |].
  all: repeat split; trace_in.
Qed.

(** X17: the permission bits that [processFile] gives the file it
    overwrites are those of the file it has opened, [0644] when it reads
    from a reader instead; where [chmod] is supported, the backup file
    has been given the same bits. *)
Theorem processFile_permissions filename in_ out stdin g tr r
    pre e post name data perm answer :
  exec (processFile filename in_ out stdin g) tr r ->
  tr = pre ++ e :: post ->
  overwrite_of e = Some (name, data, perm, answer) ->
  match in_ with
  | None => exists f fi, Event (Open filename) (inl f) ∈ pre
                         /\ Event (FileStat f) (inl fi) ∈ pre
                         /\ perm = os.Perm (os.Mode fi)
  | Some _ => perm = 420%Z
  end
  /\ (chmodSupported = true ->
      exists backup, Event (FileChmod backup perm) None ∈ pre).
Proof.
  unfold processFile, format_from, backupFile. intros H Hcut Hov.
  destruct g as [[|] code].
  all: exec_cases H; cut_trace pre Hcut; try discriminate Hov; fix_answers.
  all: cbn in Hov; injection Hov as <- <- <- <-.
  all: split; [first [reflexivity | eexists _, _; repeat split; trace_in]|].
  all: intros Hc; first [congruence | eexists; trace_in].
Qed.

(** X18: after the overwrite, [processFile] changes the file system once
    more and no further: when the overwrite has failed it renames the
    backup file to the name of the file and returns the error of the
    overwrite; when it has succeeded it removes the backup file. *)
Theorem processFile_after_overwrite filename in_ out stdin g tr r
    pre e post name data perm answer :
  exec (processFile filename in_ out stdin g) tr r ->
  tr = pre ++ e :: post ->
  overwrite_of e = Some (name, data, perm, answer) ->
  exists backup dir pattern x rest,
    Event (TempFile dir pattern) (inl backup) ∈ pre
    /\ post = Event (match answer with
                     | Some _ => Rename (FileName backup) filename
                     | None => Remove (FileName backup)
                     end) x :: rest
    /\ Forall (fun e => changes_files e = false) rest
    /\ forall err, answer = Some err -> exists g', r = Returned (Some err, g').
Proof.
  unfold processFile, format_from, backupFile. intros H Hcut Hov.
  destruct g as [[|] code].
  all: exec_cases H; cut_trace pre Hcut; try discriminate Hov; fix_answers.
  all: cbn in Hov; injection Hov as <- <- <- <-.
  all: eexists _, _, _, _, _; split; [trace_in|]; split; [reflexivity|].
  all: split; [repeat constructor|].
  all: intros err' [=]; subst; eauto.
Qed.

End ProcessFile.

(** ** The backup, the visit of a file and the command *)

Section Command.

Context {platform : Platform}.

Implicit Types (g : globals) (tr : list event).

(** X19: [backupFile] returns no error only when the backup is complete:
    the temporary file has been created beside [filename], has been
    given the permissions where [chmod] is supported, has received the
    data and has been closed, each without error; the name returned is
    the name of that file. *)
Theorem backupFile_complete filename data perm tr name :
  exec (backupFile filename data perm) tr (Returned (name, None)) ->
  exists f,
    name = FileName f
    /\ tr = Event (TempFile (Dir filename) (Base filename)) (inl f)
            :: (if chmodSupported then [Event (FileChmod f perm) None] else [])
            ++ [Event (FileWrite f data) None; Event (FileClose f) None].
Proof.
  unfold backupFile. intros H. remember (Returned (name, None)) as r eqn:Hr.
  exec_cases H; try discriminate Hr; injection Hr as <- Herr; fix_answers;
    eexists; (split; [reflexivity|]); reflexivity.
Qed.

(** X20: [visitFile] never returns an error, so that a walk is not cut
    short; it panics only when it is given neither a file info nor an
    error; and the errors it reports are not not-exist errors, each
    report setting the exit code to 2. *)
Theorem visitFile_never_fails path f err g tr r :
  exec (visitFile path f err g) tr r ->
  r = Panicked nil_dereference /\ f = None /\ err = None /\ tr = []
  \/ exists g',
       r = Returned (None, g')
       /\ Forall (fun e => IsNotExist e = false) (reported tr)
       /\ (reported tr <> [] -> exitCode g' = 2%Z)
       /\ forall e, err = Some e -> reported tr = if IsNotExist e then [] else [e].
Proof.
  unfold visitFile, processFile, format_from, backupFile, report. intros H.
  destruct g as [[|] code].
  all: exec_cases H; cbn.
  all: try (left; repeat split; reflexivity).
  all: right; eexists; split; [reflexivity|].
  all: repeat match goal with
              | Hn : negb (IsNotExist _) = true |- _ => apply negb_true_iff in Hn
              | Hn : negb (IsNotExist _) = false |- _ => apply negb_false_iff in Hn
              end.
  all: split; [repeat (constructor; try assumption)|].
  all: split; [intros Hne; first [reflexivity | now destruct Hne]|].
  all: intros e' He; try discriminate He; injection He as <-.
  all: match goal with Hn : IsNotExist _ = _ |- _ => now rewrite Hn end.
Qed.

(** X21: for an entry that is found, [visitFile] opens the file at the
    path when [isGopFile] accepts the entry, and makes no call at all
    when it does not. *)
Theorem visitFile_opens_gop_files path fi g tr r :
  exec (visitFile path (Some fi) None g) tr r ->
  if isGopFile fi
  then exists x rest, tr = Event (Open path) x :: rest
  else tr = [] /\ r = Returned (None, g).
Proof.
  unfold visitFile. intros H. destruct (isGopFile fi).
  - apply exec_bind in H as [(a & tr1 & tr2 & -> & H1 & _)|(v & _ & H1)];
      unfold processFile in H1; cbn in H1;
      destruct H1 as (x & tr' & -> & _); cbn [app]; eauto.
  - cbn in H. now destruct H as [-> ->].
Qed.

Variable walkDir : string -> globals -> prog globals.

(** X22: without arguments, [qfmtMain] opens, creates and changes no
    file; with [-w] it does not read either: it writes nothing to the
    standard output and sets the exit code to 2. *)
Theorem qfmtMain_standard_input g tr r :
  exec (qfmtMain walkDir [] g) tr r ->
  opened tr = [] /\ Forall (fun e => changes_files e = false) tr
  /\ (write g = true ->
      read tr = [] /\ written tr = [] /\ r = Returned (set_exitCode 2 g)).
Proof.
  unfold qfmtMain, process_and_report, processFile, format_from, report.
  intros H. destruct g as [[|] code].
  all: exec_cases H; cbn.
  all: split; [reflexivity|]; split; [repeat constructor|].
  all: intros Hw; try discriminate Hw; repeat split.
Qed.

Lemma range_args_examines args g tr g' :
  exec (range_args walkDir args g) tr (Returned g') ->
  args `sublist_of` examined tr.
Proof.
  revert g tr. induction args as [|path args IH]; intros g tr H.
  - apply sublist_nil_l.
  - cbn [range_args bind perform exec] in H.
    destruct H as (x & tr' & -> & H). cbn [bind] in H.
    apply exec_bind in H as [(g1 & tr1 & tr2 & -> & _ & H2)|(v & [=] & _)].
    unfold examined. cbn [flat_map examined_by app]. rewrite flat_map_app.
    apply sublist_skip, sublist_inserts_l. exact (IH _ _ H2).
Qed.

(** X23: when [qfmtMain] returns, it has examined every argument with
    [os.Stat], in the order of the command line: an argument that cannot
    be examined or formatted does not keep the next ones from being
    processed. *)
Theorem qfmtMain_examines_all args g tr g' :
  exec (qfmtMain walkDir args g) tr (Returned g') ->
  args <> [] ->
  args `sublist_of` examined tr.
Proof.
  intros H Hne. destruct args as [|path args]; [congruence|].
  now apply (range_args_examines _ g tr g').
Qed.

End Command.

(** ** Examples of runs *)

#[local] Existing Instance qfmt_fixture.platform.

Lemma isGopFile_spec_witness :
  os.IsDir qfmt_fixture.info = false
  /\ String.get 0 (os.Name qfmt_fixture.info) <> Some dot
  /\ exists stem, stem <> EmptyString /\ os.Name qfmt_fixture.info = stem +:+ ".gop".
Proof. exact (proj1 (isGopFile_spec qfmt_fixture.info) eq_refl). Defined.

Lemma processFile_closes_opened_witness :
  closed (snd (qfmt_fixture.process false qfmt_fixture.with_w))
  ≡ₚ opened (snd (qfmt_fixture.process false qfmt_fixture.with_w)).
Proof.
  apply (processFile_closes_opened (platform := qfmt_fixture.platform)
           "/src/a.gop" None 1 false qfmt_fixture.with_w _
           (fst (qfmt_fixture.process false qfmt_fixture.with_w))).
  apply run_exec.
Defined.

Lemma processFile_changes_witness :
  let tr := snd (qfmt_fixture.process false qfmt_fixture.with_w) in
  (existsb changes_files tr = true
   <-> write qfmt_fixture.with_w = true
       /\ exists src res, read tr = [src] /\ Source src = inl res /\ src <> res)
  /\ exists err,
       fst (qfmt_fixture.process false qfmt_fixture.with_w)
       = Returned (err, if existsb changes_files tr
                        then set_exitCode 1 qfmt_fixture.with_w
                        else qfmt_fixture.with_w).
Proof.
  apply (processFile_changes (platform := qfmt_fixture.platform)
           "/src/a.gop" None 1 false qfmt_fixture.with_w).
  apply run_exec.
Defined.

Lemma processFile_output_witness :
  let tr := snd (qfmt_fixture.process false qfmt_fixture.without_w) in
  (written tr = []
   \/ write qfmt_fixture.without_w = false
      /\ exists src res,
           read tr = [src] /\ Source src = inl res /\ written tr = [(Stdout, res)])
  /\ (write qfmt_fixture.without_w = false ->
      (exists g', fst (qfmt_fixture.process false qfmt_fixture.without_w)
                  = Returned (None, g')) ->
      written tr <> []).
Proof.
  apply (processFile_output (platform := qfmt_fixture.platform)
           "/src/a.gop" None 1 false qfmt_fixture.without_w).
  apply run_exec.
Defined.

Lemma processFile_backup_first_witness :
  let tr := snd (qfmt_fixture.process false qfmt_fixture.with_w) in
  "/src/a.gop"%string = "/src/a.gop"%string /\ write qfmt_fixture.with_w = true
  /\ exists src backup,
       read (take 7 tr) = [src]
       /\ Source src = inl (bytes "package main" ++ [newline])
       /\ src <> bytes "package main" ++ [newline]
       /\ Event (TempFile (Dir ("/src/a.gop" +:+ ".")) (Base ("/src/a.gop" +:+ ".")))
                (inl backup) ∈ take 7 tr
       /\ Event (FileWrite backup src) None ∈ take 7 tr
       /\ Event (FileClose backup) None ∈ take 7 tr.
Proof.
  intros tr.
  apply (processFile_backup_first (platform := qfmt_fixture.platform)
           "/src/a.gop" None 1 false qfmt_fixture.with_w tr
           (fst (qfmt_fixture.process false qfmt_fixture.with_w))
           (take 7 tr) (qfmt_fixture.overwrite false) (drop 8 tr)
           "/src/a.gop" (bytes "package main" ++ [newline]) 420%Z None).
  - apply run_exec.
  - reflexivity.
  - reflexivity.
Defined.

Lemma processFile_permissions_witness :
  let tr := snd (qfmt_fixture.process false qfmt_fixture.with_w) in
  (exists f fi, Event (Open "/src/a.gop") (inl f) ∈ take 7 tr
                /\ Event (FileStat f) (inl fi) ∈ take 7 tr
                /\ 420%Z = os.Perm (os.Mode fi))
  /\ (chmodSupported = true ->
      exists backup, Event (FileChmod backup 420) None ∈ take 7 tr).
Proof.
  intros tr.
  apply (processFile_permissions (platform := qfmt_fixture.platform)
           "/src/a.gop" None 1 false qfmt_fixture.with_w tr
           (fst (qfmt_fixture.process false qfmt_fixture.with_w))
           (take 7 tr) (qfmt_fixture.overwrite false) (drop 8 tr)
           "/src/a.gop" (bytes "package main" ++ [newline]) 420%Z None).
  - apply run_exec.
  - reflexivity.
  - reflexivity.
Defined.

Lemma processFile_after_overwrite_witness :
  let tr := snd (qfmt_fixture.process true qfmt_fixture.with_w) in
  exists backup dir pattern x rest,
    Event (TempFile dir pattern) (inl backup) ∈ take 7 tr
    /\ drop 8 tr = Event (Rename (FileName backup) "/src/a.gop") x :: rest
    /\ Forall (fun e => changes_files e = false) rest
    /\ forall err,
         Some "no space left on device"%string = Some err ->
         exists g', fst (qfmt_fixture.process true qfmt_fixture.with_w)
                    = Returned (Some err, g').
Proof.
  intros tr.
  apply (processFile_after_overwrite (platform := qfmt_fixture.platform)
           "/src/a.gop" None 1 false qfmt_fixture.with_w tr
           (fst (qfmt_fixture.process true qfmt_fixture.with_w))
           (take 7 tr) (qfmt_fixture.overwrite true) (drop 8 tr)
           "/src/a.gop" (bytes "package main" ++ [newline]) 420%Z
           (Some "no space left on device"%string)).
  - apply run_exec.
  - reflexivity.
  - reflexivity.
Defined.

Lemma backupFile_complete_witness :
  exists f,
    "/src/a.gop.123"%string = FileName f
    /\ snd (run (qfmt_fixture.system false) []
              (backupFile "/src/a.gop." qfmt_fixture.content 420))
       = Event (TempFile (Dir "/src/a.gop.") (Base "/src/a.gop.")) (inl f)
         :: (if chmodSupported then [Event (FileChmod f 420) None] else [])
         ++ [Event (FileWrite f qfmt_fixture.content) None;
             Event (FileClose f) None].
Proof.
  apply (backupFile_complete (platform := qfmt_fixture.platform)
           "/src/a.gop." qfmt_fixture.content 420%Z).
  exact (run_exec (qfmt_fixture.system false) []
           (backupFile "/src/a.gop." qfmt_fixture.content 420)).
Defined.

Lemma visitFile_never_fails_witness :
  let rt := run (qfmt_fixture.system false) []
              (visitFile "/src/b.gop" None (Some "permission denied"%string)
                 qfmt_fixture.without_w) in
  fst rt = Panicked nil_dereference /\ None = None (A := os.FileInfo)
  /\ Some "permission denied"%string = None /\ snd rt = []
  \/ exists g',
       fst rt = Returned (None, g')
       /\ Forall (fun e => IsNotExist e = false) (reported (snd rt))
       /\ (reported (snd rt) <> [] -> exitCode g' = 2%Z)
       /\ forall e, Some "permission denied"%string = Some e ->
                    reported (snd rt) = if IsNotExist e then [] else [e].
Proof.
  intros rt.
  apply (visitFile_never_fails (platform := qfmt_fixture.platform)
           "/src/b.gop" None (Some "permission denied"%string)
           qfmt_fixture.without_w).
  apply run_exec.
Defined.

Lemma visitFile_opens_gop_files_witness :
  exists x rest,
    snd (run (qfmt_fixture.system false) []
           (visitFile "/src/a.gop" (Some qfmt_fixture.info) None
              qfmt_fixture.without_w))
    = Event (Open "/src/a.gop") x :: rest.
Proof.
  exact (visitFile_opens_gop_files (platform := qfmt_fixture.platform)
           "/src/a.gop" qfmt_fixture.info
           qfmt_fixture.without_w _ _
           (run_exec (qfmt_fixture.system false) []
              (visitFile "/src/a.gop" (Some qfmt_fixture.info) None
                 qfmt_fixture.without_w))).
Defined.

Lemma qfmtMain_standard_input_witness :
  let rt := run (qfmt_fixture.system false) []
              (qfmtMain qfmt_fixture.walkDir [] qfmt_fixture.with_w) in
  opened (snd rt) = [] /\ Forall (fun e => changes_files e = false) (snd rt)
  /\ (write qfmt_fixture.with_w = true ->
      read (snd rt) = [] /\ written (snd rt) = []
      /\ fst rt = Returned (set_exitCode 2 qfmt_fixture.with_w)).
Proof.
  intros rt.
  apply (qfmtMain_standard_input (platform := qfmt_fixture.platform)
           qfmt_fixture.walkDir qfmt_fixture.with_w).
  apply run_exec.
Defined.

Lemma qfmtMain_examines_all_witness :
  ["/src/a.gop"%string; "/src/b.gop"%string]
  `sublist_of`
  examined (snd (run (qfmt_fixture.system false) []
                   (qfmtMain qfmt_fixture.walkDir ["/src/a.gop"; "/src/b.gop"]
                      qfmt_fixture.without_w))).
Proof.
  apply (qfmtMain_examines_all (platform := qfmt_fixture.platform)
           qfmt_fixture.walkDir ["/src/a.gop"; "/src/b.gop"]%string
           qfmt_fixture.without_w _ qfmt_fixture.without_w).
  - exact (run_exec (qfmt_fixture.system false) []
             (qfmtMain qfmt_fixture.walkDir ["/src/a.gop"; "/src/b.gop"]
                qfmt_fixture.without_w)).
  - discriminate.
Defined.
